(** * local-rag: the indexer and the retrieval engine of [main.go]

    A shallow embedding of the chunker ([chunkFile], [chunkGoCode],
    [chunkBySize]), of chunk identity and the store writer ([storeChunks]),
    of the embedding client ([getEmbeddings], [generateEmbeddings]), of the
    ranking query of [SearchCodeAdvanced] with [globToRegex] and
    [extractKeywords], and of the project-path rule of [processFile].

    Conventions.
    - A Go [string] is a sequence of bytes: [list ascii].  [len] is Go's
      [len], as an integer.
    - A Go [int] is 64 bits wide.  Every integer the chunker computes is a
      length, a line number or an offset bounded by the size of the file
      held in memory, so no operation wraps; integers are [Z].
    - A run-time panic (slice bounds or index out of range) is [None].
    - A [float64] is a binary64 number: Rocq's primitive [float]. *)

From Stdlib Require Import ZArith Lia List Ascii String Bool Floats DecimalString Sorted.
From stdpp Require Import gmap strings list.
Import ListNotations.

Set Warnings "-inexact-float".
Local Open Scope Z_scope.

(** ** Go strings *)

Abbreviation gostring := (list ascii).

Definition str (s : string) : gostring := list_ascii_of_string s.

Definition len {A : Type} (l : list A) : Z := Z.of_nat (length l).

Definition LF : ascii := ascii_of_nat 10.
Definition DQUOTE : ascii := ascii_of_nat 34.

(** [strings.Split(s, sep)] for a one-byte separator (every call in
    [main.go] passes one: a line feed or the path separator). *)
Fixpoint Split (s : gostring) (sep : ascii) : list gostring :=
  match s with
  | [] => [[]]
  | c :: s' =>
      if Ascii.eqb c sep then [] :: Split s' sep
      else match Split s' sep with
           | [] => [[c]]
           | l :: ls => (c :: l) :: ls
           end
  end.

(** [strings.Join(elems, sep)]. *)
Fixpoint Join (elems : list gostring) (sep : gostring) : gostring :=
  match elems with
  | [] => []
  | [e] => e
  | e :: rest => e ++ sep ++ Join rest sep
  end.

(** [%d] of [fmt.Sprintf]. *)
Definition itoa (z : Z) : gostring :=
  list_ascii_of_string (NilZero.string_of_int (Z.to_int z)).

(** The slice expression [s[lo:]]: it panics unless [0 <= lo <= len(s)]. *)
Definition slice_from {A : Type} (s : list A) (lo : Z) : option (list A) :=
  if (lo <? 0) || (len s <? lo) then None else Some (drop (Z.to_nat lo) s).

(** The slice expression [s[lo:hi]]: it panics unless
    [0 <= lo <= hi <= len(s)]. *)
Definition slice {A : Type} (s : list A) (lo hi : Z) : option (list A) :=
  if (lo <? 0) || (hi <? lo) || (len s <? hi) then None
  else Some (take (Z.to_nat (hi - lo)) (drop (Z.to_nat lo) s)).

(** ** Data model *)

Record Config := {
  MaxChunkSize : Z;
  ChunkOverlap : Z
}.

(** The flag defaults of [main]. *)
Definition defaultConfig : Config :=
  {| MaxChunkSize := 1000; ChunkOverlap := 100 |}.

Record CodeChunk := {
  ID : gostring;
  Content : gostring;
  FilePath : gostring;
  ProjectPath : gostring;
  Language : gostring;
  StartLine : Z;
  EndLine : Z;
  EntityType : gostring;
  Name : gostring;
  Signature : gostring;
  Embedding : list float;
  Hash : gostring;
  Score : float
}.

(** ** The size-based chunker *)

(** The chunk literal of [chunkBySize]: the fields it does not name are
    Go's zero values. *)
Definition sizeChunk (filePath projectPath language content : gostring)
    (startLine endLine : Z) : CodeChunk :=
  {| ID := [];
     Content := content;
     FilePath := filePath;
     ProjectPath := projectPath;
     Language := language;
     StartLine := startLine;
     EndLine := endLine;
     EntityType := str "chunk";
     Name := str "chunk_" ++ itoa startLine ++ str "_" ++ itoa endLine;
     Signature := [];
     Embedding := [];
     Hash := [];
     Score := 0%float |}.

(** The inner loop that recomputes [currentSize] from the kept lines. *)
Definition linesSize (currentChunk : list gostring) : Z :=
  fold_left (fun size line => size + (len line + 1)) currentChunk 0.

(** The [for i, line := range lines] loop of [chunkBySize]; the lines still
    to visit are the argument, and [i == len(lines)-1] holds exactly when
    none follows [line]. *)
Fixpoint chunkBySize_loop (cfg : Config) (filePath projectPath language : gostring)
    (lines currentChunk : list gostring) (currentSize startLine : Z)
    (chunks : list CodeChunk) : option (list CodeChunk) :=
  match lines with
  | [] => Some chunks
  | line :: rest =>
      let lineLen := len line + 1 in
      let currentChunk := currentChunk ++ [line] in
      let currentSize := currentSize + lineLen in
      if (MaxChunkSize cfg <=? currentSize) || (match rest with [] => true | _ => false end)
      then
        let chunkContent := Join currentChunk [LF] in
        let endLine := startLine + len currentChunk - 1 in
        let chunks :=
          chunks ++ [sizeChunk filePath projectPath language chunkContent startLine endLine] in
        let overlapLines :=
          if len currentChunk <? ChunkOverlap cfg then len currentChunk
          else ChunkOverlap cfg in
        match slice_from currentChunk (len currentChunk - overlapLines) with
        | None => None
        | Some kept =>
            chunkBySize_loop cfg filePath projectPath language rest kept
              (linesSize kept) (endLine - overlapLines + 1) chunks
        end
      else
        chunkBySize_loop cfg filePath projectPath language rest currentChunk
          currentSize startLine chunks
  end.

Definition chunkBySize (cfg : Config) (content filePath projectPath language : gostring)
    : option (list CodeChunk) :=
  let lines := Split content LF in
  if len content <=? MaxChunkSize cfg then
    Some [sizeChunk filePath projectPath language content 1 (len lines)]
  else
    chunkBySize_loop cfg filePath projectPath language lines [] 0 1 [].

(** *** What the claims about the chunkers speak of *)

(** The number of lines of a text, as both chunkers count them. *)
Definition numLines (content : gostring) : Z := len (Split content LF).

(** Line [k] lies in the inclusive line range of some chunk. *)
Definition covered (chunks : list CodeChunk) (k : Z) : Prop :=
  exists c, In c chunks /\ StartLine c <= k <= EndLine c.

(** The overlap region of a chunk: the lines it shares with its predecessor
    are its first [EndLine prev - StartLine cur + 1] lines, and the region
    is their text, the line feeds between them included. *)
Definition overlapRegion (prev cur : CodeChunk) : gostring :=
  Join (take (Z.to_nat (EndLine prev - StartLine cur + 1)) (Split (Content cur) LF)) [LF].

Definition withoutOverlap (prev cur : CodeChunk) : gostring :=
  drop (length (overlapRegion prev cur)) (Content cur).

Fixpoint reassembleAfter (prev : CodeChunk) (chunks : list CodeChunk) : gostring :=
  match chunks with
  | [] => []
  | c :: rest => withoutOverlap prev c ++ reassembleAfter c rest
  end.

(** The first chunk whole, then every later chunk without its overlap region. *)
Definition reassemble (chunks : list CodeChunk) : gostring :=
  match chunks with
  | [] => []
  | c :: rest => Content c ++ reassembleAfter c rest
  end.

(** [tiled next last chunks]: read in order, every chunk starts at or before
    the first line not covered so far ([next]), has a well-formed range, and
    the last one ends on line [last]. *)
Fixpoint tiled (next last : Z) (chunks : list CodeChunk) : Prop :=
  match chunks with
  | [] => next = last + 1
  | c :: rest =>
      1 <= StartLine c /\ StartLine c <= next /\ StartLine c <= EndLine c /\
      tiled (EndLine c + 1) last rest
  end.

(** ** Regular expressions of the structural chunker

    Go's [regexp] finds the leftmost match and, among the matches that start
    there, the one a backtracking search meets first.  [regex] holds the
    constructs the two patterns of [chunkGoCode] use; [rmatch] is that
    backtracking search, with the rest of the pattern as a continuation.
    The patterns are matched byte by byte: their literals and classes are
    ASCII, and [.] is followed by an ASCII literal, so a match never ends
    inside a multi-byte character. *)

Inductive regex :=
  | Lit (c : ascii)                          (* a literal byte *)
  | Class (p : ascii -> bool)                (* one byte of a class *)
  | Cat (r1 r2 : regex)                      (* r1 r2 *)
  | Repeat (greedy : bool) (p : ascii -> bool) (* p* (greedy) or p*? *)
  | Opt (r : regex)                          (* (?:r)?, preferring r *)
  | Group (i : nat) (r : regex).             (* the capture group i *)

(** Capture group [i] spans the offsets [(a, b)]. *)
Abbreviation captures := (list (nat * (Z * Z))).

Fixpoint rrepeat {R : Type} (greedy : bool) (p : ascii -> bool) (s : gostring) (pos : Z)
    (k : gostring -> Z -> option R) : option R :=
  match s with
  | c :: s' =>
      if p c then
        if greedy then
          match rrepeat greedy p s' (pos + 1) k with
          | Some x => Some x
          | None => k s pos
          end
        else
          match k s pos with
          | Some x => Some x
          | None => rrepeat greedy p s' (pos + 1) k
          end
      else k s pos
  | [] => k s pos
  end.

(** [rmatch r s pos caps k]: match [r] at offset [pos], where the text from
    there on is [s], then go on with [k]. *)
Fixpoint rmatch {R : Type} (r : regex) (s : gostring) (pos : Z) (caps : captures)
    (k : gostring -> Z -> captures -> option R) : option R :=
  match r with
  | Lit c =>
      match s with
      | c' :: s' => if Ascii.eqb c' c then k s' (pos + 1) caps else None
      | [] => None
      end
  | Class p =>
      match s with
      | c' :: s' => if p c' then k s' (pos + 1) caps else None
      | [] => None
      end
  | Cat r1 r2 =>
      rmatch r1 s pos caps (fun s' pos' caps' => rmatch r2 s' pos' caps' k)
  | Repeat greedy p =>
      rrepeat greedy p s pos (fun s' pos' => k s' pos' caps)
  | Opt r' =>
      match rmatch r' s pos caps k with
      | Some x => Some x
      | None => k s pos caps
      end
  | Group i r' =>
      rmatch r' s pos caps (fun s' pos' caps' => k s' pos' ((i, (pos, pos')) :: caps'))
  end.

(** One entry of [FindAllStringSubmatchIndex]: [m[0]], [m[1]] and the groups. *)
Record submatch := {
  sm_start : Z;
  sm_end : Z;
  sm_groups : captures
}.

Definition matchAt (r : regex) (s : gostring) (pos : Z) : option submatch :=
  rmatch r s pos []
    (fun _ e caps => Some {| sm_start := pos; sm_end := e; sm_groups := caps |}).

(** [re.FindAllStringSubmatchIndex(content, -1)] for a pattern that matches
    no empty string (both patterns start with the literal [func]): the
    leftmost match from the current offset on, then the search goes on where
    that match ended.  [skip] counts the bytes of the last match still to
    step over; [s] is the text from offset [pos] on. *)
Fixpoint findAll (r : regex) (s : gostring) (pos : Z) (skip : nat) : list submatch :=
  match skip with
  | S n =>
      match s with
      | [] => []
      | _ :: s' => findAll r s' (pos + 1) n
      end
  | O =>
      match matchAt r s pos with
      | Some m =>
          m :: match s with
               | [] => []
               | _ :: s' => findAll r s' (pos + 1) (Z.to_nat (sm_end m - pos) - 1)
               end
      | None =>
          match s with
          | [] => []
          | _ :: s' => findAll r s' (pos + 1) 0
          end
      end
  end.

Definition FindAllStringSubmatchIndex (r : regex) (content : gostring) : list submatch :=
  findAll r content 0 0.

(** The Perl classes of Go's [regexp/syntax]. *)
Definition isSpace (c : ascii) : bool :=          (* \s = [\t\n\f\r ] *)
  let n := nat_of_ascii c in
  (n =? 9)%nat || (n =? 10)%nat || (n =? 12)%nat || (n =? 13)%nat || (n =? 32)%nat.

Definition isWord (c : ascii) : bool :=           (* \w = [0-9A-Za-z_] *)
  let n := nat_of_ascii c in
  ((48 <=? n) && (n <=? 57))%nat || ((65 <=? n) && (n <=? 90))%nat
  || ((97 <=? n) && (n <=? 122))%nat || (n =? 95)%nat.

Definition isDot (c : ascii) : bool :=            (* . = any byte but a line feed *)
  negb (Ascii.eqb c LF).

Definition lits (s : string) (r : regex) : regex :=
  fold_right (fun c acc => Cat (Lit c) acc) r (list_ascii_of_string s).

Definition plus (p : ascii -> bool) : regex := Cat (Class p) (Repeat true p).
Definition star (p : ascii -> bool) : regex := Repeat true p.
Definition lazyStar (p : ascii -> bool) : regex := Repeat false p.

Fixpoint cats (rs : list regex) : regex :=
  match rs with
  | [] => Repeat true (fun _ => false)
  | [r] => r
  | r :: rest => Cat r (cats rest)
  end.

(** The tail both patterns share: [(\w+)\s*\((.*?)\)(?:\s+\w+)?\s*{]. *)
Definition nameAndSignature : regex :=
  cats [ Group 1 (plus isWord); star isSpace; Lit "(";
        Group 2 (lazyStar isDot); Lit ")";
        Opt (Cat (plus isSpace) (plus isWord)); star isSpace; Lit "{" ].

(** [func\s+(\w+)\s*\((.*?)\)(?:\s+\w+)?\s*{] *)
Definition funcPattern : regex :=
  lits "func" (cats [ plus isSpace; nameAndSignature ]).

(** [func\s+\(\w+\s+\*?\w+\)\s+(\w+)\s*\((.*?)\)(?:\s+\w+)?\s*{] *)
Definition methodPattern : regex :=
  lits "func"
    (cats [ plus isSpace; Lit "("; plus isWord; plus isSpace; Opt (Lit "*");
           plus isWord; Lit ")"; plus isSpace; nameAndSignature ]).

(** ** The structural chunker for Go *)

Record goMatch := {
  start : Z;
  end_ : Z;
  name : gostring;
  sig_ : gostring;
  isMethod : bool
}.

(** [content[a:b]] between offsets a match reported; they satisfy
    [0 <= a <= b <= len(content)], so the expression cannot panic. *)
Definition substr (content : gostring) (a b : Z) : gostring :=
  take (Z.to_nat (b - a)) (drop (Z.to_nat a) content).

Definition group (i : nat) (m : submatch) : option (Z * Z) :=
  snd <$> List.find (fun g => (fst g =? i)%nat) (sm_groups m).

(** The two loops that fill [allMatches].  Every entry of
    [FindAllStringSubmatchIndex] has [2 * 3] offsets, so both length tests
    hold; a group that did not take part (neither pattern has one) would
    have offsets [-1]. *)
Definition toGoMatch (content : gostring) (method : bool) (m : submatch) : goMatch :=
  let g1 := default (-1, -1) (group 1 m) in
  let g2 := default (-1, -1) (group 2 m) in
  {| start := sm_start m;
     end_ := sm_end m;
     name := substr content (fst g1) (snd g1);
     sig_ := substr content (fst g2) (snd g2);
     isMethod := method |}.

(** [sort.Slice(allMatches, ...)] by [start].  A function match and a
    method match never start at the same offset ([func\s+] is followed by a
    word byte in one pattern and by a parenthesis in the other), so the keys
    are distinct and the order does not depend on the sorting algorithm. *)
Fixpoint insertByStart (m : goMatch) (sorted : list goMatch) : list goMatch :=
  match sorted with
  | [] => [m]
  | m' :: rest =>
      if start m' <? start m then m' :: insertByStart m rest else m :: sorted
  end.

Definition sortByStart (ms : list goMatch) : list goMatch :=
  fold_right insertByStart [] ms.

(** [sort.Search(n, f)]: binary search for the least index in [[0, n)] where
    [f] holds, [n] when there is none. *)
Fixpoint Search_loop (fuel : nat) (f : Z -> bool) (i j : Z) : Z :=
  match fuel with
  | O => i
  | S fuel' =>
      if i <? j then
        let h := (i + j) / 2 in
        if negb (f h) then Search_loop fuel' f (h + 1) j
        else Search_loop fuel' f i h
      else i
  end.

Definition Search (n : Z) (f : Z -> bool) : Z :=
  Search_loop (Z.to_nat n) f 0 n.

(** [linePositions]: the offset at which each line starts, and one entry
    more, [len(content) + 1]. *)
Fixpoint linePositionsFrom (lines : list gostring) (pos : Z) : list Z :=
  match lines with
  | [] => [pos]
  | line :: rest => pos :: linePositionsFrom rest (pos + (len line + 1))
  end.

Definition lineOf (linePositions : list Z) (offset : Z) : Z :=
  let l := Search (len linePositions)
             (fun i => offset <? nth (Z.to_nat i) linePositions 0) - 1 in
  if l <? 0 then 0 else l.

(** The [for i, m := range allMatches] loop. *)
Fixpoint goChunks (content filePath projectPath : gostring) (linePositions : list Z)
    (allMatches : list goMatch) : list CodeChunk :=
  match allMatches with
  | [] => []
  | m :: rest =>
      let startPos := start m in
      let endPos := match rest with
                    | next :: _ => start next
                    | [] => len content
                    end in
      let startLine := lineOf linePositions startPos in
      let endLine := lineOf linePositions endPos in
      {| ID := [];
         Content := substr content startPos endPos;
         FilePath := filePath;
         ProjectPath := projectPath;
         Language := str "Go";
         StartLine := startLine + 1;
         EndLine := endLine + 1;
         EntityType := if isMethod m then str "method" else str "function";
         Name := name m;
         Signature := sig_ m;
         Embedding := [];
         Hash := [];
         Score := 0%float |}
      :: goChunks content filePath projectPath linePositions rest
  end.

Definition chunkGoCode (content filePath projectPath : gostring) : list CodeChunk :=
  let funcMatches := FindAllStringSubmatchIndex funcPattern content in
  let methodMatches := FindAllStringSubmatchIndex methodPattern content in
  let allMatches :=
    sortByStart (map (toGoMatch content false) funcMatches
                 ++ map (toGoMatch content true) methodMatches) in
  let lines := Split content LF in
  goChunks content filePath projectPath (linePositionsFrom lines 0) allMatches.

(** ** MD5 ([crypto/md5]) and lower-case hexadecimal ([encoding/hex])

    RFC 1321 over 32-bit words held in [N], every addition reduced modulo
    [2^32]. *)

Module MD5.

Local Open Scope N_scope.

Definition w32 (x : N) : N := x mod 0x100000000.
Definition add32 (x y : N) : N := w32 (x + y).
Definition not32 (x : N) : N := N.lxor x 0xffffffff.
Definition rotl32 (x c : N) : N :=
  w32 (N.lor (N.shiftl x c) (N.shiftr x (32 - c))).

(** The per-round shift amounts. *)
Definition S : list N :=
  [ 7; 12; 17; 22; 7; 12; 17; 22; 7; 12; 17; 22; 7; 12; 17; 22;
    5; 9; 14; 20; 5; 9; 14; 20; 5; 9; 14; 20; 5; 9; 14; 20;
    4; 11; 16; 23; 4; 11; 16; 23; 4; 11; 16; 23; 4; 11; 16; 23;
    6; 10; 15; 21; 6; 10; 15; 21; 6; 10; 15; 21; 6; 10; 15; 21 ].

(** [K[i] = floor(2^32 * |sin(i + 1)|)]. *)
Definition K : list N :=
  [ 0xd76aa478; 0xe8c7b756; 0x242070db; 0xc1bdceee;
    0xf57c0faf; 0x4787c62a; 0xa8304613; 0xfd469501;
    0x698098d8; 0x8b44f7af; 0xffff5bb1; 0x895cd7be;
    0x6b901122; 0xfd987193; 0xa679438e; 0x49b40821;
    0xf61e2562; 0xc040b340; 0x265e5a51; 0xe9b6c7aa;
    0xd62f105d; 0x02441453; 0xd8a1e681; 0xe7d3fbc8;
    0x21e1cde6; 0xc33707d6; 0xf4d50d87; 0x455a14ed;
    0xa9e3e905; 0xfcefa3f8; 0x676f02d9; 0x8d2a4c8a;
    0xfffa3942; 0x8771f681; 0x6d9d6122; 0xfde5380c;
    0xa4beea44; 0x4bdecfa9; 0xf6bb4b60; 0xbebfbc70;
    0x289b7ec6; 0xeaa127fa; 0xd4ef3085; 0x04881d05;
    0xd9d4d039; 0xe6db99e5; 0x1fa27cf8; 0xc4ac5665;
    0xf4292244; 0x432aff97; 0xab9423a7; 0xfc93a039;
    0x655b59c3; 0x8f0ccc92; 0xffeff47d; 0x85845dd1;
    0x6fa87e4f; 0xfe2ce6e0; 0xa3014314; 0x4e0811a1;
    0xf7537e82; 0xbd3af235; 0x2ad7d2bb; 0xeb86d391 ].

(** Little-endian bytes of a word, and back. *)
Fixpoint le_bytes (n : nat) (x : N) : list N :=
  match n with
  | O => []
  | Datatypes.S n' => (x mod 256) :: le_bytes n' (x / 256)
  end.

Definition le_word (bs : list N) : N :=
  fold_right (fun b acc => b + 256 * acc) 0 bs.

(** The message, a [0x80] byte, zero bytes up to 56 modulo 64, and the
    length in bits as 8 little-endian bytes. *)
Definition pad (msg : list N) : list N :=
  let n := N.of_nat (length msg) in
  let zeros := N.to_nat ((64 + 56 - (n + 1) mod 64) mod 64) in
  msg ++ [0x80] ++ repeat 0 zeros ++ le_bytes 8 ((8 * n) mod 0x10000000000000000).

Fixpoint words (n : nat) (bs : list N) : list N :=
  match n with
  | O => []
  | Datatypes.S n' => le_word (take 4 bs) :: words n' (drop 4 bs)
  end.

Definition round (M : list N) (st : N * N * N * N) (i : nat) : N * N * N * N :=
  let '(A, B, C, D) := st in
  let '(F, g) :=
    if (i <? 16)%nat then (N.lor (N.land B C) (N.land (not32 B) D), i)
    else if (i <? 32)%nat then
      (N.lor (N.land D B) (N.land (not32 D) C), ((5 * i + 1) mod 16)%nat)
    else if (i <? 48)%nat then (N.lxor (N.lxor B C) D, ((3 * i + 5) mod 16)%nat)
    else (N.lxor C (N.lor B (not32 D)), ((7 * i) mod 16)%nat) in
  let F := add32 (add32 (add32 F A) (nth i K 0)) (nth g M 0) in
  (D, add32 B (rotl32 F (nth i S 0)), B, C).

Definition block (st : N * N * N * N) (bs : list N) : N * N * N * N :=
  let M := words 16 bs in
  let '(a0, b0, c0, d0) := st in
  let '(A, B, C, D) := fold_left (round M) (List.seq 0 64) st in
  (add32 a0 A, add32 b0 B, add32 c0 C, add32 d0 D).

Fixpoint blocks (n : nat) (st : N * N * N * N) (bs : list N) : N * N * N * N :=
  match n with
  | O => st
  | Datatypes.S n' => blocks n' (block st (take 64 bs)) (drop 64 bs)
  end.

(** [md5.Sum]: the 16 bytes of the digest. *)
Definition Sum (msg : gostring) : list N :=
  let bs := pad (map N_of_ascii msg) in
  let '(a, b, c, d) :=
    blocks (length bs / 64) (0x67452301, 0xefcdab89, 0x98badcfe, 0x10325476) bs in
  le_bytes 4 a ++ le_bytes 4 b ++ le_bytes 4 c ++ le_bytes 4 d.

End MD5.

Definition hexDigit (n : N) : ascii :=
  ascii_of_N (if (n <? 10)%N then 48 + n else 87 + n)%N.

(** [hex.EncodeToString]. *)
Definition EncodeToString (bs : list N) : gostring :=
  flat_map (fun b => [hexDigit (b / 16)%N; hexDigit (b mod 16)%N]) bs.

Definition md5hex (s : gostring) : gostring := EncodeToString (MD5.Sum s).

(** ** chunkFile *)

(** The last loop of [chunkFile]: the id from the file path and the line
    range, the hash from the content. *)
Definition withIdentity (filePath : gostring) (c : CodeChunk) : CodeChunk :=
  let idStr := filePath ++ str ":" ++ itoa (StartLine c) ++ str ":" ++ itoa (EndLine c) in
  {| ID := md5hex idStr;
     Content := Content c;
     FilePath := FilePath c;
     ProjectPath := ProjectPath c;
     Language := Language c;
     StartLine := StartLine c;
     EndLine := EndLine c;
     EntityType := EntityType c;
     Name := Name c;
     Signature := Signature c;
     Embedding := Embedding c;
     Hash := md5hex (Content c);
     Score := Score c |}.

Definition eqString (a b : gostring) : bool := bool_decide (a = b).

(** The chunks before they get their identity: the structural chunks of a
    Go file when there are at least two, the size-based chunks otherwise. *)
Definition chunkFile_split (cfg : Config) (content filePath projectPath language : gostring)
    : option (list CodeChunk) :=
  let chunks :=
    if eqString language (str "Go") then chunkGoCode content filePath projectPath
    else [] in
  if len chunks <? 2 then chunkBySize cfg content filePath projectPath language
  else Some chunks.

Definition chunkFile (cfg : Config) (content filePath projectPath language : gostring)
    : option (list CodeChunk) :=
  match chunkFile_split cfg content filePath projectPath language with
  | None => None
  | Some chunks => Some (map (withIdentity filePath) chunks)
  end.

(** Matches in the order of their offsets. *)
Fixpoint ascending (ms : list goMatch) : Prop :=
  match ms with
  | m :: (m' :: _) as rest => start m <= start m' /\ ascending rest
  | _ => True
  end.

(** The file of the spec's single-function scenario:
    [func Hello(name string) string { return "hi" }]. *)
Definition helloFile : gostring :=
  str "func Hello(name string) string { return " ++ [DQUOTE] ++ str "hi" ++ [DQUOTE]
  ++ str " }".

(** A Go file with a package clause and two functions. *)
Definition twoFuncsFile : gostring :=
  Join [ str "package main"; str "func A() {"; str "}"; str "func B() {"; str "}"; [] ] [LF].

Definition sample_config : Config := {| MaxChunkSize := 5; ChunkOverlap := 1 |}.

Definition sample_text : gostring :=
  Join [ str "ab"; str "cd"; str "ef"; str "gh"; [] ] [LF].

(** ** The graph store and storeChunks

    The store as the queries of [storeChunks] see it: [Project] nodes keyed
    by path, [File] nodes keyed by path, [Chunk] nodes keyed by id (the
    three uniqueness constraints of [initDatabase]) and the two kinds of
    relationship.  This is the path on which every query succeeds; an error
    of the driver aborts the transaction and leaves the store as it was. *)

Record ProjectNode := {
  p_name : gostring;
  p_created_at : gostring;
  p_updated_at : option gostring
}.

Record FileNode := {
  f_name : gostring;
  f_language : gostring;
  f_created_at : gostring;
  f_updated_at : option gostring
}.

(** The properties the [SET] clause writes; it does not write
    [project_path]. *)
Record ChunkNode := {
  c_content : gostring;
  c_file_path : gostring;
  c_start_line : Z;
  c_end_line : Z;
  c_entity_type : gostring;
  c_name : gostring;
  c_signature : gostring;
  c_language : gostring;
  c_hash : gostring;
  c_embedding : list float;
  c_created_at : gostring;
  c_updated_at : gostring
}.

Record Store := {
  projects : gmap gostring ProjectNode;
  files : gmap gostring FileNode;
  chunkNodes : gmap gostring ChunkNode;
  belongsTo : gset (gostring * gostring);       (* (file path, project path) *)
  partOf : gset (gostring * gostring)           (* (chunk id, file path) *)
}.

Definition emptyStore : Store :=
  {| projects := ∅; files := ∅; chunkNodes := ∅; belongsTo := ∅; partOf := ∅ |}.

(** [MERGE (p:Project {path: $projectPath}) ON CREATE SET ... ON MATCH SET ...] *)
Definition mergeProject (now projectPath projectName : gostring) (db : Store) : Store :=
  let node :=
    match projects db !! projectPath with
    | None => {| p_name := projectName; p_created_at := now; p_updated_at := None |}
    | Some p => {| p_name := p_name p; p_created_at := p_created_at p;
                   p_updated_at := Some now |}
    end in
  {| projects := <[projectPath := node]> (projects db);
     files := files db; chunkNodes := chunkNodes db;
     belongsTo := belongsTo db; partOf := partOf db |}.

(** [MERGE (f:File {path: $filePath}) ... WITH f MATCH (p:Project ...)
    MERGE (f)-[:BELONGS_TO]->(p)] *)
Definition mergeFile (now filePath fileName language projectPath : gostring) (db : Store)
    : Store :=
  let node :=
    match files db !! filePath with
    | None => {| f_name := fileName; f_language := language; f_created_at := now;
                 f_updated_at := None |}
    | Some f => {| f_name := f_name f; f_language := f_language f;
                   f_created_at := f_created_at f; f_updated_at := Some now |}
    end in
  {| projects := projects db;
     files := <[filePath := node]> (files db);
     chunkNodes := chunkNodes db;
     belongsTo := match projects db !! projectPath with
                  | Some _ => {[ (filePath, projectPath) ]} ∪ belongsTo db
                  | None => belongsTo db
                  end;
     partOf := partOf db |}.

(** [MERGE (c:Chunk {id: $id}) ON CREATE SET c.created_at = datetime()
    SET c.content = ..., ... WITH c MATCH (f:File {path: $filePath})
    MERGE (c)-[:PART_OF]->(f)] *)
Definition mergeChunk (now : gostring) (chunk : CodeChunk) (db : Store) : Store :=
  let created :=
    match chunkNodes db !! ID chunk with
    | None => now
    | Some old => c_created_at old
    end in
  let node :=
    {| c_content := Content chunk;
       c_file_path := FilePath chunk;
       c_start_line := StartLine chunk;
       c_end_line := EndLine chunk;
       c_entity_type := EntityType chunk;
       c_name := Name chunk;
       c_signature := Signature chunk;
       c_language := Language chunk;
       c_hash := Hash chunk;
       c_embedding := Embedding chunk;
       c_created_at := created;
       c_updated_at := now |} in
  {| projects := projects db;
     files := files db;
     chunkNodes := <[ID chunk := node]> (chunkNodes db);
     belongsTo := belongsTo db;
     partOf := match files db !! FilePath chunk with
               | Some _ => {[ (ID chunk, FilePath chunk) ]} ∪ partOf db
               | None => partOf db
               end |}.

(** [MATCH (c:Chunk {id: $id}) RETURN c.hash], [result.Single()] and the
    comparison with the incoming hash: the chunk is skipped when a node
    with its id holds the same hash. *)
Definition unchanged (chunk : CodeChunk) (db : Store) : bool :=
  match chunkNodes db !! ID chunk with
  | Some node => eqString (c_hash node) (Hash chunk)
  | None => false
  end.

(** The [for _, chunk := range chunks] loop; beside the store it returns the
    ids of the chunks it wrote, in order. *)
Fixpoint storeEach (now : gostring) (chunks : list CodeChunk) (db : Store)
    : Store * list gostring :=
  match chunks with
  | [] => (db, [])
  | chunk :: rest =>
      if unchanged chunk db then storeEach now rest db
      else
        let '(db', written) := storeEach now rest (mergeChunk now chunk db) in
        (db', ID chunk :: written)
  end.

(** [filepath.Base] of a slash-separated path, as far as [storeChunks] needs
    it: the last element, trailing slashes dropped. *)
Definition Base (path : gostring) : gostring :=
  match filter (fun e => negb (eqString e [])) (Split path "/"%char) with
  | [] => match path with [] => str "." | _ => str "/" end
  | e :: rest => List.last rest e
  end.

(** [filepath.Ext]: the suffix from the last dot of the last element on. *)
Fixpoint Ext (path : gostring) : gostring :=
  match path with
  | [] => []
  | c :: rest =>
      if existsb (fun x => Ascii.eqb x "."%char || Ascii.eqb x "/"%char) rest then Ext rest
      else if Ascii.eqb c "."%char then path else []
  end.

(** ** Unicode text ([unicode/utf8], [unicode], [strings])

    Where Go looks at the characters of a string it reads it as UTF-8:
    [strings.ToLower] and [strings.Fields] go rune by rune once the string
    has a byte outside ASCII.  A byte that starts no well-formed sequence
    is read as the rune U+FFFD, of width one. *)

Definition byteN (c : ascii) : N := N_of_ascii c.

Definition isCont (b : N) : bool := ((0x80 <=? b) && (b <=? 0xBF))%N.

Definition RuneError : N := 0xFFFD%N.

(** [for _, r := range s] and [utf8.DecodeRuneInString]: the runes of a
    string, each with the bytes it was read from. *)
Fixpoint runes (bs : gostring) : list (N * gostring) :=
  match bs with
  | [] => []
  | c0 :: r0 =>
      let b0 := byteN c0 in
      if (b0 <? 0x80)%N then (b0, [c0]) :: runes r0
      else
        match r0 with
        | c1 :: r1 =>
            let b1 := byteN c1 in
            if ((0xC2 <=? b0) && (b0 <=? 0xDF) && isCont b1)%N then
              (((b0 - 0xC0) * 64 + (b1 - 0x80))%N, [c0; c1]) :: runes r1
            else
              match r1 with
              | c2 :: r2 =>
                  let b2 := byteN c2 in
                  if ((0xE0 <=? b0) && (b0 <=? 0xEF) && isCont b1 && isCont b2
                      && negb ((b0 =? 0xE0) && (b1 <? 0xA0))
                      && negb ((b0 =? 0xED) && (0x9F <? b1)))%N then
                    (((b0 - 0xE0) * 4096 + (b1 - 0x80) * 64 + (b2 - 0x80))%N, [c0; c1; c2])
                    :: runes r2
                  else
                    match r2 with
                    | c3 :: r3 =>
                        let b3 := byteN c3 in
                        if ((0xF0 <=? b0) && (b0 <=? 0xF4) && isCont b1 && isCont b2
                            && isCont b3
                            && negb ((b0 =? 0xF0) && (b1 <? 0x90))
                            && negb ((b0 =? 0xF4) && (0x8F <? b1)))%N then
                          (((b0 - 0xF0) * 262144 + (b1 - 0x80) * 4096
                            + (b2 - 0x80) * 64 + (b3 - 0x80))%N, [c0; c1; c2; c3])
                          :: runes r3
                        else (RuneError, [c0]) :: runes r0
                    | [] => (RuneError, [c0]) :: runes r0
                    end
              | [] => (RuneError, [c0]) :: runes r0
              end
        | [] => [(RuneError, [c0])]
        end
  end.

(** [utf8.AppendRune]: a surrogate and a value above U+10FFFF are written
    as U+FFFD. *)
Definition EncodeRune (r : N) : gostring :=
  let byte := ascii_of_N in
  (if r <=? 0x7F then [byte r]
   else if r <=? 0x7FF then [byte (0xC0 + r / 64); byte (0x80 + r mod 64)]
   else if (0x10FFFF <? r) || ((0xD800 <=? r) && (r <=? 0xDFFF)) then
     [byte 0xEF; byte 0xBF; byte 0xBD]
   else if r <=? 0xFFFF then
     [byte (0xE0 + r / 4096); byte (0x80 + (r / 64) mod 64); byte (0x80 + r mod 64)]
   else
     [byte (0xF0 + r / 262144); byte (0x80 + (r / 4096) mod 64);
      byte (0x80 + (r / 64) mod 64); byte (0x80 + r mod 64)])%N.

(** No byte of the string is outside ASCII. *)
Definition isASCII (s : gostring) : bool := forallb (fun c => (byteN c <? 0x80)%N) s.

(** The case tables of package [unicode] are those of the Unicode version
    the toolchain was built with; [lowerCase] stands for
    [unicode.To(unicode.LowerCase, r)] on the runes above ASCII, whatever
    that version maps them to. *)
Class UnicodeTables := { lowerCase : N -> N }.

(** [unicode.ToLower] *)
Definition unicodeToLower {tables : UnicodeTables} (r : N) : N :=
  (if r <=? 0x7F then
     if (0x41 <=? r) && (r <=? 0x5A) then r + 32 else r
   else lowerCase r)%N.

(** The lower-case form of an ASCII byte. *)
Definition lowerByte (c : ascii) : ascii :=
  let n := nat_of_ascii c in
  if ((65 <=? n) && (n <=? 90))%nat then ascii_of_nat (n + 32) else c.

(** [strings.ToLower]: byte by byte on an ASCII string; otherwise
    [strings.Map(unicode.ToLower, s)], which writes the lower-case form of
    each rune read. *)
Definition ToLower {tables : UnicodeTables} (s : gostring) : gostring :=
  if isASCII s then map lowerByte s
  else flat_map (fun r => EncodeRune (unicodeToLower (fst r))) (runes s).

(** A table that maps every rune above ASCII to itself.  The examples of
    this development lower ASCII texts only (queries and file extensions),
    on which no function consults the table. *)
Definition plainTables : UnicodeTables := {| lowerCase := fun r => r |}.

Definition langMap : list (string * string) :=
  [ (".go", "Go"); (".py", "Python"); (".js", "JavaScript"); (".ts", "TypeScript");
    (".java", "Java"); (".c", "C"); (".cpp", "C++"); (".h", "C/C++ Header");
    (".hpp", "C++ Header"); (".cs", "C#"); (".php", "PHP"); (".rb", "Ruby");
    (".rs", "Rust"); (".swift", "Swift"); (".kt", "Kotlin"); (".sh", "Shell");
    (".html", "HTML"); (".css", "CSS"); (".sql", "SQL"); (".md", "Markdown") ]%string.

Definition getLanguageFromExt {tables : UnicodeTables} (ext : gostring) : gostring :=
  let ext := ToLower ext in
  match List.find (fun e => eqString (str (fst e)) ext) langMap with
  | Some e => str (snd e)
  | None => str "Unknown"
  end.

Definition storeChunks {tables : UnicodeTables} (now : gostring) (chunks : list CodeChunk)
    (filePath projectPath : gostring) (db : Store) : Store * list gostring :=
  let db := mergeProject now projectPath (Base projectPath) db in
  let db := mergeFile now filePath (Base filePath)
              (getLanguageFromExt (Ext filePath)) projectPath db in
  storeEach now chunks db.

(** A Go file with two functions on one line. *)
Definition sameLineFile : gostring := str "func A() {} func B() {}".

(** One ingest of a file, as far as identity and the store go: chunk it and
    store the chunks (the embeddings assigned in between change neither an
    id nor a hash). *)
Definition ingest {tables : UnicodeTables}
    (cfg : Config) (now content filePath projectPath language : gostring)
    (db : Store) : option (Store * list gostring) :=
  match chunkFile cfg content filePath projectPath language with
  | None => None
  | Some chunks => Some (storeChunks now chunks filePath projectPath db)
  end.

(** ** Glob patterns and the store's regular expressions *)

(** [regexp.QuoteMeta]: a backslash before each of [\.+*?()|[]{}^$]. *)
Definition isMeta (c : ascii) : bool :=
  existsb (Ascii.eqb c) (str "\.+*?()|[]{}^$").

Definition QuoteMeta (s : gostring) : gostring :=
  flat_map (fun c => if isMeta c then ["\"%char; c] else [c]) s.

Fixpoint hasPrefix (s prefix : gostring) : bool :=
  match prefix, s with
  | [], _ => true
  | p :: prefix', c :: s' => Ascii.eqb c p && hasPrefix s' prefix'
  | _ :: _, [] => false
  end.

(** [strings.ReplaceAll(s, old, new)] for a non-empty [old]: the
    occurrences of [old] are found from the left and do not overlap;
    [skip] counts the bytes of the occurrence just replaced that are still
    to be stepped over. *)
Fixpoint replaceFrom (s old new : gostring) (skip : nat) : gostring :=
  match s with
  | [] => []
  | c :: s' =>
      match skip with
      | S n => replaceFrom s' old new n
      | O =>
          if hasPrefix s old then new ++ replaceFrom s' old new (length old - 1)
          else c :: replaceFrom s' old new 0
      end
  end.

Definition ReplaceAll (s old new : gostring) : gostring := replaceFrom s old new 0.

Definition globToRegex (pattern : gostring) : gostring :=
  let regex := QuoteMeta pattern in
  let regex := ReplaceAll regex (str "\*") (str ".*") in
  let regex := ReplaceAll regex (str "\?") (str ".") in
  str "^" ++ regex ++ str "$".

(** The store reads a string as a sequence of characters.  [utf8_decode]
    gives the code points of a byte string; a byte that starts no
    well-formed sequence reads as U+FFFD. *)
Fixpoint utf8_decode (bs : gostring) : list N :=
  match bs with
  | [] => []
  | c0 :: r0 =>
      let b0 := byteN c0 in
      if (b0 <? 0x80)%N then b0 :: utf8_decode r0
      else
        match r0 with
        | c1 :: r1 =>
            let b1 := byteN c1 in
            if ((0xC2 <=? b0) && (b0 <=? 0xDF) && isCont b1)%N then
              ((b0 - 0xC0) * 64 + (b1 - 0x80))%N :: utf8_decode r1
            else
              match r1 with
              | c2 :: r2 =>
                  let b2 := byteN c2 in
                  if ((0xE0 <=? b0) && (b0 <=? 0xEF) && isCont b1 && isCont b2
                      && negb ((b0 =? 0xE0) && (b1 <? 0xA0))
                      && negb ((b0 =? 0xED) && (0x9F <? b1)))%N then
                    ((b0 - 0xE0) * 4096 + (b1 - 0x80) * 64 + (b2 - 0x80))%N
                    :: utf8_decode r2
                  else
                    match r2 with
                    | c3 :: r3 =>
                        let b3 := byteN c3 in
                        if ((0xF0 <=? b0) && (b0 <=? 0xF4) && isCont b1 && isCont b2
                            && isCont b3
                            && negb ((b0 =? 0xF0) && (b1 <? 0x90))
                            && negb ((b0 =? 0xF4) && (0x8F <? b1)))%N then
                          ((b0 - 0xF0) * 262144 + (b1 - 0x80) * 4096
                           + (b2 - 0x80) * 64 + (b3 - 0x80))%N
                          :: utf8_decode r3
                        else 0xFFFD%N :: utf8_decode r0
                    | [] => 0xFFFD%N :: utf8_decode r0
                    end
              | [] => 0xFFFD%N :: utf8_decode r0
              end
        | [] => [0xFFFD%N]
        end
  end.

(** The regular expressions [globToRegex] can produce, as the store's
    engine ([java.util.regex], through the operator [=~]) reads them:
    between the anchors, a literal character (escaped or not), [.] or
    [.*]. *)
Inductive jre :=
  | JLit (c : N)
  | JAny
  | JAnyStar.

(** The characters [.] does not match: the line terminators. *)
Definition lineTerminator (c : N) : bool :=
  ((c =? 0x0A) || (c =? 0x0D) || (c =? 0x85) || (c =? 0x2028) || (c =? 0x2029))%N.

Definition chr (c : ascii) : N := N_of_ascii c.

(** The body of a pattern, up to the closing [$]; [None] for a pattern
    outside this dialect. *)
Fixpoint parseBody (cs : list N) : option (list jre) :=
  match cs with
  | [] => None
  | c :: rest =>
      if (c =? chr "$")%N then
        match rest with [] => Some [] | _ => None end
      else if (c =? chr "\")%N then
        match rest with
        | e :: rest' => cons (JLit e) <$> parseBody rest'
        | [] => None
        end
      else if (c =? chr ".")%N then
        match rest with
        | s :: rest' =>
            if (s =? chr "*")%N then cons JAnyStar <$> parseBody rest'
            else cons JAny <$> parseBody rest
        | [] => None
        end
      else if existsb (N.eqb c) (map chr (str "+*?()|[]{}^")) then None
      else cons (JLit c) <$> parseBody rest
  end.

Definition parseRegex (regex : gostring) : option (list jre) :=
  match utf8_decode regex with
  | c :: rest => if (c =? chr "^")%N then parseBody rest else None
  | [] => None
  end.

(** [.*] followed by the rest of the pattern. *)
Fixpoint anyStar (k : list N -> bool) (s : list N) : bool :=
  k s || match s with
         | c :: s' => negb (lineTerminator c) && anyStar k s'
         | [] => false
         end.

(** The whole of [s] matches the pattern. *)
Fixpoint jmatch (pattern : list jre) (s : list N) : bool :=
  match pattern with
  | [] => match s with [] => true | _ => false end
  | JLit c :: pattern' =>
      match s with
      | x :: s' => (x =? c)%N && jmatch pattern' s'
      | [] => false
      end
  | JAny :: pattern' =>
      match s with
      | x :: s' => negb (lineTerminator x) && jmatch pattern' s'
      | [] => false
      end
  | JAnyStar :: pattern' => anyStar (jmatch pattern') s
  end.

(** [text =~ regex]; [None] when the pattern is outside the dialect. *)
Definition regexMatches (text regex : gostring) : option bool :=
  (fun pattern => jmatch pattern (utf8_decode text)) <$> parseRegex regex.

(** A file path passes a glob of the path filter. *)
Definition globAccepts (glob path : gostring) : bool :=
  match regexMatches path (globToRegex glob) with
  | Some b => b
  | None => false
  end.

(** ** The embedding client *)

(** What a function returns beside a panic: a value or an [error]. *)
Inductive Result (A : Type) :=
  | Ok (a : A)
  | Error (e : gostring).
Arguments Ok {A} a.
Arguments Error {A} e.

(** What one [http.Post] to the embedding service and the decoding of its
    body come to: the request fails, the body does not decode into an
    [EmbeddingResponse], or it decodes and its [embeddings] field holds
    these vectors (none when the field is absent or [null]). *)
Inductive ServiceReply :=
  | TransportError (e : gostring)
  | UndecodableBody (e : gostring)
  | Decoded (embeddings : list (list float)).

(** The service, as the client sees it. *)
Abbreviation EmbeddingService := (list gostring -> ServiceReply).

Definition getEmbeddings (service : EmbeddingService) (texts : list gostring)
    : Result (list (list float)) :=
  match service texts with
  | TransportError e => Error e
  | UndecodableBody e => Error e
  | Decoded embeddings => Ok embeddings
  end.

Definition withEmbedding (embedding : list float) (c : CodeChunk) : CodeChunk :=
  {| ID := ID c; Content := Content c; FilePath := FilePath c;
     ProjectPath := ProjectPath c; Language := Language c;
     StartLine := StartLine c; EndLine := EndLine c; EntityType := EntityType c;
     Name := Name c; Signature := Signature c; Embedding := embedding;
     Hash := Hash c; Score := Score c |}.

(** [for i, embedding := range embeddings { chunks[i].Embedding = embedding }]:
    [chunks[i]] panics when [i] is not below [len(chunks)]. *)
Fixpoint assignEmbeddings (i : nat) (embeddings : list (list float))
    (chunks : list CodeChunk) : option (list CodeChunk) :=
  match embeddings with
  | [] => Some chunks
  | embedding :: rest =>
      match chunks !! i with
      | None => None
      | Some c => assignEmbeddings (S i) rest (<[i := withEmbedding embedding c]> chunks)
      end
  end.

(** [generateEmbeddings] writes into the slice it is given; the chunks as
    they are afterwards are returned beside the error. *)
Definition generateEmbeddings (service : EmbeddingService) (chunks : list CodeChunk)
    : option (Result (list CodeChunk)) :=
  match chunks with
  | [] => Some (Ok chunks)
  | _ =>
      match getEmbeddings service (map Content chunks) with
      | Error e => Some (Error (str "failed to generate embeddings: " ++ e))
      | Ok embeddings => Ok <$> assignEmbeddings 0 embeddings chunks
      end
  end.

(** ** The query analyzer: keywords *)

(** The [asciiSpace] table of package [strings]: tab, line feed, vertical
    tab, form feed, carriage return and space. *)
Definition isFieldSpace (c : ascii) : bool :=
  let n := nat_of_ascii c in
  ((9 <=? n) && (n <=? 13))%nat || (n =? 32)%nat.

(** [unicode.IsSpace]: the white space of Latin-1, then the [White_Space]
    table. *)
Definition IsSpace (r : N) : bool :=
  (((0x09 <=? r) && (r <=? 0x0D)) || (r =? 0x20) || (r =? 0x85) || (r =? 0xA0)
   || (r =? 0x1680) || ((0x2000 <=? r) && (r <=? 0x200A)) || (r =? 0x2028)
   || (r =? 0x2029) || (r =? 0x202F) || (r =? 0x205F) || (r =? 0x3000))%N.

(** [strings.FieldsFunc(s, f)]: the maximal runs of runes on which [f]
    fails; [field] holds the bytes of the run in progress. *)
Fixpoint fieldsFunc (f : N -> bool) (rs : list (N * gostring)) (field : option gostring)
    : list gostring :=
  match rs with
  | [] => match field with Some w => [w] | None => [] end
  | r :: rest =>
      if f (fst r) then
        match field with
        | Some w => w :: fieldsFunc f rest None
        | None => fieldsFunc f rest None
        end
      else fieldsFunc f rest (Some (default [] field ++ snd r))
  end.

Definition FieldsFunc (f : N -> bool) (s : gostring) : list gostring :=
  fieldsFunc f (runes s) None.

(** The loop of [strings.Fields] for an ASCII string. *)
Fixpoint fieldsFrom (s word : gostring) : list gostring :=
  match s with
  | [] => match word with [] => [] | _ => [rev word] end
  | c :: s' =>
      if isFieldSpace c then
        match word with
        | [] => fieldsFrom s' []
        | _ => rev word :: fieldsFrom s' []
        end
      else fieldsFrom s' (c :: word)
  end.

(** [strings.Fields]: the ASCII loop when no byte is outside ASCII,
    [FieldsFunc(s, unicode.IsSpace)] otherwise. *)
Definition Fields (s : gostring) : list gostring :=
  if isASCII s then fieldsFrom s [] else FieldsFunc IsSpace s.

Fixpoint TrimLeft (s cutset : gostring) : gostring :=
  match s with
  | c :: s' => if existsb (Ascii.eqb c) cutset then TrimLeft s' cutset else s
  | [] => []
  end.

(** [strings.Trim(s, cutset)] for an ASCII cutset. *)
Definition Trim (s cutset : gostring) : gostring :=
  rev (TrimLeft (rev (TrimLeft s cutset)) cutset).

Definition stopWords : list string :=
  [ "a"; "an"; "the"; "and"; "or"; "but"; "is"; "are"; "was"; "were"; "be"; "been";
    "being"; "have"; "has"; "had"; "do"; "does"; "did"; "to"; "from"; "in"; "out"; "on";
    "off"; "over"; "under"; "again"; "further"; "then"; "once"; "here"; "there"; "when";
    "where"; "why"; "how"; "all"; "any"; "both"; "each"; "few"; "more"; "most"; "other";
    "some"; "such"; "no"; "nor"; "not"; "only"; "own"; "same"; "so"; "than"; "too";
    "very"; "can"; "will"; "just"; "should"; "now" ]%string.

Definition punctuation : gostring :=
  str ".,;:!?()[]{}-" ++ [DQUOTE] ++ str "'`".

Definition extractKeywords {tables : UnicodeTables} (query : gostring) : list gostring :=
  let words := Fields (ToLower query) in
  flat_map
    (fun word =>
       let word := Trim word punctuation in
       if eqString word [] || existsb (fun w => eqString (str w) word) stopWords
          || (len word <=? 1)
       then [] else [word])
    words.

(** ** The ranking query of SearchCodeAdvanced *)

(** [strings.Contains] and Cypher's [CONTAINS]. *)
Fixpoint Contains (s sub : gostring) : bool :=
  hasPrefix s sub ||
  match s with
  | [] => false
  | _ :: s' => Contains s' sub
  end.

(** Cypher's [size] of a string: its number of characters. *)
Definition size_ (s : gostring) : Z := len (utf8_decode s).

(** The [WHERE] clause the query builder puts after [MATCH (c:Chunk)]. *)
Definition candidate (languages pathFilters keywords : list gostring)
    (useKeywords : bool) (c : ChunkNode) : bool :=
  (match languages with
   | [] => true
   | _ => existsb (eqString (c_language c)) languages
   end)
  && (match pathFilters with
      | [] => true
      | _ => existsb (fun glob => globAccepts glob (c_file_path c)) pathFilters
      end)
  && (match (if useKeywords then filter (fun k => 3 <? len k) keywords else []) with
      | [] => true
      | long => existsb (Contains (c_content c)) long
      end).

Definition entityBoost (c : ChunkNode) : float :=
  if eqString (c_entity_type c) (str "function") || eqString (c_entity_type c) (str "method")
  then 0.1%float else 0%float.

Definition sizeBoost (c : ChunkNode) : float :=
  if size_ (c_content c) <? 500 then 0.05%float else 0%float.

Definition sizePenalty (c : ChunkNode) : float :=
  if 2000 <? size_ (c_content c) then (-0.05)%float else 0%float.

(** [(vectorScore + entityBoost + sizeBoost + sizePenalty) AS score] *)
Definition adjusted (vectorScore : float) (c : ChunkNode) : float :=
  (vectorScore + entityBoost c + sizeBoost c + sizePenalty c)%float.

(** One row of the result, read into a [CodeChunk]. *)
Definition toChunk (id : gostring) (c : ChunkNode) (score : float) : CodeChunk :=
  {| ID := id; Content := c_content c; FilePath := c_file_path c; ProjectPath := [];
     Language := c_language c; StartLine := c_start_line c; EndLine := c_end_line c;
     EntityType := c_entity_type c; Name := c_name c; Signature := c_signature c;
     Embedding := []; Hash := []; Score := score |}.

(** [ORDER BY score DESC].  The order of rows with equal scores is the
    store's business; here a row goes behind the rows of equal score. *)
Fixpoint insertByScore (r : CodeChunk) (sorted : list CodeChunk) : list CodeChunk :=
  match sorted with
  | [] => [r]
  | r' :: rest =>
      if (Score r' <? Score r)%float then r :: sorted else r' :: insertByScore r rest
  end.

Definition orderByScoreDesc (rows : list CodeChunk) : list CodeChunk :=
  fold_right insertByScore [] rows.

Section Retrieval.

(** [gds.similarity.cosine], the store's procedure. *)
Context {tables : UnicodeTables}.
Variable cosine : list float -> list float -> float.
Variable service : EmbeddingService.

(** The rows of the ranking query, from [WITH c, gds.similarity.cosine(...)]
    to [RETURN]. *)
Definition scoredRows (queryEmbedding : list float) (minScore : float)
    (candidates : list (gostring * ChunkNode)) : list CodeChunk :=
  flat_map
    (fun '(id, c) =>
       let vectorScore := cosine (c_embedding c) queryEmbedding in
       if (minScore <? vectorScore)%float then
         let score := adjusted vectorScore c in
         if (minScore <? score)%float then [toChunk id c score] else []
       else [])
    candidates.

(** The store refuses a negative [LIMIT]. *)
Definition SearchCodeAdvanced (query : gostring) (limit : Z)
    (languages pathFilters : list gostring) (minScore : float) (useKeywords : bool)
    (db : Store) : Result (list CodeChunk) :=
  match getEmbeddings service [query] with
  | Error e => Error (str "failed to generate query embedding: " ++ e)
  | Ok embeddings =>
      match embeddings with
      | [] => Error (str "received empty embedding for query")
      | [] :: _ => Error (str "received empty embedding for query")
      | queryEmbedding :: _ =>
          let keywords := extractKeywords query in
          if bool_decide (size (chunkNodes db) = 0%nat) then Ok []
          else if limit <? 0 then Error (str "search failed: invalid LIMIT")
          else
            let candidates :=
              filter (fun row => candidate languages pathFilters keywords useKeywords
                                   (snd row) = true)
                (map_to_list (chunkNodes db)) in
            Ok (take (Z.to_nat limit)
                  (orderByScoreDesc (scoredRows queryEmbedding minScore candidates)))
      end
  end.

End Retrieval.

(** ** The order of binary64 numbers

    [rank] places every number but NaN in a lexicographically ordered
    triple; [SFcompare], the specification of the primitive comparisons,
    compares ranks. *)
Definition rank (f : spec_float) : option (Z * Z * Z) :=
  match f with
  | S754_nan => None
  | S754_zero _ => Some (0, 0, 0)
  | S754_infinity s => Some (if s then -2 else 2, 0, 0)
  | S754_finite s m e => Some (if s then (-1, - e, Z.neg m) else (1, e, Z.pos m))
  end.

Definition lexCompare (a b : Z * Z * Z) : comparison :=
  let '(a1, a2, a3) := a in
  let '(b1, b2, b3) := b in
  match a1 ?= b1 with
  | Eq => match a2 ?= b2 with
          | Eq => a3 ?= b3
          | c => c
          end
  | c => c
  end.

Definition lexLt (a b : Z * Z * Z) : Prop :=
  let '(a1, a2, a3) := a in
  let '(b1, b2, b3) := b in
  a1 < b1 \/ (a1 = b1 /\ (a2 < b2 \/ (a2 = b2 /\ a3 < b3))).

(** [x < y] and [x <= y] on numbers, NaN being below and above nothing. *)
Definition fltLt (x y : float) : Prop := (x <? y)%float = true.
Definition fltLe (x y : float) : Prop := (x <=? y)%float = true.

(** Rows in descending order of score. *)
Definition sortedByScoreDesc (rows : list CodeChunk) : Prop :=
  forall i j ri rj, (i < j)%nat -> rows !! i = Some ri -> rows !! j = Some rj ->
  fltLe (Score rj) (Score ri).

(** A store with a short function and a long module of the same file, a
    similarity procedure that scores both 0.5, and a service that embeds
    every text as a one-dimensional vector. *)
Definition sampleNode (content : gostring) (entityType : string) : ChunkNode :=
  {| c_content := content; c_file_path := str "src/api/server.go";
     c_start_line := 1; c_end_line := 2; c_entity_type := str entityType;
     c_name := []; c_signature := []; c_language := str "Go"; c_hash := [];
     c_embedding := [1%float]; c_created_at := []; c_updated_at := [] |}.

Definition shortFunction : ChunkNode := sampleNode (repeat "x"%char 200) "function".
Definition longModule : ChunkNode := sampleNode (repeat "x"%char 2500) "chunk".

Definition sampleStore : Store :=
  {| projects := ∅; files := ∅;
     chunkNodes := <[str "fn" := shortFunction]> (<[str "mod" := longModule]> ∅);
     belongsTo := ∅; partOf := ∅ |}.

(** A chunk of 2500 bytes that are 1250 characters of two bytes each
    ([U+00E9], written [C3 A9]), and a store that holds it beside the short
    function. *)
Definition twoByteModule : ChunkNode :=
  sampleNode (concat (repeat [ascii_of_N 0xC3; ascii_of_N 0xA9] 1250)) "chunk".

Definition twoByteStore : Store :=
  {| projects := ∅; files := ∅;
     chunkNodes := <[str "fn" := shortFunction]> (<[str "mod" := twoByteModule]> ∅);
     belongsTo := ∅; partOf := ∅ |}.

Definition halfCosine : list float -> list float -> float := fun _ _ => 0.5%float.
Definition unitService : EmbeddingService := fun texts => Decoded (map (fun _ => [1%float]) texts).

(** Two chunks to embed, and two services that break the contract: one
    answers with a single vector, the other with three. *)
Definition twoChunks : list CodeChunk :=
  [ sizeChunk (str "a.py") (str ".") (str "Python") (str "x = 1") 1 1;
    sizeChunk (str "a.py") (str ".") (str "Python") (str "y = 2") 2 2 ].

Definition oneVectorService : EmbeddingService := fun _ => Decoded [[1%float]].
Definition threeVectorService : EmbeddingService :=
  fun _ => Decoded [[1%float]; [2%float]; [3%float]].

(** ** Paths ([path/filepath], with [/] as the separator)

    [Clean], [Join] and [Rel] by path elements: what Go's byte loops
    compute, read element by element. *)

Definition SEP : ascii := "/"%char.

Definition isDotDot (e : gostring) : bool := eqString e (str "..").

(** One element of the path met by [Clean]: an empty element and [.] are
    dropped; [..] removes the last element kept unless there is none to
    remove, in which case it is kept on a relative path and dropped on a
    rooted one; any other element is kept. *)
Definition cleanStep (rooted : bool) (kept : list gostring) (e : gostring)
    : list gostring :=
  if eqString e [] || eqString e (str ".") then kept
  else if isDotDot e then
    match last kept with
    | Some l => if isDotDot l then kept ++ [e] else removelast kept
    | None => if rooted then kept else kept ++ [e]
    end
  else kept ++ [e].

Definition isRooted (path : gostring) : bool :=
  match path with
  | c :: _ => Ascii.eqb c SEP
  | [] => false
  end.

Definition cleanElements (path : gostring) : list gostring :=
  fold_left (cleanStep (isRooted path)) (Split path SEP) [].

(** The path of the elements kept. *)
Definition render (rooted : bool) (kept : list gostring) : gostring :=
  if rooted then SEP :: Join kept [SEP]
  else match kept with
       | [] => str "."
       | _ => Join kept [SEP]
       end.

(** [filepath.Clean] *)
Definition Clean (path : gostring) : gostring :=
  match path with
  | [] => str "."
  | _ => render (isRooted path) (cleanElements path)
  end.

(** [filepath.Join(a, b)]: empty arguments are ignored, the others joined by
    a separator and cleaned. *)
Definition filepathJoin (a b : gostring) : gostring :=
  match a, b with
  | [], [] => []
  | [], _ => Clean b
  | _, [] => Clean a
  | _, _ => Clean (a ++ SEP :: b)
  end.

(** The elements [Rel] walks through: those of the cleaned path, the empty
    path having none and the root directory one (the empty element before
    its separator). *)
Definition relElements (cleaned : gostring) : list gostring :=
  match cleaned with
  | [] => []
  | _ => let es := Split cleaned SEP in
         match last es with
         | Some [] => removelast es
         | _ => es
         end
  end.

(** The elements left on both sides once the common leading elements are
    stepped over. *)
Fixpoint afterCommon (base targ : list gostring) : list gostring * list gostring :=
  match base, targ with
  | b :: base', t :: targ' =>
      if eqString t b then afterCommon base' targ' else (base, targ)
  | _, _ => (base, targ)
  end.

(** [filepath.Rel(basepath, targpath)] *)
Definition Rel (basepath targpath : gostring) : Result gostring :=
  let base := Clean basepath in
  let targ := Clean targpath in
  if eqString targ base then Ok (str ".")
  else
    let base := if eqString base (str ".") then [] else base in
    if negb (Bool.eqb (isRooted base) (isRooted targ)) then
      Error (str "Rel: can't make " ++ targpath ++ str " relative to " ++ basepath)
    else
      match afterCommon (relElements base) (relElements targ) with
      | ([], rest) => Ok (Join rest [SEP])
      | (b :: others, rest) =>
          if isDotDot b && negb (match rest with [] => true | _ => false end) then
            Error (str "Rel: can't make " ++ targpath ++ str " relative to " ++ basepath)
          else
            let up := Join (map (fun _ => str "..") (b :: others)) [SEP] in
            match rest with
            | [] => Ok up
            | _ => Ok (up ++ SEP :: Join rest [SEP])
            end
      end.

(** ** processFile: the project of a file *)

(** [projectPath] as [processFile] determines it. *)
Definition projectPathOf (rootDir filePath : gostring) : gostring :=
  let relPath := match Rel rootDir filePath with
                 | Ok rel => rel
                 | Error _ => filePath
                 end in
  let pathParts := Split relPath SEP in
  if 1 <? len pathParts then filepathJoin rootDir (hd [] pathParts) else rootDir.

(** The path under which [filepath.Walk] reports the entry reached from the
    root through the directory entries [names]: the root as it was given,
    then [Join(path, name)] for each entry. *)
Definition walkPath (rootDir : gostring) (names : list gostring) : gostring :=
  fold_left filepathJoin names rootDir.

(** A directory entry: not empty, not [.] or [..], without a separator. *)
Definition entryName (n : gostring) : Prop :=
  n <> [] /\ n <> str "." /\ n <> str ".." /\ ~ In SEP n.

(** The shape of what [Clean] keeps: [..] elements first (none on a rooted
    path), then directory entries.  [seenEntry] tells whether an entry has
    been met already. *)
Fixpoint keptShape (rooted seenEntry : bool) (kept : list gostring) : Prop :=
  match kept with
  | [] => True
  | e :: rest =>
      (e = str ".." /\ seenEntry = false /\ rooted = false /\ keptShape rooted false rest)
      \/ (entryName e /\ keptShape rooted true rest)
  end.

(** ** processFile *)

(** The chunks [processFile] makes of a file it has read: the language from
    the extension, the project path from the place of the file under the
    root. *)
Definition processFile_chunks {tables : UnicodeTables}
    (cfg : Config) (content filePath rootDir : gostring)
    : option (list CodeChunk) :=
  let ext := ToLower (Ext filePath) in
  let language := getLanguageFromExt ext in
  let projectPath := projectPathOf rootDir filePath in
  chunkFile cfg content filePath projectPath language.

(** [processFile], from the point where the file has been read; it returns
    the store beside the error.  A file above 1 MiB and a file without
    chunks are left out without an error. *)
Definition processFile {tables : UnicodeTables}
    (cfg : Config) (service : EmbeddingService) (now : gostring)
    (content filePath rootDir : gostring) (db : Store) : option (Result Store) :=
  if 1024 * 1024 <? len content then Some (Ok db)
  else
    match processFile_chunks cfg content filePath rootDir with
    | None => None
    | Some [] => Some (Ok db)
    | Some chunks =>
        match generateEmbeddings service chunks with
        | None => None
        | Some (Error e) => Some (Error (str "failed to generate embeddings: " ++ e))
        | Some (Ok embedded) =>
            Some (Ok (fst (storeChunks now embedded filePath
                             (projectPathOf rootDir filePath) db)))
        end
    end.

(** A root with a file directly in it and a file two directories down. *)
Definition sampleRoot : gostring := str "/src".
Definition nestedFile : list gostring := [str "proj"; str "pkg"; str "main.go"].
Definition topFile : list gostring := [str "main.go"].

(** A row stands before the rows of lower or equal score. *)
Abbreviation scoreGe := (fun a b : CodeChunk => fltLe (Score b) (Score a)).

(** The strings a pattern matches, by the usual reading of regular
    expressions. *)
Fixpoint lang (r : regex) (w : gostring) : Prop :=
  match r with
  | Lit c => w = [c]
  | Class p => exists c, w = [c] /\ p c = true
  | Cat r1 r2 => exists w1 w2, w = w1 ++ w2 /\ lang r1 w1 /\ lang r2 w2
  | Repeat _ p => Forall (fun c => p c = true) w
  | Opt r' => w = [] \/ lang r' w
  | Group _ r' => lang r' w
  end.

(** The capture groups that take part in every match of a pattern. *)
Fixpoint captured (r : regex) : list nat :=
  match r with
  | Lit _ | Class _ | Repeat _ _ | Opt _ => []
  | Cat r1 r2 => captured r1 ++ captured r2
  | Group i r' => i :: captured r'
  end.

(** Every group of [groups] lies between the offsets [lo] and [hi]. *)
Definition groupsWithin (lo hi : Z) (groups : captures) : Prop :=
  Forall (fun g => lo <= fst (snd g) /\ fst (snd g) <= snd (snd g) /\ snd (snd g) <= hi)
    groups.

(** *** What the size-based chunker returns, chunk by chunk *)

(** The lines [first .. last] (1-based, inclusive) of a text. *)
Definition linesBetween (lines : list gostring) (first last : Z) : list gostring :=
  take (Z.to_nat (last - first + 1)) (drop (Z.to_nat (first - 1)) lines).

(** [sizeChunksFrom cfg lines language start minEnd chunks]: read in order,
    each chunk starts on line [start] and ends on the first line from
    [minEnd] on at which the accumulated size of its lines reaches
    [MaxChunkSize], or on the last line of the text; it holds the text of its
    line range and is named after it; the next chunk starts
    [min(ChunkOverlap, lines of this chunk)] lines before the line after it
    and ends after it. *)
Fixpoint sizeChunksFrom (cfg : Config) (lines : list gostring) (language : gostring)
    (start minEnd : Z) (chunks : list CodeChunk) : Prop :=
  match chunks with
  | [] => True
  | c :: rest =>
      StartLine c = start /\
      start <= EndLine c /\ minEnd <= EndLine c <= len lines /\
      Content c = Join (linesBetween lines start (EndLine c)) [LF] /\
      EntityType c = str "chunk" /\
      Name c = str "chunk_" ++ itoa start ++ str "_" ++ itoa (EndLine c) /\
      Language c = language /\
      (forall e, minEnd <= e < EndLine c ->
                 linesSize (linesBetween lines start e) < MaxChunkSize cfg) /\
      (EndLine c < len lines ->
       MaxChunkSize cfg <= linesSize (linesBetween lines start (EndLine c))) /\
      (rest <> [] -> EndLine c < len lines) /\
      sizeChunksFrom cfg lines language
        (EndLine c - Z.min (ChunkOverlap cfg) (EndLine c - start + 1) + 1)
        (EndLine c + 1) rest
  end.

(** *** The structural chunker with its run-time checks

    [chunkGoCode] once more, with every expression that can panic written
    as the run time checks it: the three slice expressions of [content], and
    the index expression [linePositions[i]] inside the two [sort.Search]
    predicates.  ([m[0]] .. [m[5]] lie behind the [len(m)] tests,
    [allMatches[i+1]] behind [i < len(allMatches)-1], and the loop that
    fills [linePositions] writes below its length.) *)

Definition toGoMatch_checked (content : gostring) (method : bool) (m : submatch)
    : option goMatch :=
  let g1 := default (-1, -1) (group 1 m) in
  let g2 := default (-1, -1) (group 2 m) in
  match slice content (fst g1) (snd g1) with
  | None => None
  | Some funcName =>
      match slice content (fst g2) (snd g2) with
      | None => None
      | Some signature =>
          Some {| start := sm_start m;
                  end_ := sm_end m;
                  name := funcName;
                  sig_ := signature;
                  isMethod := method |}
      end
  end.

(** The index expression [l[i]]: it panics unless [0 <= i < len(l)]. *)
Definition index {A : Type} (l : list A) (i : Z) : option A :=
  if i <? 0 then None else l !! Z.to_nat i.

(** [sort.Search] with a predicate that can panic. *)
Fixpoint Search_loop_checked (fuel : nat) (f : Z -> option bool) (i j : Z) : option Z :=
  match fuel with
  | O => Some i
  | S fuel' =>
      if i <? j then
        let h := (i + j) / 2 in
        match f h with
        | None => None
        | Some b =>
            if negb b then Search_loop_checked fuel' f (h + 1) j
            else Search_loop_checked fuel' f i h
        end
      else Some i
  end.

Definition Search_checked (n : Z) (f : Z -> option bool) : option Z :=
  Search_loop_checked (Z.to_nat n) f 0 n.

Definition lineOf_checked (linePositions : list Z) (offset : Z) : option Z :=
  match Search_checked (len linePositions)
          (fun i => match index linePositions i with
                    | None => None
                    | Some p => Some (offset <? p)
                    end) with
  | None => None
  | Some found => let l := found - 1 in Some (if l <? 0 then 0 else l)
  end.

Fixpoint goChunks_checked (content filePath projectPath : gostring) (linePositions : list Z)
    (allMatches : list goMatch) : option (list CodeChunk) :=
  match allMatches with
  | [] => Some []
  | m :: rest =>
      let startPos := start m in
      let endPos := match rest with
                    | next :: _ => start next
                    | [] => len content
                    end in
      match lineOf_checked linePositions startPos,
            lineOf_checked linePositions endPos,
            slice content startPos endPos with
      | Some startLine, Some endLine, Some text =>
          match goChunks_checked content filePath projectPath linePositions rest with
          | None => None
          | Some chunks =>
              Some ({| ID := [];
                       Content := text;
                       FilePath := filePath;
                       ProjectPath := projectPath;
                       Language := str "Go";
                       StartLine := startLine + 1;
                       EndLine := endLine + 1;
                       EntityType := if isMethod m then str "method" else str "function";
                       Name := name m;
                       Signature := sig_ m;
                       Embedding := [];
                       Hash := [];
                       Score := 0%float |} :: chunks)
          end
      | _, _, _ => None
      end
  end.

Definition chunkGoCode_checked (content filePath projectPath : gostring)
    : option (list CodeChunk) :=
  let funcMatches := FindAllStringSubmatchIndex funcPattern content in
  let methodMatches := FindAllStringSubmatchIndex methodPattern content in
  match mapM (toGoMatch_checked content false) funcMatches,
        mapM (toGoMatch_checked content true) methodMatches with
  | Some functions, Some methods =>
      let allMatches := sortByStart (functions ++ methods) in
      let lines := Split content LF in
      goChunks_checked content filePath projectPath (linePositionsFrom lines 0) allMatches
  | _, _ => None
  end.

(** *** What the store holds after storeChunks *)

(** The node the [MERGE ... SET] of a chunk leaves: the properties of the
    chunk, the creation time [created] and the update time [now]. *)
Definition nodeOf (created now : gostring) (chunk : CodeChunk) : ChunkNode :=
  {| c_content := Content chunk;
     c_file_path := FilePath chunk;
     c_start_line := StartLine chunk;
     c_end_line := EndLine chunk;
     c_entity_type := EntityType chunk;
     c_name := Name chunk;
     c_signature := Signature chunk;
     c_language := Language chunk;
     c_hash := Hash chunk;
     c_embedding := Embedding chunk;
     c_created_at := created;
     c_updated_at := now |}.

(** Every chunk node is [PART_OF] the file node of its [file_path], and
    every file node [BELONGS_TO] a project node. *)
Definition linked (db : Store) : Prop :=
  (forall id node, chunkNodes db !! id = Some node ->
     (id, c_file_path node) ∈ partOf db /\ is_Some (files db !! c_file_path node)) /\
  (forall filePath, is_Some (files db !! filePath) ->
     exists projectPath,
       (filePath, projectPath) ∈ belongsTo db /\ is_Some (projects db !! projectPath)).

(** ** SearchCode

    The search without filters: the same steps as [SearchCodeAdvanced] with
    the ranking query written out in full, its two thresholds the literal
    [0.1]. *)
Definition SearchCode {tables : UnicodeTables} (cosine : list float -> list float -> float)
    (service : EmbeddingService) (query : gostring) (limit : Z) (db : Store)
    : Result (list CodeChunk) :=
  match getEmbeddings service [query] with
  | Error e => Error (str "failed to generate query embedding: " ++ e)
  | Ok embeddings =>
      match embeddings with
      | [] => Error (str "received empty embedding for query")
      | [] :: _ => Error (str "received empty embedding for query")
      | queryEmbedding :: _ =>
          if bool_decide (size (chunkNodes db) = 0%nat) then Ok []
          else if limit <? 0 then Error (str "search failed: invalid LIMIT")
          else
            Ok (take (Z.to_nat limit)
                  (orderByScoreDesc
                     (scoredRows cosine queryEmbedding 0.1%float
                        (map_to_list (chunkNodes db)))))
      end
  end.

(** The declarations [chunkGoCode] finds in a text: the matches of the
    function pattern and those of the method pattern. *)
Definition declarations (content : gostring) : list submatch :=
  FindAllStringSubmatchIndex funcPattern content
  ++ FindAllStringSubmatchIndex methodPattern content.

(* ================================================================== *)
(** * Theorems *)
(* ================================================================== *)

(** ** Split and Join *)

Lemma len_nonneg {A : Type} (l : list A) : 0 <= len l.
Proof. unfold len. lia. Qed.

Lemma len_app {A : Type} (l1 l2 : list A) : len (l1 ++ l2) = len l1 + len l2.
Proof. unfold len. rewrite length_app. lia. Qed.

Lemma len_cons {A : Type} (x : A) (l : list A) : len (x :: l) = 1 + len l.
Proof. unfold len. simpl length. lia. Qed.

Lemma len_nil {A : Type} : len (@nil A) = 0.
Proof. reflexivity. Qed.

Lemma Split_not_nil (s : gostring) (sep : ascii) : Split s sep <> [].
Proof.
  destruct s as [|c s]; simpl; [discriminate|].
  destruct (Ascii.eqb c sep); [discriminate|].
  destruct (Split s sep); discriminate.
Qed.

Lemma Join_cons (e : gostring) (rest : list gostring) (sep : gostring) :
  rest <> [] -> Join (e :: rest) sep = e ++ sep ++ Join rest sep.
Proof. destruct rest; [congruence | reflexivity]. Qed.

Lemma Join_Split (s : gostring) (sep : ascii) : Join (Split s sep) [sep] = s.
Proof.
  induction s as [|c s IH]; [reflexivity|].
  simpl Split. destruct (Ascii.eqb c sep) eqn:E.
  - apply Ascii.eqb_eq in E. subst c.
    rewrite Join_cons by apply Split_not_nil.
    rewrite IH. reflexivity.
  - pose proof (Split_not_nil s sep) as Hne.
    destruct (Split s sep) as [|l ls]; [congruence|].
    destruct ls as [|l' ls].
    + simpl in *. congruence.
    + rewrite Join_cons by discriminate.
      rewrite Join_cons in IH by discriminate.
      rewrite <- IH. reflexivity.
Qed.

Lemma Split_lines_no_sep (s : gostring) (sep : ascii) :
  Forall (fun l => ~ In sep l) (Split s sep).
Proof.
  induction s as [|c s IH]; simpl.
  - constructor; [intros [] | constructor].
  - destruct (Ascii.eqb c sep) eqn:E.
    + constructor; [intros [] | exact IH].
    + destruct (Split s sep) as [|l ls].
      * constructor; [|constructor].
        intros [H|[]]. subst. rewrite Ascii.eqb_refl in E. discriminate.
      * inversion IH; subst. constructor; [|assumption].
        intros [H|H]; [|contradiction].
        subst. rewrite Ascii.eqb_refl in E. discriminate.
Qed.

Lemma Split_app_sep (l s : gostring) (sep : ascii) :
  ~ In sep l -> Split (l ++ sep :: s) sep = l :: Split s sep.
Proof.
  induction l as [|c l IH]; intros Hl; simpl.
  - rewrite Ascii.eqb_refl. reflexivity.
  - destruct (Ascii.eqb c sep) eqn:E.
    + apply Ascii.eqb_eq in E. subst. exfalso. apply Hl. now left.
    + rewrite IH; [reflexivity|]. intros H. apply Hl. now right.
Qed.

Lemma Split_no_sep (l : gostring) (sep : ascii) : ~ In sep l -> Split l sep = [l].
Proof.
  induction l as [|c l IH]; intros Hl; simpl; [reflexivity|].
  destruct (Ascii.eqb c sep) eqn:E.
  - apply Ascii.eqb_eq in E. subst. exfalso. apply Hl. now left.
  - rewrite IH; [reflexivity|]. intros H. apply Hl. now right.
Qed.

Lemma Split_Join (ls : list gostring) (sep : ascii) :
  ls <> [] -> Forall (fun l => ~ In sep l) ls -> Split (Join ls [sep]) sep = ls.
Proof.
  induction ls as [|l ls IH]; intros Hne Hall; [congruence|].
  inversion Hall as [|? ? Hl Hls]; subst.
  destruct ls as [|l' ls].
  - simpl. now apply Split_no_sep.
  - rewrite Join_cons by discriminate.
    change (l ++ [sep] ++ Join (l' :: ls) [sep])
      with (l ++ sep :: Join (l' :: ls) [sep]).
    rewrite Split_app_sep by assumption.
    f_equal. apply IH; [discriminate | assumption].
Qed.

Lemma Join_app (l1 l2 : list gostring) (sep : gostring) :
  l1 <> [] -> l2 <> [] -> Join (l1 ++ l2) sep = Join l1 sep ++ sep ++ Join l2 sep.
Proof.
  induction l1 as [|e l1 IH]; intros H1 H2; [congruence|].
  destruct l1 as [|e' l1].
  - simpl app. now rewrite Join_cons.
  - change ((e :: e' :: l1) ++ l2) with (e :: ((e' :: l1) ++ l2)).
    rewrite Join_cons by (intros H; discriminate H).
    rewrite IH by (assumption || discriminate).
    rewrite (Join_cons e (e' :: l1)) by discriminate.
    now rewrite <- !app_assoc.
Qed.

(** ** The size-based chunker: line ranges *)

Lemma tiled_covered (chunks : list CodeChunk) :
  forall next last k, tiled next last chunks -> next <= k <= last -> covered chunks k.
Proof.
  induction chunks as [|c rest IH]; simpl; intros next last k Ht Hk; [lia|].
  destruct Ht as (H1 & Hn & Hse & Ht).
  destruct (Z_le_gt_dec k (EndLine c)) as [Hle|Hgt].
  - exists c. split; [now left | lia].
  - destruct (IH (EndLine c + 1) last k Ht) as (c' & Hin & Hr); [lia|].
    exists c'. split; [now right | exact Hr].
Qed.

Lemma tiled_wellformed (chunks : list CodeChunk) :
  forall next last, tiled next last chunks ->
  Forall (fun c => 1 <= StartLine c <= EndLine c) chunks.
Proof.
  induction chunks as [|c rest IH]; simpl; intros next last Ht; [constructor|].
  destruct Ht as (H1 & Hn & Hse & Ht).
  constructor; [lia | eapply IH; eassumption].
Qed.

Lemma slice_from_Some {A : Type} (s : list A) (lo : Z) :
  0 <= lo <= len s -> slice_from s lo = Some (drop (Z.to_nat lo) s).
Proof.
  intros H. unfold slice_from.
  destruct (lo <? 0) eqn:E1; [apply Z.ltb_lt in E1; lia|].
  destruct (len s <? lo) eqn:E2; [apply Z.ltb_lt in E2; lia|].
  reflexivity.
Qed.

Lemma slice_from_None {A : Type} (s : list A) (lo : Z) :
  len s < lo -> slice_from s lo = None.
Proof.
  intros H. unfold slice_from.
  destruct (len s <? lo) eqn:E2; [now rewrite orb_true_r|].
  apply Z.ltb_ge in E2. lia.
Qed.

Section SizeChunker.

Variable cfg : Config.
Variables filePath projectPath language : gostring.

Let loop := chunkBySize_loop cfg filePath projectPath language.

(** With a non-negative overlap the loop never panics, and what it appends
    tiles the lines still ahead. *)
Lemma chunkBySize_loop_tiled (lines : list gostring) :
  0 <= ChunkOverlap cfg ->
  forall currentChunk currentSize startLine chunks next,
  1 <= startLine ->
  startLine <= next <= startLine + len currentChunk ->
  (lines = [] -> next = startLine + len currentChunk) ->
  exists new,
    loop lines currentChunk currentSize startLine chunks = Some (chunks ++ new) /\
    tiled next (startLine + len currentChunk + len lines - 1) new.
Proof.
  intros Hov. induction lines as [|line rest IH];
    intros cur size start chunks next Hstart Hnext Hend.
  - exists []. simpl. rewrite app_nil_r. split; [reflexivity|].
    rewrite len_nil. rewrite Hend by reflexivity. lia.
  - subst loop. cbn [chunkBySize_loop]. cbv zeta.
    set (cur1 := cur ++ [line]).
    assert (Hcur1 : len cur1 = len cur + 1)
      by (unfold cur1; rewrite len_app, len_cons, len_nil; lia).
    rewrite len_cons.
    destruct ((MaxChunkSize cfg <=? size + (len line + 1))
              || match rest with [] => true | _ => false end) eqn:Emit.
    + set (o := if len cur1 <? ChunkOverlap cfg then len cur1 else ChunkOverlap cfg).
      assert (Ho : 0 <= o <= len cur1).
      { unfold o. destruct (len cur1 <? ChunkOverlap cfg) eqn:E.
        - pose proof (len_nonneg cur). lia.
        - apply Z.ltb_ge in E. lia. }
      rewrite slice_from_Some by lia.
      set (kept := drop (Z.to_nat (len cur1 - o)) cur1).
      assert (Hkept : len kept = o).
      { unfold kept, len. rewrite length_drop. unfold len in Ho, Hcur1 |- *. lia. }
      set (c := sizeChunk filePath projectPath language (Join cur1 [LF]) start
                  (start + len cur1 - 1)).
      destruct (IH kept (linesSize kept) (start + len cur1 - 1 - o + 1)
                  (chunks ++ [c]) (start + len cur1)) as (new & Hrun & Ht).
      * pose proof (len_nonneg cur). lia.
      * lia.
      * intros _. lia.
      * exists (c :: new). split.
        -- fold cur1. fold o. fold kept. fold c. rewrite Hrun.
           now rewrite <- app_assoc.
        -- pose proof (len_nonneg cur) as Hcur.
           cbn [tiled].
           change (StartLine c) with start.
           change (EndLine c) with (start + len cur1 - 1).
           split; [lia|]. split; [lia|]. split; [lia|].
           replace (start + len cur1 - 1 + 1) with (start + len cur1) by lia.
           replace (start + len cur + (1 + len rest) - 1)
             with (start + len cur1 - 1 - o + 1 + len kept + len rest - 1) by lia.
           exact Ht.
    + apply orb_false_iff in Emit as [_ Hrest].
      destruct (IH cur1 (size + (len line + 1)) start chunks next)
        as (new & Hrun & Ht).
      * exact Hstart.
      * lia.
      * intros ->. discriminate.
      * exists new. split; [exact Hrun|].
        replace (start + len cur + (1 + len rest) - 1)
          with (start + len cur1 + len rest - 1) by lia.
        exact Ht.
Qed.

(** With a negative overlap the first chunk boundary panics. *)
Lemma chunkBySize_loop_negative_overlap (lines : list gostring) :
  ChunkOverlap cfg < 0 -> lines <> [] ->
  forall currentChunk currentSize startLine chunks,
  loop lines currentChunk currentSize startLine chunks = None.
Proof.
  intros Hov. induction lines as [|line rest IH]; intros Hne cur size start chunks;
    [congruence|].
  subst loop. cbn [chunkBySize_loop]. cbv zeta.
  destruct ((MaxChunkSize cfg <=? size + (len line + 1))
            || match rest with [] => true | _ => false end) eqn:Emit.
  - pose proof (len_nonneg (cur ++ [line])) as Hl.
    destruct (len (cur ++ [line]) <? ChunkOverlap cfg) eqn:E;
      [apply Z.ltb_lt in E; lia|].
    now rewrite slice_from_None by lia.
  - apply orb_false_iff in Emit as [_ Hrest].
    apply IH. intros ->. discriminate.
Qed.

End SizeChunker.

(** ** The size-based chunker: the text of the chunks *)

Lemma reassembleAfter_snoc (chunks : list CodeChunk) :
  forall prev c,
  reassembleAfter prev (chunks ++ [c]) =
  reassembleAfter prev chunks ++ withoutOverlap (default prev (last chunks)) c.
Proof.
  induction chunks as [|c0 rest IH]; intros prev c.
  - simpl. now rewrite app_nil_r.
  - cbn [app reassembleAfter]. rewrite IH, <- app_assoc.
    destruct rest as [|c1 rest]; [reflexivity|].
    rewrite (last_cons_cons c0).
    destruct (last (c1 :: rest)) eqn:El; [reflexivity|].
    apply last_None in El. discriminate.
Qed.

Lemma reassemble_snoc (chunks : list CodeChunk) (prev c : CodeChunk) :
  last chunks = Some prev ->
  reassemble (chunks ++ [c]) = reassemble chunks ++ withoutOverlap prev c.
Proof.
  destruct chunks as [|c0 rest]; [discriminate|].
  intros Hlast. cbn [app reassemble].
  rewrite reassembleAfter_snoc, <- app_assoc.
  destruct rest as [|c1 rest].
  - simpl in Hlast. now inversion Hlast.
  - rewrite last_cons_cons in Hlast. now rewrite Hlast.
Qed.

Lemma take_length_app {A : Type} (l1 l2 : list A) : take (length l1) (l1 ++ l2) = l1.
Proof. induction l1; simpl; [now destruct l2 | now f_equal]. Qed.

Lemma drop_length_app {A : Type} (l1 l2 : list A) : drop (length l1) (l1 ++ l2) = l2.
Proof. induction l1; simpl; auto. Qed.

(** The text a chunk adds to its predecessor: a line feed, then its new lines. *)
Lemma withoutOverlap_sizeChunk (fp pp lang : gostring) (prev : CodeChunk)
    (ov new : list gostring) (startLine endLine : Z) :
  ov <> [] -> new <> [] ->
  Forall (fun l => ~ In LF l) (ov ++ new) ->
  EndLine prev - startLine + 1 = len ov ->
  withoutOverlap prev (sizeChunk fp pp lang (Join (ov ++ new) [LF]) startLine endLine)
  = [LF] ++ Join new [LF].
Proof.
  intros Hov Hnew Hlf Hn. unfold withoutOverlap, overlapRegion.
  cbn [Content StartLine sizeChunk]. rewrite Hn.
  rewrite Split_Join; [|destruct ov; [congruence | discriminate] | exact Hlf].
  unfold len. rewrite Nat2Z.id, take_length_app.
  rewrite Join_app by assumption.
  now rewrite drop_length_app.
Qed.

Section SizeChunkerText.

Variable cfg : Config.
Variables filePath projectPath language : gostring.
Hypothesis overlap_positive : 0 < ChunkOverlap cfg.

Let loop := chunkBySize_loop cfg filePath projectPath language.

(** [pre] are the lines before the current chunk, [ov] the lines the current
    chunk repeats from the last chunk emitted and [new] the lines it has
    added since. *)
Lemma chunkBySize_loop_reassemble (lines : list gostring) :
  forall pre ov new currentSize chunks,
  lines <> [] ->
  Forall (fun l => ~ In LF l) (pre ++ (ov ++ new) ++ lines) ->
  (chunks = [] -> pre = [] /\ ov = []) ->
  (forall prev, last chunks = Some prev ->
     ov <> [] /\ EndLine prev = len pre + len ov /\
     reassemble chunks = Join (pre ++ ov) [LF]) ->
  exists result,
    loop lines (ov ++ new) currentSize (len pre + 1) chunks = Some result /\
    reassemble result = Join (pre ++ (ov ++ new) ++ lines) [LF].
Proof.
  induction lines as [|line rest IH];
    intros pre ov new size chunks Hne Hlf Hfirst Hlast; [congruence|].
  subst loop. cbn [chunkBySize_loop]. cbv zeta.
  set (cur1 := (ov ++ new) ++ [line]).
  assert (Hcur1 : cur1 = ov ++ (new ++ [line])) by (unfold cur1; now rewrite app_assoc).
  assert (Hlen1 : 1 <= len cur1).
  { unfold cur1. rewrite len_app, len_cons, len_nil.
    pose proof (len_nonneg (ov ++ new)). lia. }
  assert (Hall : pre ++ (ov ++ new) ++ line :: rest = pre ++ cur1 ++ rest).
  { unfold cur1. now rewrite <- (app_assoc (ov ++ new) [line] rest). }
  rewrite Hall in *.
  assert (Hlf1 : Forall (fun l => ~ In LF l) cur1).
  { apply Forall_app in Hlf as [_ Hlf]. now apply Forall_app in Hlf as [Hlf _]. }
  set (c := sizeChunk filePath projectPath language (Join cur1 [LF]) (len pre + 1)
              (len pre + 1 + len cur1 - 1)).
  (* what the chunks read once [c] is appended *)
  assert (Hre : reassemble (chunks ++ [c]) = Join (pre ++ cur1) [LF]).
  { destruct (last chunks) as [prev|] eqn:El.
    - destruct (Hlast prev eq_refl) as (Hov & Hend & Hre).
      rewrite (reassemble_snoc _ prev) by exact El.
      rewrite Hre. unfold c. rewrite Hcur1.
      rewrite withoutOverlap_sizeChunk.
      + rewrite (app_assoc pre ov).
        rewrite (Join_app (pre ++ ov) (new ++ [line])); [reflexivity| |].
        * destruct pre; [simpl; exact Hov | discriminate].
        * destruct new; discriminate.
      + exact Hov.
      + destruct new; discriminate.
      + now rewrite <- Hcur1.
      + lia.
    - apply last_None in El. destruct (Hfirst El) as [-> Hov]. subst chunks.
      simpl. now rewrite app_nil_r. }
  destruct ((MaxChunkSize cfg <=? size + (len line + 1))
            || match rest with [] => true | _ => false end) eqn:Emit.
  - set (o := if len cur1 <? ChunkOverlap cfg then len cur1 else ChunkOverlap cfg).
    assert (Ho : 1 <= o <= len cur1).
    { unfold o. destruct (len cur1 <? ChunkOverlap cfg) eqn:E.
      - lia.
      - apply Z.ltb_ge in E. lia. }
    rewrite slice_from_Some by lia.
    set (n := Z.to_nat (len cur1 - o)).
    fold c.
    destruct rest as [|line' rest'].
    + (* the last line: the loop ends *)
      exists (chunks ++ [c]). split; [reflexivity|].
      now rewrite app_nil_r.
    + replace (len pre + 1 + len cur1 - 1 - o + 1) with (len (pre ++ take n cur1) + 1).
      2:{ rewrite len_app. unfold len at 2. rewrite length_take.
          unfold n, len in *. lia. }
      rewrite <- (app_nil_r (drop n cur1)).
      destruct (IH (pre ++ take n cur1) (drop n cur1) [] (linesSize (drop n cur1 ++ []))
                  (chunks ++ [c])) as (result & Hrun & Hres).
      * discriminate.
      * rewrite app_nil_r, <- app_assoc, (app_assoc (take n cur1)), take_drop.
        exact Hlf.
      * intros H. now apply app_eq_nil in H as [_ H].
      * intros prev Hprev. rewrite last_snoc in Hprev. inversion Hprev; subst prev.
        assert (Hd : drop n cur1 <> []).
        { intros H. apply (f_equal (@length _)) in H. rewrite length_drop in H.
          unfold n, len in *. simpl in H. lia. }
        split; [exact Hd|]. split.
        -- change (EndLine c) with (len pre + 1 + len cur1 - 1).
           rewrite len_app. unfold len at 4 5. rewrite length_take, length_drop.
           unfold n, len in *. lia.
        -- now rewrite <- app_assoc, take_drop.
      * exists result. split; [exact Hrun|].
        rewrite Hres. f_equal.
        now rewrite app_nil_r, <- app_assoc, (app_assoc (take n cur1)), take_drop.
  - apply orb_false_iff in Emit as [_ Hrest].
    destruct rest as [|line' rest']; [discriminate|].
    clearbody cur1. subst cur1.
    destruct (IH pre ov (new ++ [line]) (size + (len line + 1)) chunks)
      as (result & Hrun & Hres).
    + discriminate.
    + exact Hlf.
    + exact Hfirst.
    + exact Hlast.
    + exists result. split; [exact Hrun | exact Hres].
Qed.

End SizeChunkerText.

(** C2 (chunk coverage of the size-based chunker).  For every text, every
    [MaxChunkSize] and every positive [ChunkOverlap], [chunkBySize] returns
    chunks, and concatenating the first chunk with every later chunk cut
    back by the overlap region it repeats from its predecessor (its first
    [EndLine prev - StartLine cur + 1] lines) gives back the text byte for
    byte. *)
Theorem chunkBySize_reassembles (cfg : Config)
    (content filePath projectPath language : gostring) :
  0 < ChunkOverlap cfg ->
  exists chunks,
    chunkBySize cfg content filePath projectPath language = Some chunks /\
    reassemble chunks = content.
Proof.
  intros Hov. unfold chunkBySize.
  destruct (len content <=? MaxChunkSize cfg).
  - eexists. split; [reflexivity|]. simpl. apply app_nil_r.
  - destruct (chunkBySize_loop_reassemble cfg filePath projectPath language Hov
                (Split content LF) [] [] [] 0 [])
      as (result & Hrun & Hres).
    + apply Split_not_nil.
    + apply Split_lines_no_sep.
    + intros _. now split.
    + intros prev H. discriminate H.
    + exists result. split; [exact Hrun|].
      rewrite Hres. simpl. apply Join_Split.
Qed.

Lemma chunkBySize_reassembles_witness :
  0 < ChunkOverlap sample_config /\
  exists chunks,
    chunkBySize sample_config sample_text (str "a.py") (str "/src") (str "Python")
      = Some chunks /\
    reassemble chunks = sample_text.
Proof.
  split; [reflexivity|].
  apply (chunkBySize_reassembles sample_config sample_text). reflexivity.
Defined.

(** ** sort.Search *)

(** On a predicate that stays true once it is true, the binary search
    returns the least index where it holds. *)
Lemma Search_loop_least (f : Z -> bool) (fuel : nat) :
  forall i j,
  0 <= i <= j -> j - i <= Z.of_nat fuel ->
  (forall x y, i <= x <= y -> y < j -> f x = true -> f y = true) ->
  let r := Search_loop fuel f i j in
  i <= r <= j /\ (forall x, i <= x < r -> f x = false) /\ (r < j -> f r = true).
Proof.
  induction fuel as [|fuel IH]; intros i j Hij Hfuel Hmono; cbn [Search_loop]; cbv zeta.
  - split; [lia|]. split; intros; lia.
  - destruct (i <? j) eqn:Elt.
    2:{ apply Z.ltb_ge in Elt. split; [lia|]. split; intros; lia. }
    apply Z.ltb_lt in Elt.
    assert (Hh : i <= (i + j) / 2 < j).
    { split; [apply Z.div_le_lower_bound | apply Z.div_lt_upper_bound]; lia. }
    set (h := (i + j) / 2) in *.
    destruct (f h) eqn:Efh; cbn [negb].
    + destruct (IH i h) as (Hr & Hlow & Hhit); [lia | lia | |].
      { intros x y Hxy Hy. apply Hmono; lia. }
      split; [lia|]. split; [exact Hlow|].
      intros Hrj. destruct (Z.eq_dec (Search_loop fuel f i h) h) as [->|Hne];
        [exact Efh | apply Hhit; lia].
    + destruct (IH (h + 1) j) as (Hr & Hlow & Hhit); [lia | lia | |].
      { intros x y Hxy Hy. apply Hmono; lia. }
      split; [lia|]. split; [|exact Hhit].
      intros x Hx. destruct (Z_lt_le_dec h x) as [Hgt|Hle]; [apply Hlow; lia|].
      destruct (f x) eqn:Efx; [|reflexivity].
      rewrite <- Efh. symmetry. apply (Hmono x h); [lia | lia | exact Efx].
Qed.

Lemma Search_least (n : Z) (f : Z -> bool) :
  0 <= n ->
  (forall x y, 0 <= x <= y -> y < n -> f x = true -> f y = true) ->
  0 <= Search n f <= n /\
  (forall x, 0 <= x < Search n f -> f x = false) /\
  (Search n f < n -> f (Search n f) = true).
Proof.
  intros Hn Hmono. unfold Search.
  apply (Search_loop_least f (Z.to_nat n) 0 n); [lia | lia | exact Hmono].
Qed.

(** ** Line offsets *)

Definition increasing (l : list Z) : Prop :=
  forall x y, (x <= y < length l)%nat -> nth x l 0 <= nth y l 0.

Lemma linePositionsFrom_length (lines : list gostring) (pos : Z) :
  length (linePositionsFrom lines pos) = S (length lines).
Proof. revert pos. induction lines; intros pos; simpl; [reflexivity | now rewrite IHlines]. Qed.

Lemma linePositionsFrom_lower (lines : list gostring) :
  forall pos y, (y < length (linePositionsFrom lines pos))%nat ->
  pos <= nth y (linePositionsFrom lines pos) 0.
Proof.
  induction lines as [|line rest IH]; intros pos y Hy; simpl in *.
  - destruct y as [|[|y]]; simpl; lia.
  - destruct y as [|y]; [lia|].
    pose proof (IH (pos + (len line + 1)) y ltac:(lia)).
    pose proof (len_nonneg line). lia.
Qed.

Lemma linePositionsFrom_increasing (lines : list gostring) (pos : Z) :
  increasing (linePositionsFrom lines pos).
Proof.
  revert pos. induction lines as [|line rest IH]; intros pos x y Hxy; simpl in *.
  - destruct x as [|[|x]], y as [|[|y]]; simpl; lia.
  - destruct x as [|x], y as [|y]; try lia.
    + pose proof (linePositionsFrom_lower rest (pos + (len line + 1)) y ltac:(lia)).
      pose proof (len_nonneg line). lia.
    + apply IH. lia.
Qed.

Lemma lineOf_nonneg (linePositions : list Z) (offset : Z) : 0 <= lineOf linePositions offset.
Proof. unfold lineOf. destruct (_ <? 0) eqn:E; [lia | now apply Z.ltb_ge in E]. Qed.

Lemma lineOf_search_mono (linePositions : list Z) (a b : Z) :
  increasing linePositions -> a <= b ->
  Search (len linePositions) (fun i => a <? nth (Z.to_nat i) linePositions 0)
  <= Search (len linePositions) (fun i => b <? nth (Z.to_nat i) linePositions 0).
Proof.
  intros Hinc Hab.
  assert (Hmono : forall o x y, 0 <= x <= y -> y < len linePositions ->
            (o <? nth (Z.to_nat x) linePositions 0) = true ->
            (o <? nth (Z.to_nat y) linePositions 0) = true).
  { intros o x y Hxy Hy Hx. apply Z.ltb_lt in Hx. apply Z.ltb_lt.
    pose proof (Hinc (Z.to_nat x) (Z.to_nat y)) as H. unfold len in Hy. lia. }
  destruct (Search_least (len linePositions) _ (len_nonneg _) (Hmono a))
    as (Ha & Hlowa & _).
  destruct (Search_least (len linePositions) _ (len_nonneg _) (Hmono b))
    as (Hb & _ & Hhitb).
  set (ra := Search _ (fun i => a <? _)) in *.
  set (rb := Search _ (fun i => b <? _)) in *.
  destruct (Z_le_gt_dec ra rb) as [Hle|Hgt]; [exact Hle|].
  specialize (Hhitb ltac:(lia)). specialize (Hlowa rb ltac:(lia)).
  cbv beta in Hhitb, Hlowa. apply Z.ltb_lt in Hhitb. apply Z.ltb_ge in Hlowa. lia.
Qed.

Lemma lineOf_mono (linePositions : list Z) (a b : Z) :
  increasing linePositions -> a <= b ->
  lineOf linePositions a <= lineOf linePositions b.
Proof.
  intros Hinc Hab. pose proof (lineOf_search_mono linePositions a b Hinc Hab) as H.
  unfold lineOf. cbv zeta.
  repeat match goal with |- context [if ?c then _ else _] => destruct c eqn:? end;
    rewrite ?Z.ltb_lt, ?Z.ltb_ge in *; lia.
Qed.

Lemma linePositionsFrom_end (lines : list gostring) :
  forall pos, lines <> [] ->
  nth (length lines) (linePositionsFrom lines pos) 0 = pos + len (Join lines [LF]) + 1 /\
  nth (length lines - 1) (linePositionsFrom lines pos) 0 <= pos + len (Join lines [LF]).
Proof.
  induction lines as [|l rest IH]; intros pos Hne; [congruence|].
  destruct rest as [|l' rest].
  - simpl. pose proof (len_nonneg l). lia.
  - destruct (IH (pos + (len l + 1)) ltac:(discriminate)) as [Hend Hlast].
    rewrite Join_cons by discriminate.
    rewrite !len_app. change (len [LF]) with 1.
    cbn [linePositionsFrom length nth] in *.
    split; [lia|].
    replace (S (S (length rest)) - 1)%nat with (S (length rest)) by lia.
    cbn [nth]. replace (S (length rest) - 1)%nat with (length rest) in Hlast by lia.
    lia.
Qed.

(** The offset of the end of the text lies on the last line. *)
Lemma lineOf_end (content : gostring) :
  lineOf (linePositionsFrom (Split content LF) 0) (len content) = numLines content - 1.
Proof.
  unfold numLines. set (lines := Split content LF).
  set (lp := linePositionsFrom lines 0).
  assert (Hne : lines <> []) by apply Split_not_nil.
  assert (Hlen : len lp = len lines + 1).
  { unfold len, lp. rewrite linePositionsFrom_length. lia. }
  assert (Hpos : 1 <= len lines).
  { unfold len. destruct lines; [congruence | simpl; lia]. }
  destruct (linePositionsFrom_end lines 0 Hne) as [Hend Hlast].
  fold lp in Hend, Hlast. unfold lines in Hend at 2, Hlast at 2.
  rewrite Join_Split in Hend, Hlast.
  pose proof (linePositionsFrom_increasing lines 0) as Hinc. fold lp in Hinc.
  set (f := fun i => len content <? nth (Z.to_nat i) lp 0).
  assert (Hmono : forall x y, 0 <= x <= y -> y < len lp -> f x = true -> f y = true).
  { intros x y Hxy Hy Hx. unfold f in *. apply Z.ltb_lt in Hx. apply Z.ltb_lt.
    pose proof (Hinc (Z.to_nat x) (Z.to_nat y)) as H. unfold len in Hy. lia. }
  destruct (Search_least (len lp) f (len_nonneg _) Hmono) as (Hr & Hlow & Hhit).
  assert (Hfn : f (len lines) = true).
  { unfold f. replace (Z.to_nat (len lines)) with (length lines)
      by (unfold len; lia). apply Z.ltb_lt. lia. }
  assert (Hfn1 : f (len lines - 1) = false).
  { unfold f. replace (Z.to_nat (len lines - 1)) with (length lines - 1)%nat
      by (unfold len; lia). apply Z.ltb_ge. lia. }
  assert (Hs : Search (len lp) f = len lines).
  { destruct (Z.lt_trichotomy (Search (len lp) f) (len lines)) as [Hlt|[Heq|Hgt]].
    - specialize (Hhit ltac:(lia)).
      rewrite (Hmono (Search (len lp) f) (len lines - 1)) in Hfn1;
        [discriminate | lia | lia | exact Hhit].
    - exact Heq.
    - rewrite (Hlow (len lines)) in Hfn; [discriminate | lia]. }
  unfold lineOf. fold f. rewrite Hs.
  destruct (len lines - 1 <? 0) eqn:E; [apply Z.ltb_lt in E; lia | reflexivity].
Qed.

(** ** The matches of the structural chunker *)

Lemma rrepeat_post {R : Type} (P : R -> Prop) (greedy : bool) (p : ascii -> bool)
    (k : gostring -> Z -> option R) :
  (forall s' pos' x, k s' pos' = Some x -> P x) ->
  forall s pos x, rrepeat greedy p s pos k = Some x -> P x.
Proof.
  intros Hk s. induction s as [|c s IH]; intros pos x; simpl; [apply Hk|].
  destruct (p c); [|apply Hk].
  destruct greedy.
  - destruct (rrepeat true p s (pos + 1) k) eqn:E.
    + intros [= <-]. eapply IH. exact E.
    + apply Hk.
  - destruct (k (c :: s) pos) eqn:E.
    + intros [= <-]. eapply Hk. exact E.
    + apply IH.
Qed.

(** Whatever a match returns, its continuation returned. *)
Lemma rmatch_post {R : Type} (P : R -> Prop) (r : regex) :
  forall (k : gostring -> Z -> captures -> option R),
  (forall s' pos' caps' x, k s' pos' caps' = Some x -> P x) ->
  forall s pos caps x, rmatch r s pos caps k = Some x -> P x.
Proof.
  induction r as [c|p|r1 IH1 r2 IH2|greedy p|r IH|i r IH]; intros k Hk s pos caps x;
    cbn [rmatch].
  - destruct s as [|c' s]; [discriminate|]. destruct (Ascii.eqb c' c); [apply Hk | discriminate].
  - destruct s as [|c' s]; [discriminate|]. destruct (p c'); [apply Hk | discriminate].
  - apply IH1. intros s' pos' caps' y. apply IH2. exact Hk.
  - apply rrepeat_post. intros s' pos' y. apply Hk.
  - destruct (rmatch r s pos caps k) eqn:E.
    + intros [= <-]. eapply IH; eassumption.
    + apply Hk.
  - apply IH. intros s' pos' caps' y. apply Hk.
Qed.

Lemma matchAt_start (r : regex) (s : gostring) (pos : Z) (m : submatch) :
  matchAt r s pos = Some m -> sm_start m = pos.
Proof.
  unfold matchAt. apply (rmatch_post (fun m => sm_start m = pos)).
  intros s' pos' caps' x [= <-]. reflexivity.
Qed.

Lemma findAll_starts (r : regex) (s : gostring) :
  forall pos skip m, In m (findAll r s pos skip) -> pos <= sm_start m <= pos + len s.
Proof.
  induction s as [|c s IH]; intros pos skip m; cbn [findAll].
  - destruct skip; [|intros []].
    destruct (matchAt r [] pos) eqn:E; [|intros []].
    intros [<-|[]]. apply matchAt_start in E. rewrite len_nil. lia.
  - rewrite len_cons. pose proof (len_nonneg s) as Hs. destruct skip.
    + destruct (matchAt r (c :: s) pos) eqn:E.
      * intros [<-|Hin].
        -- apply matchAt_start in E. lia.
        -- apply IH in Hin. lia.
      * intros Hin. apply IH in Hin. lia.
    + intros Hin. apply IH in Hin. lia.
Qed.

Lemma In_insertByStart (m x : goMatch) (sorted : list goMatch) :
  In m (insertByStart x sorted) <-> m = x \/ In m sorted.
Proof.
  induction sorted as [|m' rest IH]; simpl.
  - intuition.
  - destruct (start m' <? start x); simpl; rewrite ?IH; intuition.
Qed.

Lemma In_sortByStart (m : goMatch) (ms : list goMatch) :
  In m (sortByStart ms) <-> In m ms.
Proof.
  induction ms as [|x ms IH]; simpl; [tauto|].
  rewrite In_insertByStart, IH. intuition.
Qed.

Lemma insertByStart_ascending (x : goMatch) (sorted : list goMatch) :
  ascending sorted -> ascending (insertByStart x sorted).
Proof.
  induction sorted as [|m' rest IH]; intros Hasc; [exact I|].
  cbn [insertByStart]. destruct (start m' <? start x) eqn:E.
  - apply Z.ltb_lt in E. destruct rest as [|m'' rest].
    + simpl. split; [lia | exact I].
    + destruct Hasc as [Hle Hasc]. specialize (IH Hasc).
      cbn [insertByStart] in *. destruct (start m'' <? start x) eqn:E'.
      * split; [exact Hle | exact IH].
      * split; [lia | exact IH].
  - apply Z.ltb_ge in E. split; [exact E | exact Hasc].
Qed.

Lemma sortByStart_ascending (ms : list goMatch) : ascending (sortByStart ms).
Proof.
  induction ms as [|x ms IH]; [exact I|]. now apply insertByStart_ascending.
Qed.

(** ** The structural chunker: line ranges *)

Lemma tiled_later (chunks : list CodeChunk) (next next' last : Z) :
  chunks <> [] -> next <= next' -> tiled next last chunks -> tiled next' last chunks.
Proof.
  destruct chunks as [|c rest]; [congruence|].
  intros _ Hle (H1 & Hn & Hse & Ht). simpl. repeat split; try assumption. lia.
Qed.

Section GoChunks.

Variables content filePath projectPath : gostring.
Variable linePositions : list Z.
Hypothesis positions_increasing : increasing linePositions.

Let chunksOf := goChunks content filePath projectPath linePositions.

(** The chunks of matches in ascending order tile the lines from the line
    of the first match to the line of the end of the text. *)
Lemma goChunks_tiled (rest : list goMatch) :
  forall m,
  ascending (m :: rest) ->
  Forall (fun m => start m <= len content) (m :: rest) ->
  tiled (lineOf linePositions (start m) + 1) (lineOf linePositions (len content) + 1)
    (chunksOf (m :: rest)).
Proof.
  induction rest as [|m' rest IH]; intros m Hasc Hall; subst chunksOf.
  - cbn [goChunks tiled StartLine EndLine].
    inversion Hall as [|? ? Hm _]; subst.
    pose proof (lineOf_nonneg linePositions (start m)).
    pose proof (lineOf_mono linePositions (start m) (len content)
                  positions_increasing Hm).
    repeat split; lia.
  - destruct Hasc as [Hle Hasc]. inversion Hall as [|? ? Hm Hall']; subst.
    specialize (IH m' Hasc Hall').
    change (goChunks content filePath projectPath linePositions (m :: m' :: rest))
      with ({| ID := [];
               Content := substr content (start m) (start m');
               FilePath := filePath;
               ProjectPath := projectPath;
               Language := str "Go";
               StartLine := lineOf linePositions (start m) + 1;
               EndLine := lineOf linePositions (start m') + 1;
               EntityType := if isMethod m then str "method" else str "function";
               Name := name m;
               Signature := sig_ m;
               Embedding := [];
               Hash := [];
               Score := 0%float |}
            :: goChunks content filePath projectPath linePositions (m' :: rest)).
    cbn [tiled StartLine EndLine].
    pose proof (lineOf_nonneg linePositions (start m)).
    pose proof (lineOf_mono linePositions (start m) (start m')
                  positions_increasing Hle).
    split; [lia|]. split; [lia|]. split; [lia|].
    eapply tiled_later; [discriminate | | exact IH]. lia.
Qed.

End GoChunks.

Lemma allMatches_bounded (content : gostring) (method : bool) (r : regex) :
  Forall (fun m => start m <= len content)
    (map (toGoMatch content method) (FindAllStringSubmatchIndex r content)).
Proof.
  apply List.Forall_forall. intros m Hin. apply in_map_iff in Hin as (sm & <- & Hin).
  apply findAll_starts in Hin. simpl. lia.
Qed.

(** The structural chunks tile the lines from the first match on. *)
Lemma chunkGoCode_tiled (content filePath projectPath : gostring) :
  forall c rest,
  chunkGoCode content filePath projectPath = c :: rest ->
  tiled (StartLine c) (numLines content) (c :: rest).
Proof.
  intros c rest. unfold chunkGoCode. cbv zeta.
  set (all := sortByStart _).
  assert (Hasc : ascending all) by apply sortByStart_ascending.
  assert (Hall : Forall (fun m => start m <= len content) all).
  { apply List.Forall_forall. intros m Hin. unfold all in Hin.
    apply (proj1 (In_sortByStart _ _)) in Hin.
    apply in_app_or in Hin as [Hin|Hin];
      eapply List.Forall_forall in Hin; try apply allMatches_bounded; exact Hin. }
  destruct all as [|m ms]; [discriminate|].
  intros Heq. rewrite <- Heq.
  pose proof (goChunks_tiled content filePath projectPath _
                (linePositionsFrom_increasing (Split content LF) 0) ms m Hasc Hall) as Ht.
  rewrite lineOf_end in Ht.
  replace (numLines content - 1 + 1) with (numLines content) in Ht by lia.
  assert (Hs : StartLine c = lineOf (linePositionsFrom (Split content LF) 0) (start m) + 1).
  { cbn [goChunks] in Heq. now inversion Heq. }
  rewrite Hs. exact Ht.
Qed.

(** ** chunkFile *)

Lemma chunkBySize_tiled (cfg : Config) (content filePath projectPath language : gostring) :
  (0 <= ChunkOverlap cfg ->
   exists chunks, chunkBySize cfg content filePath projectPath language = Some chunks) /\
  (forall chunks,
   chunkBySize cfg content filePath projectPath language = Some chunks ->
   tiled 1 (numLines content) chunks).
Proof.
  unfold chunkBySize, numLines. cbv zeta.
  pose proof (Split_not_nil content LF) as Hne.
  destruct (len content <=? MaxChunkSize cfg).
  - split; [eauto|]. intros chunks [= <-]. cbn [tiled StartLine EndLine sizeChunk].
    assert (1 <= len (Split content LF)).
    { unfold len. destruct (Split content LF); [congruence | simpl; lia]. }
    repeat split; lia.
  - destruct (Z_le_gt_dec 0 (ChunkOverlap cfg)) as [Hov|Hov].
    + destruct (chunkBySize_loop_tiled cfg filePath projectPath language
                  (Split content LF) Hov [] 0 1 [] 1) as (new & Hrun & Ht).
      * lia.
      * rewrite len_nil. lia.
      * congruence.
      * split; [eauto|]. intros chunks Hc. rewrite Hrun in Hc.
        injection Hc as <-. simpl app. rewrite len_nil in Ht.
        replace (1 + 0 + len (Split content LF) - 1) with (len (Split content LF)) in Ht
          by lia.
        exact Ht.
    + split; [lia|]. intros chunks Hc.
      rewrite chunkBySize_loop_negative_overlap in Hc; [discriminate | lia | exact Hne].
Qed.

Lemma tiled_withIdentity (filePath : gostring) (chunks : list CodeChunk) :
  forall next last,
  tiled next last chunks -> tiled next last (map (withIdentity filePath) chunks).
Proof.
  induction chunks as [|c rest IH]; intros next last; [exact id|].
  intros (H1 & Hn & Hse & Ht). cbn [map tiled withIdentity StartLine EndLine].
  repeat split; try assumption. now apply IH.
Qed.

(** What [chunkFile] returns tiles the lines from the first line of its
    first chunk to the last line of the text. *)
Lemma chunkFile_tiled (cfg : Config) (content filePath projectPath language : gostring)
    (chunks : list CodeChunk) :
  chunkFile cfg content filePath projectPath language = Some chunks ->
  exists first rest,
    chunks = first :: rest /\
    tiled (StartLine first) (numLines content) chunks /\
    (language <> str "Go" \/ len (chunkGoCode content filePath projectPath) < 2 ->
     StartLine first = 1).
Proof.
  unfold chunkFile, chunkFile_split.
  set (go := if eqString language (str "Go")
             then chunkGoCode content filePath projectPath else []).
  assert (Hsize : forall cs,
            chunkBySize cfg content filePath projectPath language = Some cs ->
            exists first rest,
              map (withIdentity filePath) cs = first :: rest /\
              tiled (StartLine first) (numLines content) (map (withIdentity filePath) cs) /\
              StartLine first = 1).
  { intros cs Hcs.
    apply (proj2 (chunkBySize_tiled cfg content filePath projectPath language)) in Hcs.
    destruct cs as [|c cs].
    - simpl in Hcs. pose proof (len_nonneg (Split content LF)). unfold numLines in Hcs.
      pose proof (Split_not_nil content LF) as Hne.
      destruct (Split content LF); [congruence|]. rewrite len_cons in Hcs.
      pose proof (len_nonneg l0). lia.
    - exists (withIdentity filePath c), (map (withIdentity filePath) cs).
      assert (Hs : StartLine c = 1) by (destruct Hcs as (? & ? & _); lia).
      split; [reflexivity|]. split; [|exact Hs].
      change (StartLine (withIdentity filePath c)) with (StartLine c). rewrite Hs.
      apply (tiled_withIdentity filePath (c :: cs)). exact Hcs. }
  destruct (len go <? 2) eqn:Elen.
  - destruct (chunkBySize cfg content filePath projectPath language) as [cs|] eqn:Ecs;
      [|discriminate].
    intros [= <-]. destruct (Hsize cs eq_refl) as (first & rest & Heq & Ht & Hs).
    exists first, rest. split; [exact Heq|]. split; [exact Ht|]. intros _. exact Hs.
  - apply Z.ltb_ge in Elen. intros [= <-]. unfold go in *.
    unfold eqString in *. destruct (bool_decide (language = str "Go")) eqn:Elang.
    2:{ rewrite len_nil in Elen. lia. }
    apply bool_decide_eq_true in Elang.
    destruct (chunkGoCode content filePath projectPath) as [|c rest] eqn:Ego.
    { rewrite len_nil in Elen. lia. }
    exists (withIdentity filePath c), (map (withIdentity filePath) rest).
    split; [reflexivity|]. split.
    + exact (tiled_withIdentity filePath (c :: rest) (StartLine c) (numLines content)
               (chunkGoCode_tiled content filePath projectPath c rest Ego)).
    + intros [Hl|Hl]; [congruence | lia].
Qed.

(** C9 (line ranges).  With a non-negative [ChunkOverlap], [chunkFile]
    returns chunks for every text and language; and whenever it returns
    (whichever chunker produced the chunks), every chunk satisfies
    [1 <= start_line <= end_line]. *)
Theorem chunkFile_line_ranges (cfg : Config)
    (content filePath projectPath language : gostring) :
  (0 <= ChunkOverlap cfg ->
   exists chunks, chunkFile cfg content filePath projectPath language = Some chunks) /\
  (forall chunks,
   chunkFile cfg content filePath projectPath language = Some chunks ->
   forall c, In c chunks -> 1 <= StartLine c <= EndLine c).
Proof.
  split.
  - intros Hov. unfold chunkFile, chunkFile_split.
    destruct (len _ <? 2); [|eauto].
    destruct (proj1 (chunkBySize_tiled cfg content filePath projectPath language) Hov)
      as [cs ->].
    eauto.
  - intros chunks Hrun c Hin.
    destruct (chunkFile_tiled _ _ _ _ _ _ Hrun) as (first & rest & _ & Ht & _).
    apply tiled_wellformed in Ht.
    exact (proj1 (List.Forall_forall _ _) Ht c Hin).
Qed.

Lemma chunkFile_line_ranges_witness :
  0 <= ChunkOverlap defaultConfig /\
  exists chunks,
    chunkFile defaultConfig twoFuncsFile (str "a.go") (str ".") (str "Go") = Some chunks /\
    forall c, In c chunks -> 1 <= StartLine c <= EndLine c.
Proof.
  pose proof (chunkFile_line_ranges defaultConfig twoFuncsFile (str "a.go") (str ".")
                (str "Go")) as [Hreturns Hranges].
  assert (Hov : 0 <= ChunkOverlap defaultConfig) by (simpl; lia).
  split; [exact Hov|].
  destruct (Hreturns Hov) as [chunks Hrun].
  exists chunks. split; [exact Hrun | exact (Hranges chunks Hrun)].
Defined.

(** C8, as stated, fails on the structural path: of the file
    [package main / func A() { / } / func B() { / }] the chunks start at
    the first [func], and line 1 lies in none of them. *)
Lemma chunkFile_coverage_counterexample :
  exists chunks,
    chunkFile defaultConfig twoFuncsFile (str "a.go") (str ".") (str "Go") = Some chunks /\
    1 <= numLines twoFuncsFile /\
    ~ covered chunks 1.
Proof.
  eexists. split; [vm_compute; reflexivity|].
  split; [vm_compute; discriminate|].
  intros (c & Hin & Hrange). simpl in Hin.
  destruct Hin as [<-|[<-|[]]]; simpl in Hrange; lia.
Qed.

(** C8, amended.  The chunks [chunkFile] returns cover every line from the
    first line of the first chunk through the last line of the text; and
    the first chunk starts on line 1 whenever the size-based chunker
    produced the chunks, that is for every language but Go and for a Go
    file with fewer than two structural chunks. *)
Theorem chunkFile_covers_from_first_chunk (cfg : Config)
    (content filePath projectPath language : gostring) (chunks : list CodeChunk) :
  chunkFile cfg content filePath projectPath language = Some chunks ->
  exists first rest,
    chunks = first :: rest /\
    (forall k, StartLine first <= k <= numLines content -> covered chunks k) /\
    (language <> str "Go" \/ len (chunkGoCode content filePath projectPath) < 2 ->
     StartLine first = 1).
Proof.
  intros Hrun.
  destruct (chunkFile_tiled _ _ _ _ _ _ Hrun) as (first & rest & Heq & Ht & Hfirst).
  exists first, rest. split; [exact Heq|]. split; [|exact Hfirst].
  intros k Hk. eapply tiled_covered; eassumption.
Qed.

Lemma chunkFile_covers_from_first_chunk_witness :
  exists chunks,
    chunkFile sample_config sample_text (str "a.py") (str ".") (str "Python")
      = Some chunks /\
    exists first rest,
      chunks = first :: rest /\
      (forall k, StartLine first <= k <= numLines sample_text -> covered chunks k) /\
      (str "Python" <> str "Go"
       \/ len (chunkGoCode sample_text (str "a.py") (str ".")) < 2 ->
       StartLine first = 1).
Proof.
  eexists. split; [vm_compute; reflexivity|].
  apply (chunkFile_covers_from_first_chunk sample_config sample_text (str "a.py")
           (str ".") (str "Python")).
  vm_compute. reflexivity.
Defined.

(** ** The single-function scenario *)

(** The structural chunker alone finds the function of [helloFile]. *)
Lemma chunkGoCode_helloFile (filePath projectPath : gostring) :
  chunkGoCode helloFile filePath projectPath =
  [ {| ID := []; Content := helloFile; FilePath := filePath; ProjectPath := projectPath;
       Language := str "Go"; StartLine := 1; EndLine := 1;
       EntityType := str "function"; Name := str "Hello";
       Signature := str "name string"; Embedding := []; Hash := [];
       Score := 0%float |} ].
Proof. vm_compute. reflexivity. Qed.

Lemma chunkBySize_one_line (cfg : Config) (content filePath projectPath language : gostring) :
  0 <= ChunkOverlap cfg -> Split content LF = [content] ->
  chunkBySize cfg content filePath projectPath language =
  Some [sizeChunk filePath projectPath language content 1 1].
Proof.
  intros Hov Hsplit. unfold chunkBySize. rewrite Hsplit. cbv zeta.
  destruct (len content <=? MaxChunkSize cfg); [reflexivity|].
  cbn [chunkBySize_loop app]. cbv zeta. rewrite orb_true_r.
  change (len [content]) with 1.
  destruct (1 <? ChunkOverlap cfg) eqn:E.
  - reflexivity.
  - apply Z.ltb_ge in E. rewrite slice_from_Some by (change (len [content]) with 1; lia).
    reflexivity.
Qed.

(** C1, as stated, fails: the one chunk [chunkFile] returns for the file is
    not the function chunk. *)
Lemma chunkFile_helloFile_counterexample :
  ~ (exists c,
       chunkFile defaultConfig helloFile (str "a.go") (str ".") (str "Go") = Some [c] /\
       EntityType c = str "function" /\ Name c = str "Hello" /\
       Signature c = str "name string" /\ StartLine c = 1 /\ EndLine c = 1).
Proof.
  intros (c & Hrun & Htype & _).
  vm_compute in Hrun. injection Hrun as <-. discriminate Htype.
Qed.

(** C1, amended.  [chunkGoCode] finds one chunk in the file (the function
    [Hello], signature [name string], lines 1 to 1); one is fewer than two,
    so [chunkFile] returns the chunk of the size-based fallback instead:
    exactly one chunk, with entity type [chunk], name [chunk_1_1], an empty
    signature, lines 1 to 1 and the whole file as content. *)
Theorem chunkFile_helloFile (cfg : Config) (filePath projectPath : gostring) :
  0 <= ChunkOverlap cfg ->
  (exists g,
     chunkGoCode helloFile filePath projectPath = [g] /\
     EntityType g = str "function" /\ Name g = str "Hello" /\
     Signature g = str "name string" /\ StartLine g = 1 /\ EndLine g = 1) /\
  (exists c,
     chunkFile cfg helloFile filePath projectPath (str "Go") = Some [c] /\
     EntityType c = str "chunk" /\ Name c = str "chunk_1_1" /\
     Signature c = [] /\ StartLine c = 1 /\ EndLine c = 1 /\ Content c = helloFile).
Proof.
  intros Hov. split.
  - eexists. split; [apply chunkGoCode_helloFile|]. repeat split.
  - unfold chunkFile, chunkFile_split.
    change (eqString (str "Go") (str "Go")) with true. cbv iota.
    rewrite chunkGoCode_helloFile. change (len [_] <? 2) with true. cbv iota.
    rewrite chunkBySize_one_line; [|exact Hov | reflexivity].
    eexists. split; [reflexivity|]. repeat split.
Qed.

Lemma chunkFile_helloFile_witness :
  0 <= ChunkOverlap defaultConfig /\
  exists c,
    chunkFile defaultConfig helloFile (str "a.go") (str ".") (str "Go") = Some [c] /\
    EntityType c = str "chunk" /\ Name c = str "chunk_1_1" /\
    Signature c = [] /\ StartLine c = 1 /\ EndLine c = 1 /\ Content c = helloFile.
Proof.
  assert (Hov : 0 <= ChunkOverlap defaultConfig) by (simpl; lia).
  split; [exact Hov|].
  exact (proj2 (chunkFile_helloFile defaultConfig (str "a.go") (str ".") Hov)).
Defined.

(** ** storeChunks and re-ingestion *)

Lemma eqString_true (a b : gostring) : eqString a b = true <-> a = b.
Proof. unfold eqString. apply bool_decide_eq_true. Qed.

Lemma eqString_refl (a : gostring) : eqString a a = true.
Proof. now apply eqString_true. Qed.

(** The loop touches no chunk node but those of the ids it is given. *)
Lemma storeEach_frame (now : gostring) (chunks : list CodeChunk) :
  forall db id,
  ~ In id (map ID chunks) ->
  chunkNodes (fst (storeEach now chunks db)) !! id = chunkNodes db !! id.
Proof.
  induction chunks as [|c rest IH]; intros db id Hid; [reflexivity|].
  cbn [storeEach]. simpl in Hid.
  destruct (unchanged c db).
  - apply IH. tauto.
  - destruct (storeEach now rest (mergeChunk now c db)) as [db' written] eqn:E.
    cbn [fst]. change db' with (fst (db', written)). rewrite <- E.
    rewrite IH by tauto. cbn [mergeChunk chunkNodes].
    apply lookup_insert_ne. intros Heq. apply Hid. now left.
Qed.

(** After the loop, a chunk whose id no other chunk of the list shares is
    stored under its hash. *)
Lemma storeEach_stores (now : gostring) (chunks : list CodeChunk) :
  forall db,
  NoDup (map ID chunks) ->
  forall c, In c chunks -> unchanged c (fst (storeEach now chunks db)) = true.
Proof.
  induction chunks as [|c0 rest IH]; intros db Hnd c Hin; [destruct Hin|].
  cbn [map] in Hnd. apply NoDup_cons in Hnd as [Hfresh Hnd].
  rewrite list_elem_of_In in Hfresh.
  cbn [storeEach]. destruct Hin as [<-|Hin].
  - destruct (unchanged c0 db) eqn:Eu.
    + unfold unchanged in *. now rewrite storeEach_frame.
    + destruct (storeEach now rest (mergeChunk now c0 db)) as [db' written] eqn:E.
      cbn [fst]. change db' with (fst (db', written)). rewrite <- E.
      unfold unchanged. rewrite storeEach_frame by exact Hfresh.
      cbn [mergeChunk chunkNodes]. rewrite lookup_insert_eq. apply eqString_refl.
  - destruct (unchanged c0 db).
    + now apply IH.
    + destruct (storeEach now rest (mergeChunk now c0 db)) as [db' written] eqn:E.
      cbn [fst]. change db' with (fst (db', written)). rewrite <- E.
      now apply IH.
Qed.

Lemma storeEach_unchanged (now : gostring) (chunks : list CodeChunk) (db : Store) :
  (forall c, In c chunks -> unchanged c db = true) ->
  storeEach now chunks db = (db, []).
Proof.
  induction chunks as [|c rest IH]; intros Hall; [reflexivity|].
  cbn [storeEach]. rewrite Hall by now left.
  apply IH. intros c' Hin. apply Hall. now right.
Qed.

Lemma unchanged_merges (now filePath fileName language projectPath projectName : gostring)
    (c : CodeChunk) (db : Store) :
  unchanged c (mergeFile now filePath fileName language projectPath
                 (mergeProject now projectPath projectName db))
  = unchanged c db.
Proof. reflexivity. Qed.

(** Re-ingestion of unchanged chunks with pairwise distinct ids: the second
    [storeChunks] writes no chunk and leaves every chunk node as it was. *)
Lemma storeChunks_twice {tables : UnicodeTables} (now1 now2 : gostring) (chunks : list CodeChunk)
    (filePath projectPath : gostring) (db : Store) :
  NoDup (map ID chunks) ->
  let db1 := fst (storeChunks now1 chunks filePath projectPath db) in
  snd (storeChunks now2 chunks filePath projectPath db1) = [] /\
  chunkNodes (fst (storeChunks now2 chunks filePath projectPath db1)) = chunkNodes db1.
Proof.
  intros Hnd db1.
  assert (Hrun : storeChunks now2 chunks filePath projectPath db1
                 = (mergeFile now2 filePath (Base filePath)
                      (getLanguageFromExt (Ext filePath)) projectPath
                      (mergeProject now2 projectPath (Base projectPath) db1), [])).
  { unfold storeChunks at 1. cbv zeta. apply storeEach_unchanged.
    intros c Hin. rewrite unchanged_merges. unfold db1, storeChunks.
    now apply storeEach_stores. }
  rewrite Hrun. split; reflexivity.
Qed.

(** C3 at the failing input: the two functions of [sameLineFile] share the
    line range 1..1, hence the id; each ingest stores one over the other,
    and the second ingest of the unchanged file writes both chunks again. *)
Theorem reingest_same_line_rewrites {tables : UnicodeTables} :
  exists chunks db1 written1 db2 written2,
    chunkFile defaultConfig sameLineFile (str "a.go") (str ".") (str "Go") = Some chunks /\
    map ID chunks = [str "0cd7798df57f29cb133d1b70fc9ac705";
                     str "0cd7798df57f29cb133d1b70fc9ac705"] /\
    map Hash chunks = [str "8c3b2ecc634e9620aa6c075f330111ae";
                       str "591b29bdf30295f48ed0e253dbf85e2d"] /\
    storeChunks (str "t1") chunks (str "a.go") (str ".") emptyStore = (db1, written1) /\
    storeChunks (str "t2") chunks (str "a.go") (str ".") db1 = (db2, written2) /\
    written2 = map ID chunks.
Proof.
  eexists _, _, _, _, _.
  split; [vm_compute; reflexivity|].
  split; [vm_compute; reflexivity|].
  split; [vm_compute; reflexivity|].
  split; [vm_compute; reflexivity|].
  split; [vm_compute; reflexivity|].
  vm_compute. reflexivity.
Qed.

(** ** Glob patterns *)

Lemma anyStar_skips (k : list N -> bool) (pre s : list N) :
  Forall (fun c => lineTerminator c = false) pre ->
  k s = true -> anyStar k (pre ++ s) = true.
Proof.
  intros Hpre Hk. induction Hpre as [|c pre Hc Hpre IH]; simpl.
  - destruct s; simpl; rewrite Hk; reflexivity.
  - rewrite Hc, IH. simpl. apply orb_true_r.
Qed.

Lemma anyStar_to_the_end (s : list N) :
  Forall (fun c => lineTerminator c = false) s ->
  anyStar (jmatch []) s = true.
Proof.
  intros Hs. rewrite <- (app_nil_r s). now apply anyStar_skips.
Qed.

Lemma utf8_decode_ascii (bs : gostring) :
  Forall (fun c => (byteN c < 0x80)%N) bs -> utf8_decode bs = map byteN bs.
Proof.
  induction 1 as [|c bs Hc Hbs IH]; [reflexivity|].
  cbn [utf8_decode map]. cbv zeta.
  apply N.ltb_lt in Hc. rewrite Hc. now rewrite IH.
Qed.

(** C4, as stated, fails: the pattern of [foo*.go] accepts [foo/bar.go]
    ([*] becomes [.*], and [.] matches a slash); and the pattern of [*api*]
    rejects a path that contains [api] after a line feed. *)
Lemma globToRegex_counterexample :
  regexMatches (str "foo/bar.go") (globToRegex (str "foo*.go")) = Some true /\
  regexMatches (str "x" ++ [LF] ++ str "api") (globToRegex (str "*api*")) = Some false.
Proof. split; vm_compute; reflexivity. Qed.

Lemma api_glob_matches (path : gostring) (before after : list N) :
  utf8_decode path = before ++ map chr (str "api") ++ after ->
  Forall (fun c => lineTerminator c = false) (utf8_decode path) ->
  regexMatches path (globToRegex (str "*api*")) = Some true.
Proof.
  intros Hpath Hfree. unfold regexMatches.
  change (parseRegex (globToRegex (str "*api*")))
    with (Some [JAnyStar; JLit (chr "a"); JLit (chr "p"); JLit (chr "i"); JAnyStar]).
  cbn [fmap option_fmap option_map]. f_equal.
  rewrite Hpath in *. apply Forall_app in Hfree as [Hbefore Hafter].
  apply Forall_app in Hafter as [_ Hafter].
  cbn [jmatch]. apply anyStar_skips; [exact Hbefore|].
  cbn [map str list_ascii_of_string app jmatch]. rewrite !N.eqb_refl.
  cbn [andb]. now apply anyStar_to_the_end.
Qed.

(** C4, amended.  [globToRegex] turns [foo*.go] into [^foo.*\.go$], which
    accepts [foobar.go] and accepts [foo/bar.go] as well; it turns [*api*]
    into [^.*api.*$], which matches every path whose characters contain
    [api] and no line terminator. *)
Theorem globToRegex_round_trip :
  globToRegex (str "foo*.go") = str "^foo.*\.go$" /\
  globToRegex (str "*api*") = str "^.*api.*$" /\
  regexMatches (str "foobar.go") (globToRegex (str "foo*.go")) = Some true /\
  regexMatches (str "foo/bar.go") (globToRegex (str "foo*.go")) = Some true /\
  forall path before after,
    utf8_decode path = before ++ map chr (str "api") ++ after ->
    Forall (fun c => lineTerminator c = false) (utf8_decode path) ->
    regexMatches path (globToRegex (str "*api*")) = Some true.
Proof.
  split; [vm_compute; reflexivity|].
  split; [vm_compute; reflexivity|].
  split; [vm_compute; reflexivity|].
  split; [vm_compute; reflexivity|].
  exact api_glob_matches.
Qed.

Lemma globToRegex_round_trip_witness :
  regexMatches (str "src/api/server.go") (globToRegex (str "*api*")) = Some true.
Proof.
  apply (proj2 (proj2 (proj2 (proj2 globToRegex_round_trip)))
           (str "src/api/server.go") (map chr (str "src/")) (map chr (str "/server.go"))).
  - vm_compute. reflexivity.
  - vm_compute. repeat constructor.
Defined.

(** For an ASCII path the characters are the bytes. *)
Corollary globToRegex_api_ascii (path before after : gostring) :
  path = before ++ str "api" ++ after ->
  Forall (fun c => (byteN c < 0x80)%N /\ lineTerminator (byteN c) = false) path ->
  globAccepts (str "*api*") path = true.
Proof.
  intros Hpath Hascii. unfold globAccepts.
  assert (Hdec : utf8_decode path = map byteN path).
  { apply utf8_decode_ascii. eapply Forall_impl; [exact Hascii|]. now intros c [H _]. }
  rewrite (api_glob_matches path (map byteN before) (map byteN after));
    [reflexivity| |].
  - rewrite Hdec, Hpath, !map_app. reflexivity.
  - rewrite Hdec. apply Forall_map. eapply Forall_impl; [exact Hascii|]. now intros c [_ H].
Qed.

(** ** The order of scores *)

Lemma SFcompare_rank (x y : spec_float) :
  SFcompare x y =
  match rank x, rank y with
  | Some a, Some b => Some (lexCompare a b)
  | _, _ => None
  end.
Proof.
  destruct x as [sx|sx| |sx mx ex], y as [sy|sy| |sy my ey];
    try destruct sx; try destruct sy; try reflexivity.
  (* what is left: two negative finite numbers *)
  cbn [SFcompare rank lexCompare]. f_equal.
  change (-1 ?= -1) with Eq. cbv iota.
  rewrite Z.compare_opp, (Z.compare_antisym ex ey).
  destruct (ex ?= ey); reflexivity.
Qed.

Lemma lexCompare_Lt (a b : Z * Z * Z) : lexCompare a b = Lt <-> lexLt a b.
Proof.
  destruct a as [[a1 a2] a3], b as [[b1 b2] b3]. unfold lexCompare, lexLt.
  destruct (Z.compare_spec a1 b1), (Z.compare_spec a2 b2), (Z.compare_spec a3 b3);
    split; intros Hc; try discriminate; try reflexivity; lia.
Qed.

Lemma lexCompare_not_Gt (a b : Z * Z * Z) : lexCompare a b <> Gt <-> ~ lexLt b a.
Proof.
  destruct a as [[a1 a2] a3], b as [[b1 b2] b3]. unfold lexCompare, lexLt.
  destruct (Z.compare_spec a1 b1), (Z.compare_spec a2 b2), (Z.compare_spec a3 b3);
    split; intros Hc; try congruence; try lia; try (exfalso; apply Hc; lia).
Qed.

Lemma fltLt_rank (x y : float) :
  fltLt x y <->
  exists a b, rank (Prim2SF x) = Some a /\ rank (Prim2SF y) = Some b /\ lexLt a b.
Proof.
  unfold fltLt. rewrite ltb_spec. unfold SFltb. rewrite SFcompare_rank.
  destruct (rank (Prim2SF x)) as [a|], (rank (Prim2SF y)) as [b|].
  - split.
    + intros H. exists a, b. repeat split. apply lexCompare_Lt.
      destruct (lexCompare a b); congruence.
    + intros (a' & b' & [= <-] & [= <-] & H). apply lexCompare_Lt in H. now rewrite H.
  - split; [discriminate | intros (? & ? & _ & H & _); discriminate].
  - split; [discriminate | intros (? & ? & H & _); discriminate].
  - split; [discriminate | intros (? & ? & H & _); discriminate].
Qed.

Lemma fltLe_rank (x y : float) :
  fltLe x y <->
  exists a b, rank (Prim2SF x) = Some a /\ rank (Prim2SF y) = Some b /\ ~ lexLt b a.
Proof.
  unfold fltLe. rewrite leb_spec. unfold SFleb. rewrite SFcompare_rank.
  destruct (rank (Prim2SF x)) as [a|], (rank (Prim2SF y)) as [b|].
  - split.
    + intros H. exists a, b. repeat split. apply lexCompare_not_Gt.
      destruct (lexCompare a b); congruence.
    + intros (a' & b' & [= <-] & [= <-] & H). apply lexCompare_not_Gt in H.
      destruct (lexCompare a b); congruence.
  - split; [discriminate | intros (? & ? & _ & H & _); discriminate].
  - split; [discriminate | intros (? & ? & H & _); discriminate].
  - split; [discriminate | intros (? & ? & H & _); discriminate].
Qed.

Lemma lexLt_trans (a b c : Z * Z * Z) : lexLt a b -> lexLt b c -> lexLt a c.
Proof.
  destruct a as [[a1 a2] a3], b as [[b1 b2] b3], c as [[c1 c2] c3].
  unfold lexLt. lia.
Qed.

Lemma lexLt_total (a b : Z * Z * Z) : lexLt a b \/ ~ lexLt a b.
Proof. destruct a as [[a1 a2] a3], b as [[b1 b2] b3]. unfold lexLt. lia. Qed.

(** A number above another is not below it ... *)
Lemma fltLt_fltLe (x y : float) : fltLt x y -> fltLe x y.
Proof.
  rewrite fltLt_rank, fltLe_rank. intros (a & b & Ha & Hb & H).
  exists a, b. repeat split; try assumption.
  destruct a as [[a1 a2] a3], b as [[b1 b2] b3]. unfold lexLt in *. lia.
Qed.

(** ... the order is transitive ... *)
Lemma fltLe_trans (x y z : float) : fltLe x y -> fltLe y z -> fltLe x z.
Proof.
  rewrite !fltLe_rank. intros (a & b & Ha & Hb & H) (b' & c & Hb' & Hc & H').
  rewrite Hb in Hb'. injection Hb' as <-.
  exists a, c. repeat split; try assumption.
  destruct a as [[a1 a2] a3], b as [[b1 b2] b3], c as [[c1 c2] c3].
  unfold lexLt in *. lia.
Qed.

(** ... and total on the numbers that compare with anything at all. *)
Lemma fltLe_of_not_fltLt (x y m n : float) :
  fltLt m x -> fltLt n y -> (y <? x)%float = false -> fltLe x y.
Proof.
  intros Hx Hy Hyx.
  apply fltLt_rank in Hx as (_ & a & _ & Ha & _).
  apply fltLt_rank in Hy as (_ & b & _ & Hb & _).
  apply fltLe_rank. exists a, b. repeat split; try assumption.
  intros Hlt. assert (fltLt y x) as H by (apply fltLt_rank; eauto).
  unfold fltLt in H. congruence.
Qed.

(** ** The ranking query *)

Lemma In_insertByScore (x r : CodeChunk) (sorted : list CodeChunk) :
  In x (insertByScore r sorted) <-> x = r \/ In x sorted.
Proof.
  induction sorted as [|r' rest IH]; simpl; [intuition|].
  destruct (Score r' <? Score r)%float; simpl; rewrite ?IH; intuition.
Qed.

Lemma In_orderByScoreDesc (x : CodeChunk) (rows : list CodeChunk) :
  In x (orderByScoreDesc rows) <-> In x rows.
Proof.
  induction rows as [|r rows IH]; simpl; [tauto|].
  rewrite In_insertByScore, IH. intuition.
Qed.

Lemma insertByScore_sorted (m : float) (r : CodeChunk) (sorted : list CodeChunk) :
  fltLt m (Score r) ->
  List.Forall (fun x => fltLt m (Score x)) sorted ->
  StronglySorted scoreGe sorted ->
  StronglySorted scoreGe (insertByScore r sorted).
Proof.
  intros Hr Hall Hsorted. induction Hsorted as [|r' rest Hrest IH Hhead].
  - repeat constructor.
  - inversion Hall as [|? ? Hr' Hall']; subst. cbn [insertByScore].
    destruct (Score r' <? Score r)%float eqn:E.
    + constructor; [now constructor|].
      assert (Hle : fltLe (Score r') (Score r)) by now apply fltLt_fltLe.
      constructor; [exact Hle|].
      eapply List.Forall_impl; [|exact Hhead].
      intros x Hx. cbv beta in *. eapply fltLe_trans; eassumption.
    + constructor; [now apply IH|].
      apply List.Forall_forall. intros x Hx. apply In_insertByScore in Hx as [->|Hx].
      * eapply fltLe_of_not_fltLt; eassumption.
      * exact (proj1 (List.Forall_forall _ _) Hhead x Hx).
Qed.

Lemma orderByScoreDesc_sorted (m : float) (rows : list CodeChunk) :
  List.Forall (fun x => fltLt m (Score x)) rows ->
  StronglySorted scoreGe (orderByScoreDesc rows).
Proof.
  induction 1 as [|r rows Hr Hrows IH]; [constructor|].
  change (orderByScoreDesc (r :: rows)) with (insertByScore r (orderByScoreDesc rows)).
  apply (insertByScore_sorted m); [exact Hr| |exact IH].
  apply List.Forall_forall. intros x Hx.
  apply (proj1 (In_orderByScoreDesc x rows)) in Hx.
  exact (proj1 (List.Forall_forall _ _) Hrows x Hx).
Qed.

Lemma StronglySorted_lookup (rows : list CodeChunk) :
  StronglySorted scoreGe rows -> sortedByScoreDesc rows.
Proof.
  intros Hsorted. induction Hsorted as [|r rest Hrest IH Hhead];
    intros i j ri rj Hij Hi Hj.
  - discriminate Hi.
  - destruct j as [|j]; [lia|]. cbn in Hj. destruct i as [|i].
    + cbn in Hi. injection Hi as <-.
      apply list_elem_of_lookup_2, list_elem_of_In in Hj.
      exact (proj1 (List.Forall_forall _ _) Hhead rj Hj).
    + cbn in Hi. apply (IH i j); [lia | exact Hi | exact Hj].
Qed.

Lemma sortedByScoreDesc_take (n : nat) (rows : list CodeChunk) :
  sortedByScoreDesc rows -> sortedByScoreDesc (take n rows).
Proof.
  intros Hsorted i j ri rj Hij Hi Hj.
  apply lookup_take_Some in Hi as [Hi _]. apply lookup_take_Some in Hj as [Hj _].
  exact (Hsorted i j ri rj Hij Hi Hj).
Qed.

Section RetrievalFacts.

Context {tables : UnicodeTables}.

Variable cosine : list float -> list float -> float.
Variable service : EmbeddingService.

(** Where a row of the ranking query comes from. *)
Lemma In_scoredRows (queryEmbedding : list float) (minScore : float)
    (candidates : list (gostring * ChunkNode)) (r : CodeChunk) :
  In r (scoredRows cosine queryEmbedding minScore candidates) ->
  exists id c,
    In (id, c) candidates /\
    r = toChunk id c (adjusted (cosine (c_embedding c) queryEmbedding) c) /\
    fltLt minScore (cosine (c_embedding c) queryEmbedding) /\
    fltLt minScore (Score r).
Proof.
  unfold scoredRows. intros Hin. apply in_flat_map in Hin as ([id c] & Hcand & Hin).
  cbv zeta in Hin.
  destruct (minScore <? cosine (c_embedding c) queryEmbedding)%float eqn:Ev; [|destruct Hin].
  destruct (minScore <? adjusted (cosine (c_embedding c) queryEmbedding) c)%float eqn:Es;
    [|destruct Hin].
  destruct Hin as [<-|[]]. exists id, c. repeat split; assumption.
Qed.

(** What [SearchCodeAdvanced] returns, when it returns rows: the query
    embedding it obtained and the rows of the ranking query, ordered and
    cut at the limit. *)
Lemma SearchCodeAdvanced_Ok (query : gostring) (limit : Z)
    (languages pathFilters : list gostring) (minScore : float) (useKeywords : bool)
    (db : Store) (rows : list CodeChunk) :
  SearchCodeAdvanced cosine service query limit languages pathFilters minScore
    useKeywords db = Ok rows ->
  exists queryEmbedding others candidates,
    getEmbeddings service [query] = Ok (queryEmbedding :: others) /\
    (forall id c, In (id, c) candidates -> chunkNodes db !! id = Some c) /\
    (rows = [] \/
     0 <= limit /\
     rows = take (Z.to_nat limit)
              (orderByScoreDesc (scoredRows cosine queryEmbedding minScore candidates))).
Proof.
  unfold SearchCodeAdvanced.
  destruct (getEmbeddings service [query]) as [embeddings|e]; [|discriminate].
  destruct embeddings as [|q others]; [discriminate|].
  destruct q as [|x q]; [discriminate|]. cbv zeta.
  destruct (bool_decide (size (chunkNodes db) = 0%nat)).
  - intros [= <-]. exists (x :: q), others, []. split; [reflexivity|].
    split; [intros ? ? []|]. now left.
  - destruct (limit <? 0) eqn:El; [discriminate|]. apply Z.ltb_ge in El.
    intros [= <-]. eexists (x :: q), others, _. split; [reflexivity|].
    split; [|right; split; [exact El | reflexivity]].
    intros id c Hin. apply list_elem_of_In, list_elem_of_filter in Hin as [_ Hin].
    now apply elem_of_map_to_list in Hin.
Qed.

End RetrievalFacts.

(** The rows returned are in descending order of score. *)
Lemma SearchCodeAdvanced_sorted {tables : UnicodeTables}
    (cosine : list float -> list float -> float) (service : EmbeddingService)
    (query : gostring) (limit : Z) (languages pathFilters : list gostring)
    (minScore : float) (useKeywords : bool) (db : Store) (rows : list CodeChunk) :
  SearchCodeAdvanced cosine service query limit languages pathFilters minScore
    useKeywords db = Ok rows ->
  sortedByScoreDesc rows.
Proof.
  intros Hrun.
  destruct (SearchCodeAdvanced_Ok cosine service _ _ _ _ _ _ _ _ Hrun)
    as (q & others & candidates & Hq & Hcand & Hrows).
  destruct Hrows as [->|[Hlimit ->]]; [intros i j ri rj _ Hi; discriminate Hi|].
  apply sortedByScoreDesc_take, StronglySorted_lookup.
  apply (orderByScoreDesc_sorted minScore).
  apply List.Forall_forall. intros r Hr.
  now apply In_scoredRows in Hr as (_ & _ & _ & _ & _ & H).
Qed.

(** C5 (threshold, order, limit).  Whenever [SearchCodeAdvanced] returns
    rows, every row is the row of a chunk node whose similarity to the query
    embedding is strictly above [minScore] and whose final score is strictly
    above [minScore] too; the rows are in descending order of score; and
    there are at most [limit] of them (the store refuses a negative
    [limit], so a limit is a count). *)
Theorem SearchCodeAdvanced_threshold_order_limit {tables : UnicodeTables}
    (cosine : list float -> list float -> float) (service : EmbeddingService)
    (query : gostring) (limit : Z) (languages pathFilters : list gostring)
    (minScore : float) (useKeywords : bool) (db : Store) (rows : list CodeChunk) :
  SearchCodeAdvanced cosine service query limit languages pathFilters minScore
    useKeywords db = Ok rows ->
  exists queryEmbedding others,
    getEmbeddings service [query] = Ok (queryEmbedding :: others) /\
    (forall r, In r rows ->
       exists c, chunkNodes db !! ID r = Some c /\
                 fltLt minScore (cosine (c_embedding c) queryEmbedding) /\
                 fltLt minScore (Score r)) /\
    sortedByScoreDesc rows /\
    (0 <= limit -> len rows <= limit).
Proof.
  intros Hrun.
  destruct (SearchCodeAdvanced_Ok cosine service _ _ _ _ _ _ _ _ Hrun)
    as (q & others & candidates & Hq & Hcand & Hrows).
  exists q, others. split; [exact Hq|].
  destruct Hrows as [->|[Hlimit ->]].
  - split; [intros r []|]. split; [intros i j ri rj _ Hi; discriminate Hi|].
    intros Hl. rewrite len_nil. exact Hl.
  - assert (Hall : List.Forall (fun x => fltLt minScore (Score x))
                     (scoredRows cosine q minScore candidates)).
    { apply List.Forall_forall. intros r Hr.
      now apply In_scoredRows in Hr as (_ & _ & _ & _ & _ & H). }
    split; [|split].
    + intros r Hr. apply list_elem_of_In, subseteq_take, list_elem_of_In in Hr.
      apply In_orderByScoreDesc, In_scoredRows in Hr
        as (id & c & Hin & -> & Hv & Hs).
      exists c. split; [now apply Hcand|]. split; [exact Hv | exact Hs].
    + apply sortedByScoreDesc_take, StronglySorted_lookup.
      now apply (orderByScoreDesc_sorted minScore).
    + intros _. unfold len. rewrite length_take. lia.
Qed.

Lemma SearchCodeAdvanced_threshold_order_limit_witness :
  exists rows,
    SearchCodeAdvanced (tables := plainTables)
        halfCosine unitService (str "server") 10 [] [] 0.1%float false
      sampleStore = Ok rows /\
    length rows = 2%nat /\
    exists queryEmbedding others,
      getEmbeddings unitService [str "server"] = Ok (queryEmbedding :: others) /\
      (forall r, In r rows ->
         exists c, chunkNodes sampleStore !! ID r = Some c /\
                   fltLt 0.1 (halfCosine (c_embedding c) queryEmbedding) /\
                   fltLt 0.1 (Score r)) /\
      sortedByScoreDesc rows /\
      (0 <= 10 -> len rows <= 10).
Proof.
  eexists. split; [vm_compute; reflexivity|]. split; [reflexivity|].
  apply (SearchCodeAdvanced_threshold_order_limit (tables := plainTables)
      halfCosine unitService (str "server")
           10 [] [] 0.1%float false sampleStore).
  vm_compute. reflexivity.
Defined.

(** ** The score formula *)

(** A text has at most as many characters as bytes. *)
Lemma utf8_decode_length (n : nat) :
  forall bs, (length bs <= n)%nat -> (length (utf8_decode bs) <= length bs)%nat.
Proof.
  induction n as [|n IH]; intros bs Hn.
  - destruct bs; [simpl; lia | simpl in Hn; lia].
  - destruct bs as [|c0 r0]; [simpl; lia|].
    cbn [utf8_decode]. cbv zeta.
    assert (H0 := IH r0).
    destruct (byteN c0 <? 0x80)%N; [simpl in *; lia|].
    destruct r0 as [|c1 r1]; [simpl; lia|].
    assert (H1 := IH r1).
    destruct (_ && isCont (byteN c1)); [simpl in *; lia|].
    destruct r1 as [|c2 r2]; [simpl in *; lia|].
    assert (H2 := IH r2).
    match goal with |- context [if ?b then _ else _] => destruct b end;
      [simpl in *; lia|].
    destruct r2 as [|c3 r3]; [simpl in *; lia|].
    assert (H3 := IH r3).
    match goal with |- context [if ?b then _ else _] => destruct b end;
      simpl in *; lia.
Qed.

Lemma size_le_len (s : gostring) : size_ s <= len s.
Proof. unfold size_, len. pose proof (utf8_decode_length (length s) s). lia. Qed.

Lemma size_ascii (s : gostring) :
  Forall (fun c => (byteN c < 0x80)%N) s -> size_ s = len s.
Proof.
  intros H. unfold size_, len. rewrite (utf8_decode_ascii s H), length_map. reflexivity.
Qed.

(** The three adjustments, as the claim words them. *)
Lemma entityBoost_spec (c : ChunkNode) :
  entityBoost c =
  if bool_decide (c_entity_type c = str "function" \/ c_entity_type c = str "method")
  then 0.1%float else 0%float.
Proof.
  unfold entityBoost, eqString.
  destruct (bool_decide (c_entity_type c = str "function")) eqn:Ef;
    [apply bool_decide_eq_true in Ef | apply bool_decide_eq_false in Ef];
  destruct (bool_decide (c_entity_type c = str "method")) eqn:Em;
    [apply bool_decide_eq_true in Em | apply bool_decide_eq_false in Em
    |apply bool_decide_eq_true in Em | apply bool_decide_eq_false in Em];
  cbn [orb]; symmetry.
  - rewrite bool_decide_eq_true_2; [reflexivity | now left].
  - rewrite bool_decide_eq_true_2; [reflexivity | now left].
  - rewrite bool_decide_eq_true_2; [reflexivity | now right].
  - rewrite bool_decide_eq_false_2; [reflexivity | tauto].
Qed.

Lemma sizeBoost_spec (c : ChunkNode) :
  sizeBoost c = if bool_decide (size_ (c_content c) < 500) then 0.05%float else 0%float.
Proof.
  unfold sizeBoost. destruct (size_ (c_content c) <? 500) eqn:E.
  - apply Z.ltb_lt in E. now rewrite bool_decide_eq_true_2.
  - apply Z.ltb_ge in E. rewrite bool_decide_eq_false_2; [reflexivity | lia].
Qed.

Lemma sizePenalty_spec (c : ChunkNode) :
  sizePenalty c =
  if bool_decide (2000 < size_ (c_content c)) then (-0.05)%float else 0%float.
Proof.
  unfold sizePenalty. destruct (2000 <? size_ (c_content c)) eqn:E.
  - apply Z.ltb_lt in E. now rewrite bool_decide_eq_true_2.
  - apply Z.ltb_ge in E. rewrite bool_decide_eq_false_2; [reflexivity | lia].
Qed.

(** A character takes at most four bytes. *)
Lemma utf8_decode_bytes (n : nat) :
  forall bs, (length bs <= n)%nat -> (length bs <= 4 * length (utf8_decode bs))%nat.
Proof.
  induction n as [|n IH]; intros bs Hn.
  - destruct bs; [simpl; lia | simpl in Hn; lia].
  - destruct bs as [|c0 r0]; [simpl; lia|].
    cbn [utf8_decode]. cbv zeta.
    assert (H0 := IH r0).
    destruct (byteN c0 <? 0x80)%N; [simpl in *; lia|].
    destruct r0 as [|c1 r1]; [simpl; lia|].
    assert (H1 := IH r1).
    destruct (_ && isCont (byteN c1)); [simpl in *; lia|].
    destruct r1 as [|c2 r2]; [simpl in *; lia|].
    assert (H2 := IH r2).
    match goal with |- context [if ?b then _ else _] => destruct b end;
      [simpl in *; lia|].
    destruct r2 as [|c3 r3]; [simpl in *; lia|].
    assert (H3 := IH r3).
    match goal with |- context [if ?b then _ else _] => destruct b end;
      simpl in *; lia.
Qed.

Lemma len_le_size (s : gostring) : len s <= 4 * size_ s.
Proof. unfold size_, len. pose proof (utf8_decode_bytes (length s) s). lia. Qed.

(** C6, as stated, fails: the size adjustments go by the number of
    characters, not of bytes.  A chunk of 2500 bytes that is neither
    function nor method and holds 1250 characters of two bytes is not
    penalised: at [vectorScore] 0.5 it scores 0.5, not 0.45, and the search
    returns it with that score. *)
Lemma SearchCodeAdvanced_score_formula_counterexample :
  len (c_content twoByteModule) = 2500 /\
  c_entity_type twoByteModule <> str "function" /\
  c_entity_type twoByteModule <> str "method" /\
  size_ (c_content twoByteModule) = 1250 /\
  adjusted 0.5 twoByteModule = 0.5%float /\
  adjusted 0.5 twoByteModule <> 0.45%float /\
  exists rows r,
    SearchCodeAdvanced (tables := plainTables) halfCosine unitService (str "server") 10
      [] [] 0.1%float false twoByteStore = Ok rows /\
    In r rows /\ len (Content r) = 2500 /\ EntityType r = str "chunk" /\
    Score r = 0.5%float.
Proof.
  split; [vm_compute; reflexivity|].
  split; [intros H; vm_compute in H; discriminate H|].
  split; [intros H; vm_compute in H; discriminate H|].
  split; [vm_compute; reflexivity|].
  split; [vm_compute; reflexivity|].
  split.
  { intros H. apply (f_equal (fun x => (x <? 0.5)%float)) in H.
    vm_compute in H. discriminate H. }
  eexists. eexists. split; [vm_compute; reflexivity|].
  split; [right; left; reflexivity|].
  split; [vm_compute; reflexivity|]. split; reflexivity.
Qed.

(** C6, amended (score formula).  Every row [SearchCodeAdvanced] returns
    carries the score [vectorScore + entityBoost + sizeBoost + sizePenalty]
    of its chunk node, where [entityBoost] is 0.1 exactly when the entity
    type is [function] or [method], [sizeBoost] is 0.05 exactly when the
    content has fewer than 500 characters, and [sizePenalty] is -0.05
    exactly when it has more than 2000 characters (each is 0 otherwise).  At
    [vectorScore] 0.5 a function of 200 bytes scores 0.65; a chunk of 2500
    bytes that is neither function nor method scores 0.45 when it has more
    than 2000 characters, as it has when its bytes are ASCII, and 0.5 when
    it has not; and in the rows returned a row with score 0.65 stands before
    a row with score 0.45. *)
Theorem SearchCodeAdvanced_score_formula {tables : UnicodeTables}
    (cosine : list float -> list float -> float) (service : EmbeddingService)
    (query : gostring) (limit : Z) (languages pathFilters : list gostring)
    (minScore : float) (useKeywords : bool) (db : Store) (rows : list CodeChunk) :
  SearchCodeAdvanced cosine service query limit languages pathFilters minScore
    useKeywords db = Ok rows ->
  (exists queryEmbedding others,
     getEmbeddings service [query] = Ok (queryEmbedding :: others) /\
     forall r, In r rows ->
       exists c,
         chunkNodes db !! ID r = Some c /\
         EntityType r = c_entity_type c /\ Content r = c_content c /\
         let vectorScore := cosine (c_embedding c) queryEmbedding in
         let entityBoost :=
           if bool_decide (EntityType r = str "function" \/ EntityType r = str "method")
           then 0.1%float else 0%float in
         let sizeBoost :=
           if bool_decide (size_ (Content r) < 500) then 0.05%float else 0%float in
         let sizePenalty :=
           if bool_decide (2000 < size_ (Content r)) then (-0.05)%float else 0%float in
         Score r = (vectorScore + entityBoost + sizeBoost + sizePenalty)%float) /\
  (forall f m : ChunkNode,
     c_entity_type f = str "function" -> len (c_content f) = 200 ->
     c_entity_type m <> str "function" -> c_entity_type m <> str "method" ->
     len (c_content m) = 2500 ->
     adjusted 0.5 f = 0.65%float /\
     adjusted 0.5 m
     = (if bool_decide (2000 < size_ (c_content m)) then 0.45%float else 0.5%float) /\
     (Forall (fun b => (byteN b < 0x80)%N) (c_content m) ->
      adjusted 0.5 m = 0.45%float)) /\
  (forall i j ri rj,
     rows !! i = Some ri -> rows !! j = Some rj ->
     Score ri = 0.65%float -> Score rj = 0.45%float -> (i < j)%nat).
Proof.
  intros Hrun. split; [|split].
  - destruct (SearchCodeAdvanced_Ok cosine service _ _ _ _ _ _ _ _ Hrun)
      as (q & others & candidates & Hq & Hcand & Hrows).
    exists q, others. split; [exact Hq|].
    destruct Hrows as [->|[Hlimit ->]]; [intros r []|].
    intros r Hr. apply list_elem_of_In, subseteq_take, list_elem_of_In in Hr.
    apply In_orderByScoreDesc, In_scoredRows in Hr as (id & c & Hin & -> & _ & _).
    exists c. split; [now apply Hcand|]. split; [reflexivity|]. split; [reflexivity|].
    cbv zeta. cbn [Score EntityType Content toChunk]. unfold adjusted.
    now rewrite entityBoost_spec, sizeBoost_spec, sizePenalty_spec.
  - intros f m Hf Hflen Hm1 Hm2 Hmlen.
    assert (Hm : adjusted 0.5 m
                 = (if bool_decide (2000 < size_ (c_content m))
                    then 0.45%float else 0.5%float)).
    { unfold adjusted. rewrite entityBoost_spec, sizeBoost_spec, sizePenalty_spec.
      pose proof (len_le_size (c_content m)) as Hms.
      rewrite (bool_decide_eq_false_2 (_ \/ _)) by tauto.
      rewrite (bool_decide_eq_false_2 (size_ (c_content m) < 500)) by lia.
      destruct (bool_decide (2000 < size_ (c_content m))); vm_compute; reflexivity. }
    split; [|split; [exact Hm|]].
    + unfold adjusted. rewrite entityBoost_spec, sizeBoost_spec, sizePenalty_spec.
      pose proof (size_le_len (c_content f)) as Hfs.
      rewrite (bool_decide_eq_true_2 (_ \/ _)) by now left.
      rewrite (bool_decide_eq_true_2 (size_ (c_content f) < 500)) by lia.
      rewrite (bool_decide_eq_false_2 (2000 < size_ (c_content f))) by lia.
      vm_compute. reflexivity.
    + intros Hascii. rewrite Hm, (size_ascii _ Hascii), Hmlen.
      now rewrite bool_decide_eq_true_2 by lia.
  - intros i j ri rj Hi Hj Hsi Hsj.
    pose proof (SearchCodeAdvanced_sorted cosine service _ _ _ _ _ _ _ _ Hrun)
      as Hsorted.
    destruct (Nat.lt_trichotomy i j) as [Hlt|[->|Hgt]]; [exact Hlt| |].
    + rewrite Hi in Hj. injection Hj as <-. rewrite Hsi in Hsj.
      apply (f_equal (fun x => (x <? 0.5)%float)) in Hsj. vm_compute in Hsj.
      discriminate Hsj.
    + specialize (Hsorted j i rj ri Hgt Hj Hi). unfold fltLe in Hsorted.
      rewrite Hsi, Hsj in Hsorted. vm_compute in Hsorted. discriminate Hsorted.
Qed.

Lemma longModule_ascii : Forall (fun b => (byteN b < 0x80)%N) (c_content longModule).
Proof.
  apply List.Forall_forall. intros b Hb. apply repeat_spec in Hb. subst b.
  vm_compute. reflexivity.
Qed.

Lemma SearchCodeAdvanced_score_formula_witness :
  exists rows,
    SearchCodeAdvanced (tables := plainTables) halfCosine unitService (str "server") 10
      [] [] 0.1%float false sampleStore = Ok rows /\
    adjusted 0.5 shortFunction = 0.65%float /\
    adjusted 0.5 longModule
    = (if bool_decide (2000 < size_ (c_content longModule))
       then 0.45%float else 0.5%float) /\
    (Forall (fun b => (byteN b < 0x80)%N) (c_content longModule) ->
     adjusted 0.5 longModule = 0.45%float).
Proof.
  destruct (SearchCodeAdvanced (tables := plainTables) halfCosine unitService
              (str "server") 10 [] [] 0.1%float false sampleStore) as [rows|e] eqn:Hrun;
    [|vm_compute in Hrun; discriminate Hrun].
  exists rows. split; [reflexivity|].
  apply (proj1 (proj2 (SearchCodeAdvanced_score_formula (tables := plainTables) halfCosine
                         unitService (str "server") 10 [] [] 0.1%float false sampleStore
                         rows Hrun))).
  - reflexivity.
  - vm_compute. reflexivity.
  - intros H. vm_compute in H. discriminate H.
  - intros H. vm_compute in H. discriminate H.
  - vm_compute. reflexivity.
Defined.

(** ** The embedding client *)

Lemma assignEmbeddings_within (embeddings : list (list float)) :
  forall done rest,
  (length embeddings <= length rest)%nat ->
  assignEmbeddings (length done) embeddings (done ++ rest) =
  Some (done ++ zip_with withEmbedding embeddings (take (length embeddings) rest)
        ++ drop (length embeddings) rest).
Proof.
  induction embeddings as [|e embeddings IH]; intros done rest Hlen.
  - reflexivity.
  - destruct rest as [|c rest]; [simpl in Hlen; lia|].
    cbn [assignEmbeddings]. rewrite list_lookup_middle by reflexivity.
    replace (<[length done := withEmbedding e c]> (done ++ c :: rest))
      with ((done ++ [withEmbedding e c]) ++ rest).
    2:{ rewrite <- app_assoc. symmetry.
        rewrite <- (Nat.add_0_r (length done)). now rewrite insert_app_r. }
    replace (S (length done)) with (length (done ++ [withEmbedding e c]))
      by (rewrite length_app; simpl; lia).
    rewrite IH by (simpl in Hlen; lia).
    now rewrite <- app_assoc.
Qed.

Lemma assignEmbeddings_beyond (embeddings : list (list float)) :
  forall done rest,
  (length rest < length embeddings)%nat ->
  assignEmbeddings (length done) embeddings (done ++ rest) = None.
Proof.
  induction embeddings as [|e embeddings IH]; intros done rest Hlen; [simpl in Hlen; lia|].
  cbn [assignEmbeddings]. destruct rest as [|c rest].
  - rewrite app_nil_r, lookup_ge_None_2 by lia. reflexivity.
  - rewrite list_lookup_middle by reflexivity.
    replace (<[length done := withEmbedding e c]> (done ++ c :: rest))
      with ((done ++ [withEmbedding e c]) ++ rest).
    2:{ rewrite <- app_assoc. symmetry.
        rewrite <- (Nat.add_0_r (length done)). now rewrite insert_app_r. }
    replace (S (length done)) with (length (done ++ [withEmbedding e c]))
      by (rewrite length_app; simpl; lia).
    apply IH. simpl in Hlen. lia.
Qed.

(** What [generateEmbeddings] does with a decoded response, by the number
    of vectors in it. *)
Lemma generateEmbeddings_decoded (service : EmbeddingService) (chunks : list CodeChunk)
    (embeddings : list (list float)) :
  chunks <> [] ->
  service (map Content chunks) = Decoded embeddings ->
  generateEmbeddings service chunks =
  if (length embeddings <=? length chunks)%nat then
    Some (Ok (zip_with withEmbedding embeddings (take (length embeddings) chunks)
              ++ drop (length embeddings) chunks))
  else None.
Proof.
  intros Hne Hreply. unfold generateEmbeddings, getEmbeddings. rewrite Hreply.
  destruct chunks as [|c chunks]; [congruence|].
  destruct (length embeddings <=? length (c :: chunks))%nat eqn:E.
  - apply Nat.leb_le in E.
    pose proof (assignEmbeddings_within embeddings [] (c :: chunks) E) as H.
    cbn [length app] in H. rewrite H. reflexivity.
  - apply Nat.leb_gt in E.
    pose proof (assignEmbeddings_beyond embeddings [] (c :: chunks) E) as H.
    cbn [length app] in H. rewrite H. reflexivity.
Qed.

(** C7, as stated, fails: the client hands on a response with one vector for
    two texts, after which [generateEmbeddings] succeeds and leaves the
    second chunk without an embedding; and on a response with three vectors
    the assignment loop indexes past the end of the two chunks. *)
Lemma generateEmbeddings_counterexample :
  getEmbeddings oneVectorService (map Content twoChunks) = Ok [[1%float]] /\
  (exists c1 c2,
     generateEmbeddings oneVectorService twoChunks = Some (Ok [c1; c2]) /\
     Embedding c2 = []) /\
  generateEmbeddings threeVectorService twoChunks = None.
Proof.
  split; [reflexivity|]. split; [|reflexivity].
  eexists _, _. split; reflexivity.
Qed.

(** C7, amended.  [getEmbeddings] fails exactly on a transport error or an
    undecodable body, and otherwise returns the vectors of the response as
    they are, however many.  When the response holds exactly one vector per
    chunk, [generateEmbeddings] returns successfully, stays within the chunk
    list, and chunk [i] carries vector [i] and is otherwise unchanged. *)
Theorem generateEmbeddings_one_vector_per_chunk (service : EmbeddingService) :
  (forall texts embeddings,
     getEmbeddings service texts = Ok embeddings <-> service texts = Decoded embeddings) /\
  (forall chunks embeddings,
     service (map Content chunks) = Decoded embeddings ->
     length embeddings = length chunks ->
     exists chunks',
       generateEmbeddings service chunks = Some (Ok chunks') /\
       length chunks' = length chunks /\
       forall i c, chunks !! i = Some c ->
         exists e, embeddings !! i = Some e /\ chunks' !! i = Some (withEmbedding e c)).
Proof.
  split.
  - intros texts embeddings. unfold getEmbeddings.
    destruct (service texts); split; congruence.
  - intros chunks embeddings Hreply Hlen.
    destruct chunks as [|c0 chunks0] eqn:Echunks.
    { destruct embeddings; [|discriminate Hlen].
      exists []. split; [reflexivity|]. split; [reflexivity|]. intros i c H. discriminate H. }
    rewrite <- Echunks in *.
    rewrite (generateEmbeddings_decoded service chunks embeddings)
      by (congruence || assumption).
    rewrite Hlen, Nat.leb_refl, firstn_all, skipn_all, app_nil_r.
    eexists. split; [reflexivity|]. split.
    + rewrite length_zip_with. lia.
    + intros i c Hc. rewrite lookup_zip_with.
      destruct (embeddings !! i) as [e|] eqn:Ee.
      * exists e. split; [reflexivity|]. now rewrite Hc.
      * apply lookup_ge_None in Ee. apply lookup_lt_Some in Hc. lia.
Qed.

Lemma generateEmbeddings_one_vector_per_chunk_witness :
  exists chunks',
    generateEmbeddings unitService twoChunks = Some (Ok chunks') /\
    length chunks' = length twoChunks /\
    forall i c, twoChunks !! i = Some c ->
      exists e, [[1%float]; [1%float]] !! i = Some e /\
                chunks' !! i = Some (withEmbedding e c).
Proof.
  apply (proj2 (generateEmbeddings_one_vector_per_chunk unitService) twoChunks
           [[1%float]; [1%float]]); reflexivity.
Defined.

(** ** Paths *)

Lemma Split_snoc (p n : gostring) (sep : ascii) :
  ~ In sep n -> Split (p ++ sep :: n) sep = Split p sep ++ [n].
Proof.
  intros Hn. induction p as [|c p IH]; cbn [app Split].
  - rewrite Ascii.eqb_refl. now rewrite Split_no_sep.
  - destruct (Ascii.eqb c sep); rewrite IH; [reflexivity|].
    pose proof (Split_not_nil p sep). destruct (Split p sep); [congruence | reflexivity].
Qed.

Lemma entryName_not_special (e : gostring) :
  entryName e ->
  eqString e [] = false /\ eqString e (str ".") = false /\ isDotDot e = false.
Proof.
  intros (H1 & H2 & H3 & _). unfold isDotDot, eqString.
  rewrite !bool_decide_eq_false. auto.
Qed.

Lemma cleanStep_entry (rooted : bool) (kept : list gostring) (e : gostring) :
  entryName e -> cleanStep rooted kept e = kept ++ [e].
Proof.
  intros He. destruct (entryName_not_special e He) as (H1 & H2 & H3).
  unfold cleanStep. now rewrite H1, H2, H3.
Qed.

Lemma isDotDot_true (e : gostring) : isDotDot e = true <-> e = str "..".
Proof. apply eqString_true. Qed.

Lemma keptShape_weaken (rooted : bool) (kept : list gostring) :
  keptShape rooted false kept -> keptShape rooted true kept \/ exists rest, kept = str ".." :: rest.
Proof.
  destruct kept as [|e rest]; [now left|].
  intros [(-> & _)|[He Hrest]]; [right; eauto | left; right; auto].
Qed.

(** Cleaning the elements [Clean] kept keeps them all. *)
Lemma fold_cleanStep_kept (rooted : bool) (kept : list gostring) :
  forall seen acc,
  keptShape rooted seen kept ->
  (seen = false -> Forall (fun e => e = str "..") acc) ->
  fold_left (cleanStep rooted) kept acc = acc ++ kept.
Proof.
  induction kept as [|e rest IH]; intros seen acc Hshape Hacc; cbn [fold_left].
  - now rewrite app_nil_r.
  - destruct Hshape as [(-> & -> & -> & Hrest)|[He Hrest]].
    + assert (Hstep : cleanStep false acc (str "..") = acc ++ [str ".."]).
      { unfold cleanStep. change (eqString (str "..") []) with false.
        change (eqString (str "..") (str ".")) with false.
        change (isDotDot (str "..")) with true. cbv iota. cbn [orb].
        destruct (last acc) as [l|] eqn:El; [|reflexivity].
        assert (l = str "..") as ->.
        { specialize (Hacc eq_refl). apply last_Some in El as [acc' ->].
          apply Forall_app in Hacc as [_ Hacc]. now inversion Hacc. }
        reflexivity. }
      rewrite Hstep, (IH false); [now rewrite <- app_assoc | exact Hrest |].
      intros _. apply Forall_app. split; [now apply Hacc | now constructor].
    + rewrite cleanStep_entry by exact He.
      rewrite (IH true); [now rewrite <- app_assoc | exact Hrest | discriminate].
Qed.

Lemma keptShape_snoc_entry (rooted : bool) (kept : list gostring) (e : gostring) :
  forall seen, keptShape rooted seen kept -> entryName e ->
  keptShape rooted seen (kept ++ [e]).
Proof.
  induction kept as [|x rest IH]; intros seen Hshape He; cbn [app keptShape].
  - right. split; [exact He | exact I].
  - destruct Hshape as [(-> & -> & -> & Hrest)|[Hx Hrest]].
    + left. repeat split. now apply IH.
    + right. split; [exact Hx | now apply IH].
Qed.

Lemma keptShape_app_entries (rooted : bool) (names : list gostring) :
  forall kept seen, keptShape rooted seen kept -> Forall entryName names ->
  keptShape rooted seen (kept ++ names).
Proof.
  induction names as [|n names IH]; intros kept seen Hshape Hnames.
  - now rewrite app_nil_r.
  - inversion Hnames; subst.
    replace (kept ++ n :: names) with ((kept ++ [n]) ++ names) by now rewrite <- app_assoc.
    apply IH; [now apply keptShape_snoc_entry | assumption].
Qed.

Lemma keptShape_removelast (rooted : bool) (kept : list gostring) :
  forall seen, keptShape rooted seen kept -> keptShape rooted seen (removelast kept).
Proof.
  induction kept as [|x rest IH]; intros seen Hshape; [exact I|].
  destruct rest as [|y rest]; [exact I|].
  change (removelast (x :: y :: rest)) with (x :: removelast (y :: rest)).
  destruct Hshape as [(-> & -> & -> & Hrest)|[Hx Hrest]].
  - left. repeat split. now apply IH.
  - right. split; [exact Hx | now apply IH].
Qed.

(** Once an entry is met, the last element kept is an entry. *)
Lemma keptShape_last_entry (rooted : bool) (kept : list gostring) :
  forall z, keptShape rooted true kept -> last kept = Some z -> entryName z.
Proof.
  induction kept as [|a kept IH]; intros z Hshape Hz; [discriminate|].
  destruct Hshape as [(_ & Hf & _)|[Ha Hkept]]; [discriminate|].
  destruct kept as [|b kept]; [now inversion Hz; subst|].
  rewrite last_cons_cons in Hz. now apply IH.
Qed.

Lemma entryName_not_dotdot : ~ entryName (str "..").
Proof. intros (_ & _ & H & _). now apply H. Qed.

Lemma keptShape_snoc_dotdot (kept : list gostring) :
  forall seen, keptShape false seen kept ->
  seen = false ->
  last kept = Some (str "..") ->
  keptShape false seen (kept ++ [str ".."]).
Proof.
  induction kept as [|x rest IH]; intros seen Hshape Hseen Hlast; [discriminate|].
  cbn [app keptShape].
  destruct Hshape as [(-> & -> & _ & Hrest)|[Hx Hrest]].
  - left. repeat split. destruct rest as [|y rest].
    + left. repeat split.
    + apply IH; [exact Hrest | reflexivity |]. now rewrite last_cons_cons in Hlast.
  - exfalso. apply entryName_not_dotdot.
    apply (keptShape_last_entry false (x :: rest)); [|exact Hlast].
    right. split; assumption.
Qed.

(** What [Clean] keeps has the shape. *)
Lemma cleanStep_shape (rooted : bool) (kept : list gostring) (e : gostring) :
  ~ In SEP e -> keptShape rooted false kept -> keptShape rooted false (cleanStep rooted kept e).
Proof.
  intros Hsep Hshape. unfold cleanStep.
  destruct (eqString e []) eqn:E1; [exact Hshape|].
  destruct (eqString e (str ".")) eqn:E2; [exact Hshape|]. cbn [orb].
  destruct (isDotDot e) eqn:E3.
  - apply isDotDot_true in E3. subst e.
    destruct (last kept) as [l|] eqn:El.
    + destruct (isDotDot l) eqn:E4.
      * apply isDotDot_true in E4. subst l.
        assert (rooted = false) as ->.
        { destruct kept as [|x rest]; [discriminate El|].
          destruct Hshape as [(_ & _ & H & _)|[Hx Hrest]]; [exact H|].
          exfalso. apply entryName_not_dotdot.
          apply (keptShape_last_entry rooted (x :: rest)); [|exact El].
          right. split; assumption. }
        now apply keptShape_snoc_dotdot.
      * now apply keptShape_removelast.
    + apply last_None in El. subst kept. destruct rooted; [exact I|].
      left. repeat split.
  - apply keptShape_snoc_entry; [exact Hshape|].
    unfold eqString, isDotDot in *.
    apply bool_decide_eq_false in E1, E2, E3. repeat split; assumption.
Qed.

Lemma cleanElements_shape (path : gostring) :
  keptShape (isRooted path) false (cleanElements path).
Proof.
  unfold cleanElements.
  assert (H : forall es acc, Forall (fun e => ~ In SEP e) es ->
              keptShape (isRooted path) false acc ->
              keptShape (isRooted path) false (fold_left (cleanStep (isRooted path)) es acc)).
  { induction es as [|e es IH]; intros acc Hes Hacc; [exact Hacc|].
    inversion Hes; subst. cbn [fold_left]. apply IH; [assumption|].
    now apply cleanStep_shape. }
  apply H; [apply Split_lines_no_sep | exact I].
Qed.

Lemma keptShape_elements (rooted : bool) (kept : list gostring) :
  forall seen, keptShape rooted seen kept ->
  Forall (fun e => e <> [] /\ ~ In SEP e) kept.
Proof.
  induction kept as [|e rest IH]; intros seen Hshape; [constructor|].
  destruct Hshape as [(-> & _ & _ & Hrest)|[(H1 & _ & _ & H4) Hrest]].
  - constructor; [|eapply IH; eassumption]. split; [discriminate|].
    intros [H|[H|[]]]; discriminate H.
  - constructor; [auto | eapply IH; eassumption].
Qed.

Lemma Split_Join_kept (rooted seen : bool) (kept : list gostring) :
  keptShape rooted seen kept -> kept <> [] -> Split (Join kept [SEP]) SEP = kept.
Proof.
  intros Hshape Hne. apply Split_Join; [exact Hne|].
  eapply List.Forall_impl; [|exact (keptShape_elements _ _ _ Hshape)].
  now intros e [_ H].
Qed.

Lemma isRooted_Join_kept (rooted seen : bool) (kept : list gostring) :
  keptShape rooted seen kept -> isRooted (Join kept [SEP]) = false.
Proof.
  intros Hshape. apply keptShape_elements in Hshape.
  destruct kept as [|e rest]; [reflexivity|].
  inversion Hshape as [|? ? [Hne Hsep] _]; subst.
  destruct e as [|c e]; [congruence|].
  assert (Hc : Ascii.eqb c SEP = false).
  { apply Ascii.eqb_neq. intros ->. apply Hsep. now left. }
  destruct rest; simpl; exact Hc.
Qed.

(** A cleaned path reads back as what was kept. *)
Lemma render_clean (rooted : bool) (kept : list gostring) :
  keptShape rooted false kept ->
  isRooted (render rooted kept) = rooted /\ cleanElements (render rooted kept) = kept.
Proof.
  intros Hshape. destruct rooted.
  - split; [reflexivity|]. unfold cleanElements, render.
    change (isRooted (SEP :: Join kept [SEP])) with true.
    change (Split (SEP :: Join kept [SEP]) SEP) with ([] :: Split (Join kept [SEP]) SEP).
    cbn [fold_left]. change (cleanStep true [] []) with (@nil gostring).
    destruct kept as [|e rest] eqn:Ek; [reflexivity|]. rewrite <- Ek in *.
    rewrite (Split_Join_kept true false) by (assumption || congruence).
    now rewrite (fold_cleanStep_kept true kept false []).
  - destruct kept as [|e rest] eqn:Ek; [split; reflexivity|]. rewrite <- Ek in *.
    assert (Hne : kept <> []) by congruence.
    assert (Hr : render false kept = Join kept [SEP]) by (rewrite Ek; reflexivity).
    rewrite Hr. pose proof (isRooted_Join_kept false false kept Hshape) as Hroot.
    split; [exact Hroot|]. unfold cleanElements. rewrite Hroot.
    rewrite (Split_Join_kept false false) by assumption.
    now rewrite (fold_cleanStep_kept false kept false []).
Qed.

Lemma render_not_nil (rooted : bool) (kept : list gostring) :
  keptShape rooted false kept -> render rooted kept <> [].
Proof.
  intros Hshape. destruct rooted; [discriminate|].
  destruct kept as [|e rest]; [discriminate|].
  apply keptShape_elements in Hshape. inversion Hshape as [|? ? [Hne _] _]; subst.
  destruct e; [congruence|]. destruct rest; discriminate.
Qed.

Lemma Clean_root (path : gostring) :
  path <> [] -> Clean path = render (isRooted path) (cleanElements path).
Proof. destruct path; [congruence | reflexivity]. Qed.

Lemma Clean_render (rooted : bool) (kept : list gostring) :
  keptShape rooted false kept -> Clean (render rooted kept) = render rooted kept.
Proof.
  intros Hshape. destruct (render_clean rooted kept Hshape) as [Hr Hk].
  pose proof (render_not_nil rooted kept Hshape) as Hne.
  rewrite Clean_root by exact Hne. now rewrite Hr, Hk.
Qed.

(** Joining a directory entry to a path adds it to what is kept. *)
Lemma filepathJoin_entry (p n : gostring) :
  p <> [] -> entryName n ->
  filepathJoin p n = render (isRooted p) (cleanElements p ++ [n]).
Proof.
  intros Hp Hn. destruct p as [|c p]; [congruence|].
  assert (Hj : filepathJoin (c :: p) n = Clean ((c :: p) ++ SEP :: n)).
  { destruct n; [now destruct Hn | reflexivity]. }
  rewrite Hj. cbn [app Clean]. change (c :: p ++ SEP :: n) with ((c :: p) ++ SEP :: n).
  assert (Hroot : isRooted ((c :: p) ++ SEP :: n) = isRooted (c :: p)) by reflexivity.
  rewrite Hroot. f_equal. unfold cleanElements. rewrite Hroot.
  rewrite Split_snoc by apply Hn. rewrite fold_left_app. cbn [fold_left].
  now apply cleanStep_entry.
Qed.

Lemma walk_from_render (names : list gostring) :
  forall rooted kept,
  keptShape rooted false kept -> Forall entryName names ->
  fold_left filepathJoin names (render rooted kept) = render rooted (kept ++ names).
Proof.
  induction names as [|n names IH]; intros rooted kept Hshape Hnames.
  - now rewrite app_nil_r.
  - inversion Hnames as [|? ? Hn Hnames']; subst. cbn [fold_left].
    rewrite filepathJoin_entry; [|now apply render_not_nil | exact Hn].
    destruct (render_clean rooted kept Hshape) as [-> ->].
    rewrite IH; [now rewrite <- app_assoc | now apply keptShape_snoc_entry | exact Hnames'].
Qed.

(** The paths of a walk: what [Clean] keeps of the root, then the entries. *)
Lemma walkPath_render (rootDir : gostring) (names : list gostring) :
  rootDir <> [] -> names <> [] -> Forall entryName names ->
  walkPath rootDir names = render (isRooted rootDir) (cleanElements rootDir ++ names).
Proof.
  intros Hroot Hne Hnames. destruct names as [|n names]; [congruence|].
  inversion Hnames as [|? ? Hn Hnames']; subst.
  unfold walkPath. cbn [fold_left]. rewrite filepathJoin_entry by assumption.
  rewrite walk_from_render; [now rewrite <- app_assoc | | exact Hnames'].
  apply keptShape_snoc_entry; [apply cleanElements_shape | exact Hn].
Qed.

Lemma afterCommon_prefix (common rest : list gostring) :
  afterCommon common (common ++ rest) = ([], rest).
Proof.
  induction common as [|e common IH]; [now destruct rest|].
  cbn [app afterCommon]. now rewrite eqString_refl.
Qed.

Lemma last_kept_not_nil (rooted seen : bool) (kept : list gostring) (l : gostring) :
  keptShape rooted seen kept -> last kept = Some l -> l <> [].
Proof.
  intros Hshape Hl. apply keptShape_elements in Hshape.
  apply last_Some in Hl as [kept' ->]. apply Forall_app in Hshape as [_ H].
  inversion H as [|? ? [Hne _] _]; subst. exact Hne.
Qed.

Lemma relElements_rooted (kept : list gostring) :
  keptShape true false kept -> relElements (render true kept) = [] :: kept.
Proof.
  intros Hshape. unfold relElements, render.
  change (Split (SEP :: Join kept [SEP]) SEP) with ([] :: Split (Join kept [SEP]) SEP).
  destruct kept as [|e rest] eqn:Ek; [reflexivity|]. rewrite <- Ek in *.
  rewrite (Split_Join_kept true false) by (assumption || congruence).
  assert (Hlast : exists l, last ([] :: kept) = Some l /\ l <> []).
  { rewrite Ek, last_cons_cons, <- Ek. destruct (last kept) as [l|] eqn:El.
    - exists l. split; [reflexivity|]. eapply last_kept_not_nil; eassumption.
    - apply last_None in El. congruence. }
  destruct Hlast as (l & -> & Hl). destruct l; [congruence | reflexivity].
Qed.

Lemma relElements_relative (kept : list gostring) :
  keptShape false false kept -> kept <> [] ->
  relElements (render false kept) = kept.
Proof.
  intros Hshape Hne. pose proof (render_not_nil false kept Hshape) as Hr.
  assert (Hj : render false kept = Join kept [SEP]) by (destruct kept; [congruence | reflexivity]).
  assert (Hrel : forall s, s <> [] ->
            relElements s = match last (Split s SEP) with
                            | Some [] => removelast (Split s SEP)
                            | _ => Split s SEP
                            end)
    by (intros s Hs; destruct s; [congruence | reflexivity]).
  rewrite Hrel by exact Hr. rewrite Hj.
  rewrite (Split_Join_kept false false) by assumption.
  destruct (last kept) as [l|] eqn:El.
  - pose proof (last_kept_not_nil _ _ _ _ Hshape El). destruct l; [congruence | reflexivity].
  - reflexivity.
Qed.

Lemma render_injective (rooted : bool) (kept kept' : list gostring) :
  keptShape rooted false kept -> keptShape rooted false kept' ->
  render rooted kept = render rooted kept' -> kept = kept'.
Proof.
  intros H H' Heq.
  rewrite <- (proj2 (render_clean rooted kept H)), <- (proj2 (render_clean rooted kept' H')).
  now rewrite Heq.
Qed.

(** The path of a walk, relative to the root: the entries. *)
Lemma Rel_walkPath (rootDir : gostring) (names : list gostring) :
  rootDir <> [] -> names <> [] -> Forall entryName names ->
  Rel rootDir (walkPath rootDir names) = Ok (Join names [SEP]).
Proof.
  intros Hroot Hne Hnames.
  rewrite walkPath_render by assumption.
  set (rooted := isRooted rootDir). set (kept := cleanElements rootDir).
  assert (Hshape : keptShape rooted false kept) by apply cleanElements_shape.
  assert (Hshape' : keptShape rooted false (kept ++ names))
    by now apply keptShape_app_entries.
  unfold Rel. rewrite (Clean_root rootDir Hroot), (Clean_render _ _ Hshape').
  fold rooted. fold kept. cbv zeta.
  assert (Hdiff : eqString (render rooted (kept ++ names)) (render rooted kept) = false).
  { apply bool_decide_eq_false. intros Heq.
    apply render_injective in Heq; [|assumption..].
    apply (f_equal (@length _)) in Heq. rewrite length_app in Heq.
    destruct names; [congruence | simpl in Heq; lia]. }
  rewrite Hdiff.
  destruct (render_clean rooted (kept ++ names) Hshape') as [Htarg _].
  destruct rooted.
  - (* a rooted path *)
    change (eqString (render true kept) (str ".")) with false. cbv iota.
    rewrite Htarg. change (isRooted (render true kept)) with true. cbn [Bool.eqb negb].
    rewrite !relElements_rooted by assumption.
    change ([] :: kept ++ names) with (([] :: kept) ++ names).
    now rewrite afterCommon_prefix.
  - destruct kept as [|e rest] eqn:Ek.
    + (* the root cleans to [.] *)
      change (eqString (render false []) (str ".")) with true. cbv iota.
      rewrite Htarg. cbn [isRooted Bool.eqb negb relElements app].
      rewrite relElements_relative by assumption. reflexivity.
    + rewrite <- Ek in *. assert (Hk : kept <> []) by congruence.
      assert (Hdot : eqString (render false kept) (str ".") = false).
      { apply bool_decide_eq_false. intros Heq.
        change (str ".") with (render false []) in Heq.
        apply render_injective in Heq; [congruence | assumption | exact I]. }
      rewrite Hdot, Htarg, (proj1 (render_clean false kept Hshape)). cbn [Bool.eqb negb].
      rewrite !relElements_relative; try assumption.
      * now rewrite afterCommon_prefix.
      * destruct kept; [congruence | discriminate].
Qed.

(** The project path of a file the walk reaches through the entries
    [names]. *)
Lemma projectPathOf_walkPath (rootDir : gostring) (names : list gostring) :
  rootDir <> [] -> names <> [] -> Forall entryName names ->
  projectPathOf rootDir (walkPath rootDir names) =
  match names with
  | first :: _ :: _ => filepathJoin rootDir first
  | _ => rootDir
  end.
Proof.
  intros Hroot Hne Hnames. unfold projectPathOf.
  rewrite Rel_walkPath by assumption. cbv zeta.
  rewrite Split_Join; [|exact Hne|].
  - destruct names as [|first [|second others]]; [congruence | reflexivity |].
    pose proof (len_nonneg others).
    destruct (1 <? len (first :: second :: others)) eqn:E; [reflexivity|].
    apply Z.ltb_ge in E. rewrite !len_cons in E. lia.
  - eapply List.Forall_impl; [|exact Hnames]. now intros n (_ & _ & _ & H).
Qed.

(** Every chunk carries the file path and the project path it was made
    with. *)
Lemma chunkBySize_loop_paths (cfg : Config) (filePath projectPath language : gostring)
    (lines : list gostring) :
  forall currentChunk currentSize startLine chunks result,
  Forall (fun c => FilePath c = filePath /\ ProjectPath c = projectPath) chunks ->
  chunkBySize_loop cfg filePath projectPath language lines currentChunk currentSize
    startLine chunks = Some result ->
  Forall (fun c => FilePath c = filePath /\ ProjectPath c = projectPath) result.
Proof.
  induction lines as [|line rest IH]; intros cur size start chunks result Hchunks;
    cbn [chunkBySize_loop]; cbv zeta.
  - now intros [= <-].
  - destruct (_ || _).
    + destruct (slice_from _ _); [|discriminate]. apply IH.
      apply Forall_app. split; [exact Hchunks|]. constructor; [now split | constructor].
    + now apply IH.
Qed.

Lemma goChunks_paths (content filePath projectPath : gostring) (linePositions : list Z)
    (allMatches : list goMatch) :
  Forall (fun c => FilePath c = filePath /\ ProjectPath c = projectPath)
    (goChunks content filePath projectPath linePositions allMatches).
Proof.
  induction allMatches as [|m rest IH]; [constructor|].
  cbn [goChunks]. constructor; [now split | exact IH].
Qed.

Lemma chunkFile_paths (cfg : Config) (content filePath projectPath language : gostring)
    (chunks : list CodeChunk) :
  chunkFile cfg content filePath projectPath language = Some chunks ->
  Forall (fun c => FilePath c = filePath /\ ProjectPath c = projectPath) chunks.
Proof.
  unfold chunkFile.
  destruct (chunkFile_split cfg content filePath projectPath language) as [cs|] eqn:E;
    [|discriminate].
  intros [= <-]. apply Forall_map.
  assert (H : Forall (fun c => FilePath c = filePath /\ ProjectPath c = projectPath) cs).
  { unfold chunkFile_split in E. destruct (len _ <? 2).
    - unfold chunkBySize in E. destruct (len content <=? MaxChunkSize cfg).
      + injection E as <-. constructor; [now split | constructor].
      + eapply chunkBySize_loop_paths; [|exact E]. constructor.
    - injection E as <-. destruct (eqString language _); [|constructor].
      apply goChunks_paths. }
  eapply Forall_impl; [exact H|]. intros c Hc. exact Hc.
Qed.

Lemma storeEach_projects (now : gostring) (chunks : list CodeChunk) :
  forall db, projects (fst (storeEach now chunks db)) = projects db.
Proof.
  induction chunks as [|c rest IH]; intros db; [reflexivity|].
  cbn [storeEach]. destruct (unchanged c db); [apply IH|].
  destruct (storeEach now rest (mergeChunk now c db)) as [db' written] eqn:E.
  cbn [fst]. change db' with (fst (db', written)). rewrite <- E. now rewrite IH.
Qed.

(** [storeChunks] leaves a [Project] node at the project path. *)
Lemma storeChunks_project {tables : UnicodeTables} (now : gostring) (chunks : list CodeChunk)
    (filePath projectPath : gostring) (db : Store) :
  is_Some (projects (fst (storeChunks now chunks filePath projectPath db)) !! projectPath).
Proof.
  unfold storeChunks. rewrite storeEach_projects.
  cbn [mergeFile mergeProject projects]. rewrite lookup_insert_eq. eauto.
Qed.

(** C10 (the project of a file).  For every root directory and every file
    the walk reaches from it through the directory entries [names], the
    project path [processFile] works with is the root joined with the first
    entry when the file lies in a subdirectory (two entries or more) and
    the root itself when the file sits directly in the root (one entry);
    every chunk of the file carries that project path, and when the file is
    stored the store holds a [Project] node of that path. *)
Theorem processFile_project_path {tables : UnicodeTables}
    (cfg : Config) (content rootDir : gostring)
    (names : list gostring) :
  rootDir <> [] -> names <> [] -> Forall entryName names ->
  let filePath := walkPath rootDir names in
  let projectPath :=
    match names with
    | first :: _ :: _ => filepathJoin rootDir first
    | _ => rootDir
    end in
  projectPathOf rootDir filePath = projectPath /\
  (forall chunks,
     processFile_chunks cfg content filePath rootDir = Some chunks ->
     forall c, In c chunks -> ProjectPath c = projectPath) /\
  (forall service now db chunks db',
     processFile_chunks cfg content filePath rootDir = Some chunks -> chunks <> [] ->
     len content <= 1024 * 1024 ->
     processFile cfg service now content filePath rootDir db = Some (Ok db') ->
     is_Some (projects db' !! projectPath)).
Proof.
  intros Hroot Hne Hnames filePath projectPath.
  assert (Hpath : projectPathOf rootDir filePath = projectPath)
    by now apply projectPathOf_walkPath.
  split; [exact Hpath|]. split.
  - intros chunks Hchunks c Hin. unfold processFile_chunks in Hchunks. cbv zeta in Hchunks.
    apply chunkFile_paths in Hchunks. rewrite Hpath in Hchunks.
    exact (proj2 (proj1 (List.Forall_forall _ _) Hchunks c Hin)).
  - intros service now db chunks db' Hchunks Hsome Hsize. unfold processFile.
    destruct (1024 * 1024 <? len content) eqn:E; [apply Z.ltb_lt in E; lia|].
    rewrite Hchunks. destruct chunks as [|c0 chunks0]; [congruence|].
    destruct (generateEmbeddings service (c0 :: chunks0)) as [[embedded|e]|];
      [|discriminate..].
    intros [= <-]. rewrite Hpath. apply storeChunks_project.
Qed.

Lemma sample_entries : Forall entryName nestedFile /\ Forall entryName topFile.
Proof.
  split; repeat constructor; try discriminate;
    intros H; vm_compute in H; decompose [or] H; discriminate || contradiction.
Qed.

Lemma processFile_project_path_witness :
  projectPathOf sampleRoot (walkPath sampleRoot nestedFile) = str "/src/proj" /\
  projectPathOf sampleRoot (walkPath sampleRoot topFile) = str "/src".
Proof.
  split.
  - refine (proj1 (processFile_project_path (tables := plainTables)
      defaultConfig [] sampleRoot nestedFile
                     _ _ (proj1 sample_entries))); discriminate.
  - refine (proj1 (processFile_project_path (tables := plainTables)
      defaultConfig [] sampleRoot topFile
                     _ _ (proj2 sample_entries))); discriminate.
Defined.

(** ** The backtracking matcher is sound *)

Lemma groupsWithin_widen (lo hi lo' hi' : Z) (groups : captures) :
  lo' <= lo -> hi <= hi' -> groupsWithin lo hi groups -> groupsWithin lo' hi' groups.
Proof.
  intros Hlo Hhi H. eapply List.Forall_impl; [|exact H]. cbv beta. intros g Hg. lia.
Qed.

Lemma rrepeat_sound {R : Type} (greedy : bool) (p : ascii -> bool)
    (k : gostring -> Z -> option R) (s : gostring) :
  forall pos x,
  rrepeat greedy p s pos k = Some x ->
  exists w s', s = w ++ s' /\ Forall (fun c => p c = true) w /\
               k s' (pos + len w) = Some x.
Proof.
  induction s as [|c s IH]; intros pos x; cbn [rrepeat].
  - intros H. exists [], []. rewrite len_nil, Z.add_0_r. repeat split; [constructor | exact H].
  - assert (Hstop : k (c :: s) pos = Some x ->
                    exists w s', c :: s = w ++ s' /\ Forall (fun c => p c = true) w /\
                                 k s' (pos + len w) = Some x).
    { intros H. exists [], (c :: s). rewrite len_nil, Z.add_0_r.
      repeat split; [constructor | exact H]. }
    assert (Hgo : rrepeat greedy p s (pos + 1) k = Some x ->
                  p c = true ->
                  exists w s', c :: s = w ++ s' /\ Forall (fun c => p c = true) w /\
                               k s' (pos + len w) = Some x).
    { intros H Hc. apply IH in H as (w & s' & -> & Hw & Hk).
      exists (c :: w), s'. rewrite len_cons. repeat split.
      - now constructor.
      - now replace (pos + (1 + len w)) with (pos + 1 + len w) by lia. }
    destruct (p c) eqn:Ec; [|exact Hstop].
    destruct greedy.
    + destruct (rrepeat true p s (pos + 1) k) eqn:E.
      * intros [= <-]. now apply Hgo.
      * exact Hstop.
    + destruct (k (c :: s) pos) eqn:E.
      * intros [= <-]. now apply Hstop.
      * intros H. now apply Hgo.
Qed.

(** A match consumes a string of the pattern's language, hands the rest to
    its continuation, and adds the captures of its groups, which lie within
    the text it consumed. *)
Lemma rmatch_sound {R : Type} (r : regex) :
  forall (k : gostring -> Z -> captures -> option R) s pos caps x,
  rmatch r s pos caps k = Some x ->
  exists w s' new,
    s = w ++ s' /\ lang r w /\
    k s' (pos + len w) (new ++ caps) = Some x /\
    groupsWithin pos (pos + len w) new /\
    (forall i, In i (captured r) -> exists ab, In (i, ab) new).
Proof.
  induction r as [c|p|r1 IH1 r2 IH2|greedy p|r IH|i r IH]; intros k s pos caps x;
    cbn [rmatch lang captured].
  - destruct s as [|c' s]; [discriminate|].
    destruct (Ascii.eqb c' c) eqn:E; [|discriminate]. apply Ascii.eqb_eq in E. subst c'.
    intros H. exists [c], s, []. change (len [c]) with 1.
    repeat split; [exact H | constructor | intros ? []].
  - destruct s as [|c' s]; [discriminate|].
    destruct (p c') eqn:E; [|discriminate].
    intros H. exists [c'], s, []. change (len [c']) with 1.
    repeat split; [eauto | exact H | constructor | intros ? []].
  - intros H. apply IH1 in H as (w1 & s1 & new1 & -> & Hw1 & H & Hg1 & Hc1).
    apply IH2 in H as (w2 & s2 & new2 & -> & Hw2 & H & Hg2 & Hc2).
    exists (w1 ++ w2), s2, (new2 ++ new1). rewrite len_app.
    pose proof (len_nonneg w1). pose proof (len_nonneg w2).
    split; [now rewrite app_assoc|]. split; [eauto|].
    split; [now rewrite <- app_assoc, Z.add_assoc|]. split.
    + apply Forall_app. split; eapply groupsWithin_widen; try eassumption; lia.
    + intros j Hj. apply in_app_or in Hj as [Hj|Hj].
      * destruct (Hc1 j Hj) as [ab Hab]. exists ab. apply in_or_app. now right.
      * destruct (Hc2 j Hj) as [ab Hab]. exists ab. apply in_or_app. now left.
  - intros H. apply rrepeat_sound in H as (w & s' & -> & Hw & H).
    exists w, s', []. repeat split; [exact Hw | exact H | constructor | intros ? []].
  - destruct (rmatch r s pos caps k) eqn:E.
    + intros [= <-]. apply IH in E as (w & s' & new & -> & Hw & H & Hg & _).
      exists w, s', new. repeat split; [now right | exact H | exact Hg | intros ? []].
    + intros H. exists [], s, []. rewrite len_nil, Z.add_0_r.
      repeat split; [now left | exact H | constructor | intros ? []].
  - intros H. apply IH in H as (w & s' & new & -> & Hw & H & Hg & Hc).
    exists w, s', ((i, (pos, pos + len w)) :: new). pose proof (len_nonneg w).
    repeat split; [exact Hw | exact H | | ].
    + constructor; [cbn; lia | exact Hg].
    + intros j [<-|Hj]; [eexists; now left|].
      destruct (Hc j Hj) as [ab Hab]. exists ab. now right.
Qed.

Lemma matchAt_sound (r : regex) (s : gostring) (pos : Z) (m : submatch) :
  matchAt r s pos = Some m ->
  exists w s',
    s = w ++ s' /\ lang r w /\
    sm_start m = pos /\ sm_end m = pos + len w /\
    groupsWithin pos (pos + len w) (sm_groups m) /\
    (forall i, In i (captured r) -> exists ab, In (i, ab) (sm_groups m)).
Proof.
  unfold matchAt. intros H.
  apply rmatch_sound in H as (w & s' & new & -> & Hw & H & Hg & Hc).
  injection H as <-. rewrite app_nil_r. exists w, s'. cbn. repeat split; assumption.
Qed.

(** Every match [findAll] reports is a match at its offset. *)
Lemma findAll_matchAt (r : regex) (s : gostring) :
  forall pos skip m,
  In m (findAll r s pos skip) ->
  exists before after,
    s = before ++ after /\ sm_start m = pos + len before /\
    matchAt r after (sm_start m) = Some m.
Proof.
  induction s as [|c s IH]; intros pos skip m; cbn [findAll].
  - destruct skip; [|intros []].
    destruct (matchAt r [] pos) eqn:E; [|intros []].
    intros [<-|[]]. pose proof (matchAt_start _ _ _ _ E) as Hs.
    exists [], []. rewrite len_nil, Z.add_0_r, Hs. repeat split. exact E.
  - assert (Hrest : forall skip', In m (findAll r s (pos + 1) skip') ->
              exists before after,
                c :: s = before ++ after /\ sm_start m = pos + len before /\
                matchAt r after (sm_start m) = Some m).
    { intros skip' Hin. apply IH in Hin as (before & after & -> & Hs & Hm).
      exists (c :: before), after. rewrite len_cons. repeat split; [lia | exact Hm]. }
    destruct skip; [|apply Hrest].
    destruct (matchAt r (c :: s) pos) eqn:E; [|apply Hrest].
    intros [<-|Hin]; [|eapply Hrest; exact Hin].
    pose proof (matchAt_start _ _ _ _ E) as Hs.
    exists [], (c :: s). rewrite len_nil, Z.add_0_r, Hs. repeat split. exact E.
Qed.

(** ** The size-based chunker, chunk by chunk *)

Lemma linesSize_from (lines : list gostring) :
  forall size, fold_left (fun size line => size + (len line + 1)) lines size
               = size + linesSize lines.
Proof.
  unfold linesSize. induction lines as [|l lines IH]; intros size; cbn [fold_left]; [lia|].
  rewrite IH, (IH (0 + (len l + 1))). lia.
Qed.

Lemma linesSize_cons (line : gostring) (lines : list gostring) :
  linesSize (line :: lines) = len line + 1 + linesSize lines.
Proof. unfold linesSize at 1. cbn [fold_left]. rewrite linesSize_from. lia. Qed.

Lemma linesSize_snoc (lines : list gostring) (line : gostring) :
  linesSize (lines ++ [line]) = linesSize lines + (len line + 1).
Proof. unfold linesSize. rewrite fold_left_app. reflexivity. Qed.

(** The accumulated size of a chunk is one more than the length of its
    text. *)
Lemma linesSize_Join (lines : list gostring) :
  lines <> [] -> linesSize lines = len (Join lines [LF]) + 1.
Proof.
  induction lines as [|l lines IH]; intros Hne; [congruence|].
  rewrite linesSize_cons.
  destruct lines as [|l' lines].
  - cbn. lia.
  - rewrite IH by discriminate. rewrite (Join_cons l (l' :: lines)) by discriminate.
    rewrite !len_app. change (len [LF]) with 1. lia.
Qed.

Lemma linesSize_take_mono (lines : list gostring) :
  forall n m, (n <= m)%nat -> linesSize (take n lines) <= linesSize (take m lines).
Proof.
  induction lines as [|l lines IH]; intros n m Hnm.
  - now rewrite !take_nil.
  - destruct n as [|n]; destruct m as [|m]; try lia.
    + cbn [take]. rewrite linesSize_cons. change (linesSize []) with 0.
      pose proof (len_nonneg l). pose proof (IH 0%nat m ltac:(lia)) as H0.
      rewrite take_0 in H0. change (linesSize []) with 0 in H0. lia.
    + cbn [take]. rewrite !linesSize_cons. pose proof (IH n m ltac:(lia)). lia.
Qed.

Lemma linesBetween_mono (lines : list gostring) (first e e' : Z) :
  e <= e' ->
  linesSize (linesBetween lines first e) <= linesSize (linesBetween lines first e').
Proof. intros H. unfold linesBetween. apply linesSize_take_mono. lia. Qed.

Lemma linesBetween_middle (pre cur rest : list gostring) :
  linesBetween (pre ++ cur ++ rest) (len pre + 1) (len pre + 1 + len cur - 1) = cur.
Proof.
  unfold linesBetween.
  replace (Z.to_nat (len pre + 1 - 1)) with (length pre) by (unfold len; lia).
  replace (Z.to_nat (len pre + 1 + len cur - 1 - (len pre + 1) + 1)) with (length cur)
    by (unfold len; lia).
  now rewrite drop_length_app, take_length_app.
Qed.

Lemma linesBetween_not_nil (lines : list gostring) (first last : Z) :
  1 <= first <= last -> last <= len lines -> linesBetween lines first last <> [].
Proof.
  intros H1 H2 Hnil. apply (f_equal (@length gostring)) in Hnil.
  unfold linesBetween in Hnil. rewrite length_take, length_drop in Hnil.
  unfold len in H2. simpl in Hnil. lia.
Qed.

Section SizeChunkerShape.

Variable cfg : Config.
Variables filePath projectPath language : gostring.
Variable all : list gostring.
Hypothesis overlap_nonneg : 0 <= ChunkOverlap cfg.

(** [pre] are the lines before the chunk in progress, [currentChunk] its
    lines so far, of which none from [minEnd] on has reached the
    threshold. *)
Lemma chunkBySize_loop_shape (lines : list gostring) :
  forall pre currentChunk minEnd chunks,
  all = pre ++ currentChunk ++ lines ->
  minEnd <= len pre + len currentChunk + 1 ->
  (forall e, minEnd <= e <= len pre + len currentChunk ->
             linesSize (linesBetween all (len pre + 1) e) < MaxChunkSize cfg) ->
  exists new,
    chunkBySize_loop cfg filePath projectPath language lines currentChunk
      (linesSize currentChunk) (len pre + 1) chunks = Some (chunks ++ new) /\
    sizeChunksFrom cfg all language (len pre + 1) minEnd new.
Proof.
  induction lines as [|line rest IH]; intros pre cur minEnd chunks Hall Hmin Hinv.
  - exists []. split; [now rewrite app_nil_r | exact I].
  - cbn [chunkBySize_loop]. cbv zeta.
    set (cur1 := cur ++ [line]).
    assert (Hlen1 : len cur1 = len cur + 1)
      by (unfold cur1; rewrite len_app, len_cons, len_nil; lia).
    assert (Hall1 : all = pre ++ cur1 ++ rest)
      by (unfold cur1; now rewrite <- (app_assoc cur [line] rest)).
    assert (Hlenall : len all = len pre + len cur1 + len rest)
      by (rewrite Hall1, !len_app; lia).
    assert (Hmid : linesBetween all (len pre + 1) (len pre + 1 + len cur1 - 1) = cur1)
      by (rewrite Hall1; apply linesBetween_middle).
    rewrite <- linesSize_snoc. fold cur1.
    pose proof (len_nonneg cur) as Hcur. pose proof (len_nonneg pre) as Hpre.
    pose proof (len_nonneg rest) as Hrest.
    destruct ((MaxChunkSize cfg <=? linesSize cur1)
              || match rest with [] => true | _ => false end) eqn:Emit.
    + set (o := if len cur1 <? ChunkOverlap cfg then len cur1 else ChunkOverlap cfg).
      assert (Ho : o = Z.min (ChunkOverlap cfg) (len cur1)).
      { unfold o. destruct (len cur1 <? ChunkOverlap cfg) eqn:E;
          [apply Z.ltb_lt in E | apply Z.ltb_ge in E]; lia. }
      assert (Hos : 0 <= o <= len cur1) by lia.
      rewrite slice_from_Some by lia.
      set (n := Z.to_nat (len cur1 - o)).
      set (c := sizeChunk filePath projectPath language (Join cur1 [LF]) (len pre + 1)
                  (len pre + 1 + len cur1 - 1)).
      assert (Hpre' : len (pre ++ take n cur1) = len pre + len cur1 - o).
      { rewrite len_app. unfold len at 2. rewrite length_take. unfold n, len in *. lia. }
      assert (Hcur' : len (drop n cur1) = o).
      { unfold len at 1. rewrite length_drop. unfold n, len in *. lia. }
      replace (len pre + 1 + len cur1 - 1 - o + 1) with (len (pre ++ take n cur1) + 1) by lia.
      destruct (IH (pre ++ take n cur1) (drop n cur1) (len pre + 1 + len cur1 - 1 + 1)
                  (chunks ++ [c])) as (new & Hrun & Hshape).
      { now rewrite Hall1, <- app_assoc, (app_assoc (take n cur1)), take_drop. }
      { lia. }
      { intros e He. lia. }
      exists (c :: new). split; [now rewrite Hrun, <- app_assoc|].
      cbn [sizeChunksFrom]. change (StartLine c) with (len pre + 1).
      change (EndLine c) with (len pre + 1 + len cur1 - 1).
      change (Content c) with (Join cur1 [LF]).
      split; [reflexivity|]. split; [lia|]. split; [lia|].
      split; [now rewrite Hmid|].
      split; [reflexivity|]. split; [reflexivity|]. split; [reflexivity|]. split.
      { intros e He. apply Hinv. lia. }
      split.
      { intros Hend. rewrite Hmid. destruct rest as [|line' rest'].
        - rewrite len_nil in Hlenall. lia.
        - rewrite orb_false_r in Emit. now apply Z.leb_le in Emit. }
      split.
      { intros Hnew. destruct rest as [|line' rest'].
        - cbn [chunkBySize_loop] in Hrun. injection Hrun as Hrun.
          rewrite <- (app_nil_r (chunks ++ [c])) in Hrun at 1.
          apply app_inv_head in Hrun. congruence.
        - rewrite len_cons in Hlenall. pose proof (len_nonneg rest'). lia. }
      replace (len pre + 1 + len cur1 - 1 - Z.min (ChunkOverlap cfg)
                 (len pre + 1 + len cur1 - 1 - (len pre + 1) + 1) + 1)
        with (len (pre ++ take n cur1) + 1) by lia.
      exact Hshape.
    + apply orb_false_iff in Emit. destruct Emit as [Hsize _]. apply Z.leb_gt in Hsize.
      destruct (IH pre cur1 minEnd chunks) as (new & Hrun & Hshape).
      { exact Hall1. }
      { lia. }
      { intros e He. destruct (Z.eq_dec e (len pre + len cur1)) as [->|Hne].
        - replace (len pre + len cur1) with (len pre + 1 + len cur1 - 1) by lia.
          now rewrite Hmid.
        - apply Hinv. lia. }
      exists new. split; [exact Hrun | exact Hshape].
Qed.

End SizeChunkerShape.

(** The whole of what [chunkBySize] returns of a text over the threshold. *)
Lemma chunkBySize_shape (cfg : Config) (content filePath projectPath language : gostring)
    (chunks : list CodeChunk) :
  MaxChunkSize cfg < len content ->
  chunkBySize cfg content filePath projectPath language = Some chunks ->
  sizeChunksFrom cfg (Split content LF) language 1 1 chunks.
Proof.
  unfold chunkBySize. cbv zeta. intros Hbig.
  pose proof (Split_not_nil content LF) as Hne.
  destruct (len content <=? MaxChunkSize cfg) eqn:E; [apply Z.leb_le in E; lia|].
  destruct (Z_le_gt_dec 0 (ChunkOverlap cfg)) as [Hov|Hov].
  - destruct (chunkBySize_loop_shape cfg filePath projectPath language (Split content LF)
                Hov (Split content LF) [] [] 1 []) as (new & Hrun & Hshape).
    { reflexivity. }
    { unfold len. simpl. lia. }
    { intros e He. unfold len in He. simpl in He. lia. }
    change (linesSize []) with 0 in Hrun. change (len [] + 1) with 1 in Hrun, Hshape.
    rewrite Hrun. intros [= <-]. exact Hshape.
  - rewrite chunkBySize_loop_negative_overlap; [discriminate | lia | exact Hne].
Qed.

(** What the shape says of each chunk. *)
Lemma sizeChunksFrom_each (cfg : Config) (lines : list gostring) (language : gostring)
    (chunks : list CodeChunk) :
  forall start minEnd, 1 <= start ->
  sizeChunksFrom cfg lines language start minEnd chunks ->
  forall c, In c chunks ->
    1 <= StartLine c <= EndLine c /\ EndLine c <= len lines /\
    Content c = Join (linesBetween lines (StartLine c) (EndLine c)) [LF] /\
    Name c = str "chunk_" ++ itoa (StartLine c) ++ str "_" ++ itoa (EndLine c) /\
    EntityType c = str "chunk" /\ Language c = language.
Proof.
  induction chunks as [|c0 rest IH]; intros start minEnd Hstart Hshape c Hin; [easy|].
  cbn [sizeChunksFrom] in Hshape.
  destruct Hshape as (Hs & Hse & Hme & Hc & Ht & Hn & Hl & _ & _ & _ & Hrest).
  destruct Hin as [<-|Hin].
  - rewrite Hs. repeat split; try lia; assumption.
  - eapply IH; [|exact Hrest|exact Hin]. lia.
Qed.

(** What the shape says of two consecutive chunks. *)
Lemma sizeChunksFrom_adjacent (cfg : Config) (lines : list gostring) (language : gostring)
    (chunks : list CodeChunk) :
  forall start minEnd,
  sizeChunksFrom cfg lines language start minEnd chunks ->
  forall (i : nat) prev next,
    chunks !! i = Some prev -> chunks !! S i = Some next ->
    StartLine next
      = EndLine prev - Z.min (ChunkOverlap cfg) (EndLine prev - StartLine prev + 1) + 1 /\
    EndLine prev < EndLine next /\
    MaxChunkSize cfg <= linesSize (linesBetween lines (StartLine prev) (EndLine prev)) /\
    StartLine prev <= EndLine prev /\
    (forall e, EndLine prev < e < EndLine next ->
               linesSize (linesBetween lines (StartLine next) e) < MaxChunkSize cfg).
Proof.
  induction chunks as [|c0 rest IH]; intros start minEnd Hshape i prev next Hi Hsi; [easy|].
  cbn [sizeChunksFrom] in Hshape.
  destruct Hshape as (Hs & Hse & Hme & _ & _ & _ & _ & _ & Hthr & Hlast & Hrest).
  destruct i as [|i].
  - cbn in Hi. injection Hi as ->.
    destruct rest as [|c1 rest]; [discriminate|]. cbn in Hsi. injection Hsi as ->.
    cbn [sizeChunksFrom] in Hrest.
    destruct Hrest as (Hs1 & _ & Hme1 & _ & _ & _ & _ & Hmin1 & _).
    subst start. split; [exact Hs1|]. split; [lia|]. split.
    { apply Hthr, Hlast. discriminate. }
    split; [lia|].
    intros e He. rewrite Hs1. apply Hmin1. lia.
  - exact (IH _ _ Hrest i prev next Hi Hsi).
Qed.

(** X1. Every chunk [chunkBySize] returns holds the text of the lines
    [StartLine .. EndLine] of the file, joined by line feeds; the range lies
    within the file, and the chunk is of type [chunk], named
    [chunk_<StartLine>_<EndLine>], in the language given. *)
Theorem chunkBySize_chunk_text (cfg : Config)
    (content filePath projectPath language : gostring) (chunks : list CodeChunk) :
  chunkBySize cfg content filePath projectPath language = Some chunks ->
  forall c, In c chunks ->
    1 <= StartLine c <= EndLine c /\ EndLine c <= numLines content /\
    Content c = Join (linesBetween (Split content LF) (StartLine c) (EndLine c)) [LF] /\
    Name c = str "chunk_" ++ itoa (StartLine c) ++ str "_" ++ itoa (EndLine c) /\
    EntityType c = str "chunk" /\ Language c = language.
Proof.
  intros Hrun. destruct (Z_lt_le_dec (MaxChunkSize cfg) (len content)) as [Hbig|Hsmall].
  - apply (sizeChunksFrom_each cfg (Split content LF) language chunks 1 1); [lia|].
    exact (chunkBySize_shape _ _ _ _ _ _ Hbig Hrun).
  - unfold chunkBySize in Hrun. cbv zeta in Hrun.
    apply Z.leb_le in Hsmall. rewrite Hsmall in Hrun. injection Hrun as <-.
    intros c [<-|[]].
    cbn [StartLine EndLine Content EntityType Name Language sizeChunk]. unfold numLines.
    pose proof (Split_not_nil content LF) as Hne.
    assert (1 <= len (Split content LF)).
    { unfold len. destruct (Split content LF); [congruence | simpl; lia]. }
    split; [lia|]. split; [lia|]. split; [|repeat split].
    unfold linesBetween. replace (Z.to_nat (1 - 1)) with 0%nat by lia.
    replace (Z.to_nat (len (Split content LF) - 1 + 1)) with (length (Split content LF))
      by (unfold len; lia).
    rewrite drop_0, firstn_all. symmetry. apply Join_Split.
Qed.

Lemma chunkBySize_chunk_text_witness :
  exists chunks,
    chunkBySize sample_config sample_text (str "a.py") (str "/src") (str "Python")
      = Some chunks /\
    forall c, In c chunks ->
      1 <= StartLine c <= EndLine c /\ EndLine c <= numLines sample_text /\
      Content c
        = Join (linesBetween (Split sample_text LF) (StartLine c) (EndLine c)) [LF] /\
      Name c = str "chunk_" ++ itoa (StartLine c) ++ str "_" ++ itoa (EndLine c) /\
      EntityType c = str "chunk" /\ Language c = str "Python".
Proof.
  eexists. split; [reflexivity|].
  apply (chunkBySize_chunk_text sample_config sample_text (str "a.py") (str "/src")).
  reflexivity.
Defined.

(** X2. The overlap of [chunkBySize] is counted in lines: a chunk that
    follows another starts [min(ChunkOverlap, number of lines of the earlier
    chunk)] lines before the line after the earlier chunk, and ends after
    it. *)
Theorem chunkBySize_overlap_in_lines (cfg : Config)
    (content filePath projectPath language : gostring) (chunks : list CodeChunk)
    (i : nat) (prev next : CodeChunk) :
  chunkBySize cfg content filePath projectPath language = Some chunks ->
  chunks !! i = Some prev -> chunks !! S i = Some next ->
  StartLine next
    = EndLine prev + 1 - Z.min (ChunkOverlap cfg) (EndLine prev - StartLine prev + 1) /\
  EndLine prev < EndLine next.
Proof.
  intros Hrun Hi Hsi.
  destruct (Z_lt_le_dec (MaxChunkSize cfg) (len content)) as [Hbig|Hsmall].
  - pose proof (chunkBySize_shape _ _ _ _ _ _ Hbig Hrun) as Hshape.
    destruct (sizeChunksFrom_adjacent _ _ _ _ _ _ Hshape i prev next Hi Hsi)
      as (Hs & He & _).
    split; [lia | exact He].
  - unfold chunkBySize in Hrun. cbv zeta in Hrun.
    apply Z.leb_le in Hsmall. rewrite Hsmall in Hrun. injection Hrun as <-.
    destruct i; discriminate.
Qed.

Lemma chunkBySize_overlap_in_lines_witness :
  exists chunks prev next,
    chunkBySize sample_config sample_text (str "a.py") (str "/src") (str "Python")
      = Some chunks /\
    chunks !! 1%nat = Some prev /\ chunks !! 2%nat = Some next /\
    StartLine next
      = EndLine prev + 1
        - Z.min (ChunkOverlap sample_config) (EndLine prev - StartLine prev + 1) /\
    EndLine prev < EndLine next.
Proof.
  eexists. eexists. eexists.
  split; [reflexivity|]. split; [reflexivity|]. split; [reflexivity|].
  eapply (chunkBySize_overlap_in_lines sample_config sample_text (str "a.py") (str "/src")
           (str "Python") _ 1%nat); reflexivity.
Defined.

(** X3. Every chunk of [chunkBySize] but the last has reached the size
    threshold: its text and one line feed are at least [MaxChunkSize] bytes
    long. *)
Theorem chunkBySize_reaches_threshold (cfg : Config)
    (content filePath projectPath language : gostring) (chunks : list CodeChunk)
    (i : nat) (c : CodeChunk) :
  chunkBySize cfg content filePath projectPath language = Some chunks ->
  chunks !! i = Some c -> (S i < length chunks)%nat ->
  MaxChunkSize cfg <= len (Content c) + 1.
Proof.
  intros Hrun Hi Hlt.
  destruct (lookup_lt_is_Some_2 chunks (S i) Hlt) as [next Hsi].
  destruct (Z_lt_le_dec (MaxChunkSize cfg) (len content)) as [Hbig|Hsmall].
  - pose proof (chunkBySize_shape _ _ _ _ _ _ Hbig Hrun) as Hshape.
    destruct (sizeChunksFrom_adjacent _ _ _ _ _ _ Hshape i c next Hi Hsi)
      as (_ & _ & Hthr & Hse & _).
    apply list_elem_of_lookup_2 in Hi. rewrite list_elem_of_In in Hi.
    destruct (sizeChunksFrom_each _ _ _ _ 1 1 ltac:(lia) Hshape c Hi)
      as (Hrange & Hend & Hc & _).
    rewrite Hc. rewrite <- linesSize_Join; [exact Hthr|].
    apply linesBetween_not_nil; lia.
  - unfold chunkBySize in Hrun. cbv zeta in Hrun.
    apply Z.leb_le in Hsmall. rewrite Hsmall in Hrun. injection Hrun as <-.
    cbn in Hlt. lia.
Qed.

Lemma chunkBySize_reaches_threshold_witness :
  exists chunks c,
    chunkBySize sample_config sample_text (str "a.py") (str "/src") (str "Python")
      = Some chunks /\
    chunks !! 0%nat = Some c /\ (1 < length chunks)%nat /\
    MaxChunkSize sample_config <= len (Content c) + 1.
Proof.
  eexists. eexists.
  split; [reflexivity|]. split; [reflexivity|]. split; [cbn; lia|].
  eapply (chunkBySize_reaches_threshold sample_config sample_text (str "a.py") (str "/src")
           (str "Python") _ 0%nat); [reflexivity | reflexivity | cbn; lia].
Defined.

(** X4. A negative [ChunkOverlap] makes [chunkBySize] panic on every text
    longer than [MaxChunkSize]: the slice that keeps the overlap lines is out
    of range at the first chunk. *)
Theorem chunkBySize_negative_overlap_panics (cfg : Config)
    (content filePath projectPath language : gostring) :
  ChunkOverlap cfg < 0 -> MaxChunkSize cfg < len content ->
  chunkBySize cfg content filePath projectPath language = None.
Proof.
  intros Hov Hbig. unfold chunkBySize. cbv zeta.
  destruct (len content <=? MaxChunkSize cfg) eqn:E; [apply Z.leb_le in E; lia|].
  apply chunkBySize_loop_negative_overlap; [exact Hov | apply Split_not_nil].
Qed.

Lemma chunkBySize_negative_overlap_panics_witness :
  ChunkOverlap {| MaxChunkSize := 5; ChunkOverlap := -1 |} < 0 /\
  MaxChunkSize {| MaxChunkSize := 5; ChunkOverlap := -1 |} < len sample_text /\
  chunkBySize {| MaxChunkSize := 5; ChunkOverlap := -1 |} sample_text
    (str "a.py") (str "/src") (str "Python") = None.
Proof.
  split; [reflexivity|]. split; [reflexivity|].
  apply chunkBySize_negative_overlap_panics; reflexivity.
Defined.

(** X5. Once a chunk of [chunkBySize] has no more than [ChunkOverlap] lines,
    all of it is carried over: the next chunk starts on the same line and
    ends one line later, so it is the earlier chunk and one more line. *)
Theorem chunkBySize_short_chunk_grows_by_one_line (cfg : Config)
    (content filePath projectPath language : gostring) (chunks : list CodeChunk)
    (i : nat) (prev next : CodeChunk) :
  chunkBySize cfg content filePath projectPath language = Some chunks ->
  chunks !! i = Some prev -> chunks !! S i = Some next ->
  EndLine prev - StartLine prev + 1 <= ChunkOverlap cfg ->
  StartLine next = StartLine prev /\ EndLine next = EndLine prev + 1.
Proof.
  intros Hrun Hi Hsi Hshort.
  destruct (Z_lt_le_dec (MaxChunkSize cfg) (len content)) as [Hbig|Hsmall].
  - pose proof (chunkBySize_shape _ _ _ _ _ _ Hbig Hrun) as Hshape.
    destruct (sizeChunksFrom_adjacent _ _ _ _ _ _ Hshape i prev next Hi Hsi)
      as (Hs & He & Hthr & Hse & Hmin).
    assert (Hstart : StartLine next = StartLine prev) by lia.
    split; [exact Hstart|].
    destruct (Z.eq_dec (EndLine next) (EndLine prev + 1)) as [|Hne]; [assumption|].
    specialize (Hmin (EndLine prev + 1) ltac:(lia)). rewrite Hstart in Hmin.
    pose proof (linesBetween_mono (Split content LF) (StartLine prev) (EndLine prev)
                  (EndLine prev + 1) ltac:(lia)).
    lia.
  - unfold chunkBySize in Hrun. cbv zeta in Hrun.
    apply Z.leb_le in Hsmall. rewrite Hsmall in Hrun. injection Hrun as <-.
    destruct i; discriminate.
Qed.

Lemma chunkBySize_short_chunk_grows_by_one_line_witness :
  exists chunks prev next,
    chunkBySize {| MaxChunkSize := 5; ChunkOverlap := 3 |} sample_text
      (str "a.py") (str "/src") (str "Python") = Some chunks /\
    chunks !! 0%nat = Some prev /\ chunks !! 1%nat = Some next /\
    EndLine prev - StartLine prev + 1
      <= ChunkOverlap {| MaxChunkSize := 5; ChunkOverlap := 3 |} /\
    StartLine next = StartLine prev /\ EndLine next = EndLine prev + 1.
Proof.
  eexists. eexists. eexists.
  split; [reflexivity|]. split; [reflexivity|]. split; [reflexivity|].
  split; [apply Z.leb_le; reflexivity|].
  eapply (chunkBySize_short_chunk_grows_by_one_line {| MaxChunkSize := 5; ChunkOverlap := 3 |}
           sample_text (str "a.py") (str "/src") (str "Python") _ 0%nat);
    [reflexivity | reflexivity | reflexivity | apply Z.leb_le; reflexivity].
Defined.

(** ** The structural chunker never panics *)

Lemma lookup_nth (l : list Z) :
  forall n, (n < length l)%nat -> l !! n = Some (nth n l 0).
Proof.
  induction l as [|x l IH]; intros n Hn; simpl in Hn; [lia|].
  destruct n as [|n]; [reflexivity|]. cbn. apply IH. lia.
Qed.

Lemma index_nth (l : list Z) (i : Z) :
  0 <= i < len l -> index l i = Some (nth (Z.to_nat i) l 0).
Proof.
  intros Hi. unfold index. destruct (i <? 0) eqn:E; [apply Z.ltb_lt in E; lia|].
  apply lookup_nth. unfold len in Hi. lia.
Qed.

(** A predicate that is defined between the bounds is never asked
    anything else. *)
Lemma Search_loop_checked_total (f : Z -> option bool) (g : Z -> bool) (fuel : nat) :
  forall i j, 0 <= i ->
  (forall h, i <= h < j -> f h = Some (g h)) ->
  Search_loop_checked fuel f i j = Some (Search_loop fuel g i j).
Proof.
  induction fuel as [|fuel IH]; intros i j Hi Hf; cbn [Search_loop_checked Search_loop];
    [reflexivity|].
  destruct (i <? j) eqn:E; [|reflexivity]. apply Z.ltb_lt in E. cbv zeta.
  assert (Hh : i <= (i + j) / 2 < j).
  { split; [apply Z.div_le_lower_bound; lia | apply Z.div_lt_upper_bound; lia]. }
  rewrite (Hf _ Hh). destruct (negb (g ((i + j) / 2))).
  - apply IH; [lia|]. intros h Hrange. apply Hf. lia.
  - apply IH; [lia|]. intros h Hrange. apply Hf. lia.
Qed.

Lemma lineOf_checked_total (linePositions : list Z) (offset : Z) :
  lineOf_checked linePositions offset = Some (lineOf linePositions offset).
Proof.
  unfold lineOf_checked, lineOf, Search_checked, Search.
  rewrite (Search_loop_checked_total _
             (fun i => offset <? nth (Z.to_nat i) linePositions 0)); [reflexivity | lia |].
  intros h Hh. now rewrite index_nth.
Qed.

Lemma slice_substr (content : gostring) (a b : Z) :
  0 <= a -> a <= b -> b <= len content -> slice content a b = Some (substr content a b).
Proof.
  intros Ha Hab Hb. unfold slice, substr.
  destruct (a <? 0) eqn:E1; [apply Z.ltb_lt in E1; lia|].
  destruct (b <? a) eqn:E2; [apply Z.ltb_lt in E2; lia|].
  destruct (len content <? b) eqn:E3; [apply Z.ltb_lt in E3; lia|].
  reflexivity.
Qed.

(** Every group that takes part in all matches of a pattern is reported, with
    offsets inside the match, hence inside the text. *)
Lemma group_bounded (r : regex) (content : gostring) (m : submatch) (i : nat) :
  In m (FindAllStringSubmatchIndex r content) -> In i (captured r) ->
  exists a b, group i m = Some (a, b) /\
              sm_start m <= a /\ a <= b /\ b <= sm_end m /\
              0 <= sm_start m /\ sm_end m <= len content.
Proof.
  unfold FindAllStringSubmatchIndex. intros Hm Hi.
  apply findAll_matchAt in Hm as (before & after & Hcontent & Hstart & Hmatch).
  apply matchAt_sound in Hmatch as (w & s' & Hafter & _ & _ & Hend & Hwithin & Hall).
  destruct (Hall i Hi) as [ab Hab].
  assert (Hlen : len content = len before + len w + len s')
    by (rewrite Hcontent, Hafter, !len_app; lia).
  pose proof (len_nonneg before). pose proof (len_nonneg s').
  unfold group. destruct (List.find _ (sm_groups m)) as [[j [a b]]|] eqn:Efind.
  - apply List.find_some in Efind as [Hin _].
    pose proof (proj1 (List.Forall_forall _ _) Hwithin _ Hin) as Hg. cbn in Hg.
    exists a, b. cbn. repeat split; lia.
  - pose proof (List.find_none _ _ Efind _ Hab) as Hno. cbn in Hno.
    rewrite Nat.eqb_refl in Hno. discriminate.
Qed.

Lemma toGoMatch_checked_total (r : regex) (content : gostring) (method : bool)
    (m : submatch) :
  In 1%nat (captured r) -> In 2%nat (captured r) ->
  In m (FindAllStringSubmatchIndex r content) ->
  toGoMatch_checked content method m = Some (toGoMatch content method m).
Proof.
  intros H1 H2 Hm. unfold toGoMatch_checked, toGoMatch.
  destruct (group_bounded r content m 1 Hm H1) as (a1 & b1 & -> & ?).
  destruct (group_bounded r content m 2 Hm H2) as (a2 & b2 & -> & ?).
  simpl. rewrite !slice_substr by lia. reflexivity.
Qed.

Lemma mapM_total {A B : Type} (f : A -> option B) (g : A -> B) (l : list A) :
  (forall x, In x l -> f x = Some (g x)) -> mapM f l = Some (map g l).
Proof.
  induction l as [|x l IH]; intros Hf; [reflexivity|].
  cbn. rewrite (Hf x (or_introl eq_refl)). cbn.
  rewrite IH by (intros y Hy; apply Hf; now right). reflexivity.
Qed.

Lemma goChunks_checked_total (content filePath projectPath : gostring)
    (linePositions : list Z) (allMatches : list goMatch) :
  ascending allMatches ->
  Forall (fun m => 0 <= start m <= len content) allMatches ->
  goChunks_checked content filePath projectPath linePositions allMatches
  = Some (goChunks content filePath projectPath linePositions allMatches).
Proof.
  induction allMatches as [|m rest IH]; intros Hasc Hb; [reflexivity|].
  cbn [goChunks_checked goChunks]. cbv zeta.
  rewrite !lineOf_checked_total.
  inversion Hb as [|? ? Hm Hrest]; subst.
  assert (Hend : start m <= match rest with next :: _ => start next | [] => len content end
                 /\ match rest with next :: _ => start next | [] => len content end
                    <= len content).
  { destruct rest as [|next rest']; [lia|].
    inversion Hrest as [|? ? Hnext _]; subst. destruct Hasc as [Hle _]. lia. }
  rewrite slice_substr by lia.
  rewrite IH; [reflexivity | | exact Hrest].
  destruct rest as [|next rest']; [exact I | exact (proj2 Hasc)].
Qed.

Lemma allMatches_within (content : gostring) (method : bool) (r : regex) :
  Forall (fun m => 0 <= start m <= len content)
    (map (toGoMatch content method) (FindAllStringSubmatchIndex r content)).
Proof.
  apply List.Forall_forall. intros m Hm. apply in_map_iff in Hm as (sm & <- & Hin).
  apply findAll_starts in Hin. cbn. lia.
Qed.

(** X6. [chunkGoCode] never panics: on every text, each slice expression
    ([content[m[2]:m[3]]], [content[m[4]:m[5]]], [content[startPos:endPos]])
    and each [linePositions[i]] is within bounds, and the chunks are those
    of the model without checks. *)
Theorem chunkGoCode_never_panics (content filePath projectPath : gostring) :
  chunkGoCode_checked content filePath projectPath
  = Some (chunkGoCode content filePath projectPath).
Proof.
  unfold chunkGoCode_checked, chunkGoCode. cbv zeta.
  rewrite (mapM_total _ (toGoMatch content false)).
  2:{ intros m Hm. apply (toGoMatch_checked_total funcPattern); [| |exact Hm];
        vm_compute; tauto. }
  rewrite (mapM_total _ (toGoMatch content true)).
  2:{ intros m Hm. apply (toGoMatch_checked_total methodPattern); [| |exact Hm];
        vm_compute; tauto. }
  apply goChunks_checked_total; [apply sortByStart_ascending|].
  apply List.Forall_forall. intros m Hm.
  apply (proj1 (In_sortByStart _ _)) in Hm. apply in_app_or in Hm.
  destruct Hm as [Hm|Hm];
    exact (proj1 (List.Forall_forall _ _) (allMatches_within content _ _) m Hm).
Qed.

(** ** What the structural chunks hold *)

Lemma substr_then_rest (content : gostring) (a b : Z) :
  0 <= a -> a <= b ->
  substr content a b ++ drop (Z.to_nat b) content = drop (Z.to_nat a) content.
Proof.
  intros Ha Hab. unfold substr.
  replace (Z.to_nat b) with (Z.to_nat a + Z.to_nat (b - a))%nat by lia.
  rewrite <- drop_drop. apply take_drop.
Qed.

Lemma substr_to_end (content : gostring) (a : Z) :
  0 <= a -> substr content a (len content) = drop (Z.to_nat a) content.
Proof.
  intros Ha. unfold substr. apply take_ge. rewrite length_drop. unfold len. lia.
Qed.

Lemma goChunks_contents (content filePath projectPath : gostring) (linePositions : list Z)
    (rest : list goMatch) :
  forall m,
  ascending (m :: rest) ->
  Forall (fun m => 0 <= start m <= len content) (m :: rest) ->
  concat (map Content (goChunks content filePath projectPath linePositions (m :: rest)))
  = drop (Z.to_nat (start m)) content.
Proof.
  induction rest as [|next rest IH]; intros m Hasc Hb;
    inversion Hb as [|? ? Hm Hrest]; subst.
  - cbn. rewrite app_nil_r. apply substr_to_end. lia.
  - pose proof (IH next (proj2 Hasc) Hrest) as IHn.
    cbn [goChunks map concat Content] in IHn |- *. cbv zeta in IHn |- *.
    rewrite IHn.
    apply substr_then_rest; [lia | exact (proj1 Hasc)].
Qed.

Lemma ascending_head (rest : list goMatch) :
  forall m, ascending (m :: rest) -> Forall (fun x => start m <= start x) rest.
Proof.
  induction rest as [|m' rest IH]; intros m Hasc; [constructor|].
  destruct Hasc as [Hle Hasc]. constructor; [exact Hle|].
  eapply List.Forall_impl; [|exact (IH m' Hasc)]. cbv beta. intros x Hx. lia.
Qed.

Lemma insertByStart_length (x : goMatch) (sorted : list goMatch) :
  length (insertByStart x sorted) = S (length sorted).
Proof.
  induction sorted as [|m' rest IH]; [reflexivity|].
  cbn [insertByStart]. destruct (start m' <? start x); cbn [length]; [|reflexivity].
  now rewrite IH.
Qed.

Lemma sortByStart_length (ms : list goMatch) : length (sortByStart ms) = length ms.
Proof.
  induction ms as [|m ms IH]; [reflexivity|].
  cbn [sortByStart fold_right]. rewrite insertByStart_length. cbn [length].
  f_equal. exact IH.
Qed.

Lemma goChunks_length (content filePath projectPath : gostring) (linePositions : list Z)
    (allMatches : list goMatch) :
  length (goChunks content filePath projectPath linePositions allMatches)
  = length allMatches.
Proof.
  induction allMatches as [|m rest IH]; [reflexivity|].
  cbn [goChunks length]. cbv zeta. cbn [length]. now rewrite IH.
Qed.

(** X7. The contents of the chunks of [chunkGoCode] are consecutive pieces
    of the file from its first declaration on.  There is one chunk for each
    match of the function pattern or the method pattern, and when there is a
    match, the contents of the chunks joined in order are the file from the
    offset at which its first match starts (no match starts before it) to
    its end: what stands before that offset is in no chunk, and nothing
    from there on is lost or repeated. *)
Theorem chunkGoCode_contents_contiguous (content filePath projectPath : gostring) :
  declarations content <> [] ->
  exists first,
    In first (declarations content) /\
    (forall m, In m (declarations content) -> sm_start first <= sm_start m) /\
    0 <= sm_start first <= len content /\
    length (chunkGoCode content filePath projectPath) = length (declarations content) /\
    concat (map Content (chunkGoCode content filePath projectPath))
    = drop (Z.to_nat (sm_start first)) content /\
    content
    = take (Z.to_nat (sm_start first)) content
      ++ concat (map Content (chunkGoCode content filePath projectPath)).
Proof.
  intros Hne. unfold chunkGoCode, declarations in *. cbv zeta.
  set (funcMatches := FindAllStringSubmatchIndex funcPattern content) in *.
  set (methodMatches := FindAllStringSubmatchIndex methodPattern content) in *.
  set (unsorted := map (toGoMatch content false) funcMatches
                   ++ map (toGoMatch content true) methodMatches).
  assert (Hasc : ascending (sortByStart unsorted)) by apply sortByStart_ascending.
  assert (Hb : Forall (fun m => 0 <= start m <= len content) (sortByStart unsorted)).
  { apply List.Forall_forall. intros m Hm.
    apply (proj1 (In_sortByStart _ _)) in Hm. apply in_app_or in Hm.
    destruct Hm as [Hm|Hm];
      exact (proj1 (List.Forall_forall _ _) (allMatches_within content _ _) m Hm). }
  assert (Hlen : length (sortByStart unsorted) = length (funcMatches ++ methodMatches)).
  { rewrite sortByStart_length. unfold unsorted. now rewrite !length_app, !length_map. }
  assert (Hfrom : forall d, In d (funcMatches ++ methodMatches) ->
                  exists m, In m (sortByStart unsorted) /\ start m = sm_start d).
  { intros d Hd. apply in_app_or in Hd. destruct Hd as [Hd|Hd].
    - exists (toGoMatch content false d). split; [|reflexivity].
      apply In_sortByStart. apply in_or_app. left. now apply in_map.
    - exists (toGoMatch content true d). split; [|reflexivity].
      apply In_sortByStart. apply in_or_app. right. now apply in_map. }
  destruct (sortByStart unsorted) as [|m rest] eqn:Esorted.
  { destruct (funcMatches ++ methodMatches); [congruence | discriminate Hlen]. }
  assert (Hm : In m unsorted).
  { apply In_sortByStart. rewrite Esorted. now left. }
  assert (Hfirst : exists first, In first (funcMatches ++ methodMatches)
                                 /\ start m = sm_start first).
  { unfold unsorted in Hm. apply in_app_or in Hm.
    destruct Hm as [Hm|Hm]; apply in_map_iff in Hm as (d & <- & Hd);
      exists d; (split; [apply in_or_app; auto | reflexivity]). }
  destruct Hfirst as (first & Hin & Hstart).
  pose proof (ascending_head rest m Hasc) as Hleast.
  pose proof (goChunks_contents content filePath projectPath
                (linePositionsFrom (Split content LF) 0) rest m Hasc Hb) as Hcontents.
  exists first. rewrite <- Hstart. split; [exact Hin|]. split; [|split; [|split; [|split]]].
  - intros d Hd. destruct (Hfrom d Hd) as (x & Hx & <-).
    destruct Hx as [<-|Hx]; [lia|].
    exact (proj1 (List.Forall_forall _ _) Hleast x Hx).
  - exact (proj1 (List.Forall_forall _ _) Hb m (or_introl eq_refl)).
  - now rewrite goChunks_length.
  - exact Hcontents.
  - rewrite Hcontents. symmetry. apply take_drop.
Qed.

Lemma chunkGoCode_contents_contiguous_witness :
  declarations twoFuncsFile <> [] /\
  exists first,
    In first (declarations twoFuncsFile) /\
    (forall m, In m (declarations twoFuncsFile) -> sm_start first <= sm_start m) /\
    0 <= sm_start first <= len twoFuncsFile /\
    length (chunkGoCode twoFuncsFile (str "a.go") (str "."))
    = length (declarations twoFuncsFile) /\
    concat (map Content (chunkGoCode twoFuncsFile (str "a.go") (str ".")))
    = drop (Z.to_nat (sm_start first)) twoFuncsFile /\
    twoFuncsFile
    = take (Z.to_nat (sm_start first)) twoFuncsFile
      ++ concat (map Content (chunkGoCode twoFuncsFile (str "a.go") (str "."))).
Proof.
  assert (Hne : declarations twoFuncsFile <> []) by (vm_compute; discriminate).
  split; [exact Hne|].
  exact (chunkGoCode_contents_contiguous twoFuncsFile (str "a.go") (str ".") Hne).
Defined.

Lemma goChunks_shared_line (content filePath projectPath : gostring) (linePositions : list Z)
    (allMatches : list goMatch) :
  forall (i : nat) prev next,
  goChunks content filePath projectPath linePositions allMatches !! i = Some prev ->
  goChunks content filePath projectPath linePositions allMatches !! S i = Some next ->
  EndLine prev = StartLine next.
Proof.
  induction allMatches as [|m rest IH]; intros i prev next Hi Hsi; [discriminate|].
  destruct i as [|i].
  - destruct rest as [|m' rest']; [discriminate|].
    cbn in Hi, Hsi. injection Hi as <-. injection Hsi as <-. reflexivity.
  - exact (IH i prev next Hi Hsi).
Qed.

(** X8. The line ranges of consecutive chunks of [chunkGoCode] share a
    line: a chunk's [EndLine] is the line on which the next declaration
    starts, that is, the next chunk's [StartLine]. *)
Theorem chunkGoCode_line_ranges_share_a_line (content filePath projectPath : gostring)
    (i : nat) (prev next : CodeChunk) :
  chunkGoCode content filePath projectPath !! i = Some prev ->
  chunkGoCode content filePath projectPath !! S i = Some next ->
  EndLine prev = StartLine next.
Proof. unfold chunkGoCode. cbv zeta. apply goChunks_shared_line. Qed.

Lemma chunkGoCode_line_ranges_share_a_line_witness :
  exists prev next,
    chunkGoCode twoFuncsFile (str "a.go") (str ".") !! 0%nat = Some prev /\
    chunkGoCode twoFuncsFile (str "a.go") (str ".") !! 1%nat = Some next /\
    EndLine prev = StartLine next.
Proof.
  eexists. eexists. split; [vm_compute; reflexivity|]. split; [vm_compute; reflexivity|].
  eapply (chunkGoCode_line_ranges_share_a_line twoFuncsFile (str "a.go") (str ".") 0%nat);
    vm_compute; reflexivity.
Defined.

(** ** What storeChunks leaves in the store *)

Lemma storeEach_step (now : gostring) (c : CodeChunk) (rest : list CodeChunk) (db : Store) :
  fst (storeEach now (c :: rest) db)
  = fst (storeEach now rest (if unchanged c db then db else mergeChunk now c db)).
Proof.
  cbn [storeEach]. destruct (unchanged c db); [reflexivity|].
  now destruct (storeEach now rest (mergeChunk now c db)).
Qed.

Lemma storeChunks_chunkNodes {tables : UnicodeTables} (now : gostring) (chunks : list CodeChunk)
    (filePath projectPath : gostring) (db : Store) :
  exists db0,
    chunkNodes db0 = chunkNodes db /\
    storeChunks now chunks filePath projectPath db = storeEach now chunks db0.
Proof. eexists. split; [|reflexivity]. reflexivity. Qed.

Lemma storeEach_keeps (now : gostring) (chunks : list CodeChunk) :
  forall db id node,
  chunkNodes db !! id = Some node ->
  exists node',
    chunkNodes (fst (storeEach now chunks db)) !! id = Some node' /\
    c_created_at node' = c_created_at node /\
    (~ In id (map ID chunks) -> node' = node).
Proof.
  induction chunks as [|c rest IH]; intros db id node Hnode.
  - exists node. repeat split; assumption.
  - rewrite storeEach_step. destruct (unchanged c db).
    + destruct (IH db id node Hnode) as (node' & Hlook & Hcreated & Hsame).
      exists node'. repeat split; try assumption.
      intros Hid. apply Hsame. intros Hin. apply Hid. now right.
    + destruct (decide (ID c = id)) as [Heq|Hne].
      * destruct (IH (mergeChunk now c db) id
                    (nodeOf (c_created_at node) now c)) as (node' & Hlook & Hcreated & _).
        { cbn [mergeChunk chunkNodes]. subst id. rewrite Hnode.
          apply lookup_insert_eq. }
        exists node'. repeat split; try assumption.
        intros Hid. exfalso. apply Hid. now left.
      * destruct (IH (mergeChunk now c db) id node) as (node' & Hlook & Hcreated & Hsame).
        { cbn [mergeChunk chunkNodes]. now rewrite lookup_insert_ne. }
        exists node'. repeat split; try assumption.
        intros Hid. apply Hsame. intros Hin. apply Hid. now right.
Qed.

(** X9. [storeChunks] never removes a chunk node: a node in the store
    before the call is there afterwards with the same creation time, and
    exactly as it was when none of the chunks has its id; so the chunks of an
    earlier version of a file whose line ranges no longer occur stay in the
    store. *)
Theorem storeChunks_never_deletes {tables : UnicodeTables}
    (now : gostring) (chunks : list CodeChunk)
    (filePath projectPath : gostring) (db : Store) (id : gostring) (node : ChunkNode) :
  chunkNodes db !! id = Some node ->
  exists node',
    chunkNodes (fst (storeChunks now chunks filePath projectPath db)) !! id = Some node' /\
    c_created_at node' = c_created_at node /\
    (~ In id (map ID chunks) -> node' = node).
Proof.
  intros Hnode.
  destruct (storeChunks_chunkNodes now chunks filePath projectPath db) as (db0 & H0 & ->).
  apply storeEach_keeps. now rewrite H0.
Qed.

Lemma storeEach_each (now : gostring) (chunks : list CodeChunk) :
  forall db,
  NoDup (map ID chunks) ->
  forall c, In c chunks ->
  chunkNodes (fst (storeEach now chunks db)) !! ID c
  = if unchanged c db then chunkNodes db !! ID c
    else Some (nodeOf (match chunkNodes db !! ID c with
                       | Some old => c_created_at old
                       | None => now
                       end) now c).
Proof.
  induction chunks as [|c0 rest IH]; intros db Hnd c Hin; [destruct Hin|].
  cbn [map] in Hnd. apply NoDup_cons in Hnd as [Hfresh Hnd].
  rewrite list_elem_of_In in Hfresh.
  rewrite storeEach_step. destruct Hin as [<-|Hin].
  - rewrite storeEach_frame by exact Hfresh.
    destruct (unchanged c0 db); [reflexivity|].
    cbn [mergeChunk chunkNodes]. rewrite lookup_insert_eq. reflexivity.
  - assert (Hne : ID c0 <> ID c).
    { intros Heq. apply Hfresh. rewrite Heq. now apply in_map. }
    rewrite (IH _ Hnd c Hin).
    destruct (unchanged c0 db); [reflexivity|].
    unfold unchanged. cbn [mergeChunk chunkNodes]. now rewrite lookup_insert_ne.
Qed.

(** X10. What [storeChunks] makes of each chunk, the ids of the chunks
    being pairwise distinct: a chunk whose id is stored with the same hash
    is left as it is in the store, whatever else of it differs (its
    embedding, for one); any other chunk is stored with all its properties,
    the creation time of the node it replaces, if any, and the time of the
    call as update time. *)
Theorem storeChunks_stores_each_chunk {tables : UnicodeTables}
    (now : gostring) (chunks : list CodeChunk)
    (filePath projectPath : gostring) (db : Store) (c : CodeChunk) :
  NoDup (map ID chunks) -> In c chunks ->
  chunkNodes (fst (storeChunks now chunks filePath projectPath db)) !! ID c
  = if unchanged c db then chunkNodes db !! ID c
    else Some (nodeOf (match chunkNodes db !! ID c with
                       | Some old => c_created_at old
                       | None => now
                       end) now c).
Proof.
  intros Hnd Hin. unfold storeChunks. cbv zeta.
  rewrite (storeEach_each now chunks _ Hnd c Hin). reflexivity.
Qed.

Lemma mergeProject_linked (now projectPath projectName : gostring) (db : Store) :
  linked db -> linked (mergeProject now projectPath projectName db).
Proof.
  intros [Hchunks Hfiles]. split; cbn [mergeProject chunkNodes partOf files belongsTo projects].
  - exact Hchunks.
  - intros fp Hfp. destruct (Hfiles fp Hfp) as (pp & Hedge & Hproject).
    exists pp. split; [exact Hedge|].
    destruct (decide (projectPath = pp)) as [->|Hne].
    + rewrite lookup_insert_eq. eauto.
    + now rewrite lookup_insert_ne.
Qed.

Lemma mergeFile_linked (now filePath fileName language projectPath : gostring)
    (db : Store) :
  is_Some (projects db !! projectPath) ->
  linked db -> linked (mergeFile now filePath fileName language projectPath db).
Proof.
  intros Hproject [Hchunks Hfiles].
  destruct Hproject as [p Hp].
  split; cbn [mergeFile chunkNodes partOf files belongsTo projects]; rewrite ?Hp.
  - intros id node Hnode. destruct (Hchunks id node Hnode) as [Hedge Hfile].
    split; [exact Hedge|].
    destruct (decide (filePath = c_file_path node)) as [->|Hne].
    + rewrite lookup_insert_eq. eauto.
    + now rewrite lookup_insert_ne.
  - intros fp Hfp. destruct (decide (filePath = fp)) as [->|Hne].
    + exists projectPath. split; [|eauto].
      apply elem_of_union. left. now apply elem_of_singleton.
    + rewrite lookup_insert_ne in Hfp by exact Hne.
      destruct (Hfiles fp Hfp) as (pp & Hedge & Hproject).
      exists pp. split; [|exact Hproject].
      apply elem_of_union. now right.
Qed.

Lemma mergeChunk_linked (now : gostring) (c : CodeChunk) (db : Store) :
  is_Some (files db !! FilePath c) ->
  linked db -> linked (mergeChunk now c db).
Proof.
  intros [f Hf] [Hchunks Hfiles].
  split; cbn [mergeChunk chunkNodes partOf files belongsTo projects]; rewrite ?Hf.
  - intros id node Hnode. destruct (decide (ID c = id)) as [<-|Hne].
    + rewrite lookup_insert_eq in Hnode. injection Hnode as <-. cbn.
      split; [|eauto].
      apply elem_of_union. left. now apply elem_of_singleton.
    + rewrite lookup_insert_ne in Hnode by exact Hne.
      destruct (Hchunks id node Hnode) as [Hedge Hfile]. split; [|exact Hfile].
      apply elem_of_union. now right.
  - exact Hfiles.
Qed.

Lemma storeEach_files (now : gostring) (chunks : list CodeChunk) :
  forall db, files (fst (storeEach now chunks db)) = files db.
Proof.
  induction chunks as [|c rest IH]; intros db; [reflexivity|].
  rewrite storeEach_step, IH. now destruct (unchanged c db).
Qed.

Lemma storeEach_linked (now filePath : gostring) (chunks : list CodeChunk) :
  Forall (fun c => FilePath c = filePath) chunks ->
  forall db, is_Some (files db !! filePath) -> linked db ->
  linked (fst (storeEach now chunks db)).
Proof.
  induction 1 as [|c rest Hc Hrest IH]; intros db Hfile Hlinked; [exact Hlinked|].
  rewrite storeEach_step. destruct (unchanged c db); [now apply IH|].
  apply IH; [exact Hfile|].
  apply mergeChunk_linked; [now rewrite Hc | exact Hlinked].
Qed.

(** X11. [storeChunks] keeps the graph linked: if every chunk node is
    [PART_OF] the file node of its [file_path] and every file node
    [BELONGS_TO] a project node before the call, and the chunks carry the
    file path they are stored under, the same holds afterwards. *)
Theorem storeChunks_keeps_linked {tables : UnicodeTables} (now : gostring) (chunks : list CodeChunk)
    (filePath projectPath : gostring) (db : Store) :
  Forall (fun c => FilePath c = filePath) chunks ->
  linked db ->
  linked (fst (storeChunks now chunks filePath projectPath db)).
Proof.
  intros Hpaths Hlinked. unfold storeChunks. cbv zeta.
  apply (storeEach_linked now filePath chunks Hpaths).
  - cbn [mergeFile files]. rewrite lookup_insert_eq. eauto.
  - apply mergeFile_linked.
    + cbn [mergeProject projects]. rewrite lookup_insert_eq. eauto.
    + now apply mergeProject_linked.
Qed.

Lemma storeChunks_never_deletes_witness :
  chunkNodes sampleStore !! str "fn" = Some shortFunction /\
  exists node',
    chunkNodes (fst (storeChunks (tables := plainTables)
        (str "t1") twoChunks (str "a.py") (str ".") sampleStore))
      !! str "fn" = Some node' /\
    c_created_at node' = c_created_at shortFunction /\
    (~ In (str "fn") (map ID twoChunks) -> node' = shortFunction).
Proof.
  assert (H : chunkNodes sampleStore !! str "fn" = Some shortFunction)
    by apply lookup_insert_eq.
  split; [exact H|].
  exact (storeChunks_never_deletes (tables := plainTables)
      (str "t1") twoChunks (str "a.py") (str ".") sampleStore
           (str "fn") shortFunction H).
Defined.

Lemma linked_emptyStore : linked emptyStore.
Proof.
  split.
  - intros id node H. cbn in H. rewrite lookup_empty in H. discriminate.
  - intros fp [f H]. cbn in H. rewrite lookup_empty in H. discriminate.
Qed.

Lemma storeChunks_keeps_linked_witness :
  Forall (fun c => FilePath c = str "a.py") twoChunks /\
  linked emptyStore /\
  linked (fst (storeChunks (tables := plainTables)
      (str "t1") twoChunks (str "a.py") (str ".") emptyStore)).
Proof.
  assert (Hpaths : Forall (fun c => FilePath c = str "a.py") twoChunks)
    by (repeat constructor).
  split; [exact Hpaths|]. split; [exact linked_emptyStore|].
  exact (storeChunks_keeps_linked (tables := plainTables)
      (str "t1") twoChunks (str "a.py") (str ".") emptyStore
           Hpaths linked_emptyStore).
Defined.

Lemma storeChunks_stores_each_chunk_witness :
  let chunks := map (withIdentity (str "a.py")) twoChunks in
  let c := withIdentity (str "a.py")
             (sizeChunk (str "a.py") (str ".") (str "Python") (str "y = 2") 2 2) in
  NoDup (map ID chunks) /\ In c chunks /\
  chunkNodes (fst (storeChunks (tables := plainTables)
      (str "t1") chunks (str "a.py") (str ".") sampleStore)) !! ID c
  = if unchanged c sampleStore then chunkNodes sampleStore !! ID c
    else Some (nodeOf (match chunkNodes sampleStore !! ID c with
                       | Some old => c_created_at old
                       | None => str "t1"
                       end) (str "t1") c).
Proof.
  intros chunks c.
  assert (Hnd : NoDup (map ID chunks)).
  { apply (bool_decide_unpack _). vm_compute. exact I. }
  assert (Hin : In c chunks) by (right; left; reflexivity).
  split; [exact Hnd|]. split; [exact Hin|].
  exact (storeChunks_stores_each_chunk (tables := plainTables)
      (str "t1") chunks (str "a.py") (str ".") sampleStore
           c Hnd Hin).
Defined.

(** ** generateEmbeddings and the size of the reply *)

(** X12. What [generateEmbeddings] does with a reply that decodes, by the
    number of vectors in it: with more vectors than chunks the assignment
    loop indexes past the chunks and panics; with no more vectors than
    chunks it returns without an error, chunk [i] carries vector [i] where
    there is one and is left as it was where there is none. *)
Theorem generateEmbeddings_reply_size (service : EmbeddingService)
    (chunks : list CodeChunk) (embeddings : list (list float)) :
  chunks <> [] ->
  service (map Content chunks) = Decoded embeddings ->
  ((length chunks < length embeddings)%nat -> generateEmbeddings service chunks = None) /\
  ((length embeddings <= length chunks)%nat ->
   exists chunks',
     generateEmbeddings service chunks = Some (Ok chunks') /\
     length chunks' = length chunks /\
     forall i c, chunks !! i = Some c ->
       chunks' !! i = Some (match embeddings !! i with
                            | Some e => withEmbedding e c
                            | None => c
                            end)).
Proof.
  intros Hne Hreply. rewrite (generateEmbeddings_decoded service chunks embeddings Hne Hreply).
  split.
  - intros Hlt. apply Nat.leb_gt in Hlt. now rewrite Hlt.
  - intros Hle. pose proof Hle as Hleb. apply Nat.leb_le in Hleb. rewrite Hleb.
    eexists. split; [reflexivity|]. split.
    + rewrite length_app, length_zip_with, length_take, length_drop. lia.
    + intros i c Hc. destruct (embeddings !! i) as [e|] eqn:Ee.
      * pose proof (lookup_lt_Some _ _ _ Ee) as Hi.
        rewrite lookup_app_l by (rewrite length_zip_with, length_take; lia).
        rewrite lookup_zip_with, Ee. cbn.
        rewrite lookup_take_lt by exact Hi. now rewrite Hc.
      * pose proof (proj1 (lookup_ge_None _ _) Ee) as Hi.
        rewrite lookup_app_r by (rewrite length_zip_with, length_take; lia).
        rewrite length_zip_with, length_take, lookup_drop.
        replace (length embeddings + (i - length embeddings `min` (length embeddings
                   `min` length chunks)))%nat with i by lia.
        exact Hc.
Qed.

Lemma generateEmbeddings_reply_size_witness :
  twoChunks <> [] /\
  oneVectorService (map Content twoChunks) = Decoded [[1%float]] /\
  ((length twoChunks < length [[1%float]])%nat ->
   generateEmbeddings oneVectorService twoChunks = None) /\
  ((length [[1%float]] <= length twoChunks)%nat ->
   exists chunks',
     generateEmbeddings oneVectorService twoChunks = Some (Ok chunks') /\
     length chunks' = length twoChunks /\
     forall i c, twoChunks !! i = Some c ->
       chunks' !! i = Some (match [[1%float]] !! i with
                            | Some e => withEmbedding e c
                            | None => c
                            end)).
Proof.
  assert (Hne : twoChunks <> []) by discriminate.
  split; [exact Hne|]. split; [reflexivity|].
  exact (generateEmbeddings_reply_size oneVectorService twoChunks [[1%float]] Hne eq_refl).
Defined.

(** X13. [generateEmbeddings] returns an error exactly when there is a
    chunk and the request to the embedding service fails or its body does
    not decode; the error is that of the client behind
    [failed to generate embeddings: ].  Without chunks it returns at once,
    whatever the service would answer. *)
Theorem generateEmbeddings_error (service : EmbeddingService) (chunks : list CodeChunk)
    (msg : gostring) :
  generateEmbeddings service chunks = Some (Error msg) <->
  chunks <> [] /\
  exists e,
    (service (map Content chunks) = TransportError e \/
     service (map Content chunks) = UndecodableBody e) /\
    msg = str "failed to generate embeddings: " ++ e.
Proof.
  unfold generateEmbeddings, getEmbeddings. destruct chunks as [|c chunks].
  - split; [discriminate | intros [H _]; congruence].
  - destruct (service (map Content (c :: chunks))) as [e|e|embeddings].
    + split.
      * intros [= <-]. split; [discriminate|]. exists e. split; [now left | reflexivity].
      * intros (_ & e' & [[= <-]|[=]] & ->). reflexivity.
    + split.
      * intros [= <-]. split; [discriminate|]. exists e. split; [now right | reflexivity].
      * intros (_ & e' & [[=]|[= <-]] & ->). reflexivity.
    + split.
      * destruct (assignEmbeddings 0 embeddings (c :: chunks)); discriminate.
      * intros (_ & e' & [[=]|[=]] & _).
Qed.

(** ** More on the two searches *)

Lemma filter_all {A : Type} (P : A -> Prop) `{forall x, Decision (P x)} (l : list A) :
  (forall x, P x) -> filter P l = l.
Proof.
  intros HP. induction l as [|x l IH]; [reflexivity|].
  rewrite filter_cons_True by apply HP. now rewrite IH.
Qed.

(** X14. [SearchCode] returns what [SearchCodeAdvanced] returns without
    language and path filters, with the minimum score [0.1] and the keyword
    filter off. *)
Theorem SearchCode_is_unfiltered_search {tables : UnicodeTables}
    (cosine : list float -> list float -> float)
    (service : EmbeddingService) (query : gostring) (limit : Z) (db : Store) :
  SearchCode cosine service query limit db
  = SearchCodeAdvanced cosine service query limit [] [] 0.1%float false db.
Proof.
  unfold SearchCode, SearchCodeAdvanced.
  destruct (getEmbeddings service [query]) as [embeddings|e]; [|reflexivity].
  destruct embeddings as [|q others]; [reflexivity|].
  destruct q as [|x q]; [reflexivity|]. cbv zeta.
  destruct (bool_decide (size (chunkNodes db) = 0%nat)); [reflexivity|].
  destruct (limit <? 0); [reflexivity|].
  now rewrite filter_all by reflexivity.
Qed.

Section SearchFacts.

Context {tables : UnicodeTables}.

Variable cosine : list float -> list float -> float.
Variable service : EmbeddingService.

(** The rows [SearchCodeAdvanced] returns, by the chunk nodes they come
    from. *)
Lemma SearchCodeAdvanced_rows (query : gostring) (limit : Z)
    (languages pathFilters : list gostring) (minScore : float) (useKeywords : bool)
    (db : Store) (rows : list CodeChunk) :
  SearchCodeAdvanced cosine service query limit languages pathFilters minScore
    useKeywords db = Ok rows ->
  rows = [] /\ chunkNodes db = ∅ \/
  exists queryEmbedding others,
    getEmbeddings service [query] = Ok (queryEmbedding :: others) /\
    0 <= limit /\
    rows = take (Z.to_nat limit)
             (orderByScoreDesc
                (scoredRows cosine queryEmbedding minScore
                   (filter (fun row => candidate languages pathFilters
                                         (extractKeywords query) useKeywords (snd row) = true)
                      (map_to_list (chunkNodes db))))).
Proof.
  unfold SearchCodeAdvanced.
  destruct (getEmbeddings service [query]) as [embeddings|e]; [|discriminate].
  destruct embeddings as [|q others]; [discriminate|].
  destruct q as [|x q]; [discriminate|]. cbv zeta.
  destruct (bool_decide (size (chunkNodes db) = 0%nat)) eqn:Esize.
  { intros [= <-]. left. split; [reflexivity|].
    apply bool_decide_eq_true in Esize. now apply map_size_empty_iff. }
  destruct (limit <? 0) eqn:El; [discriminate|]. apply Z.ltb_ge in El.
  intros [= <-]. right. exists (x :: q), others. repeat split. exact El.
Qed.

Lemma SearchCodeAdvanced_row (query : gostring) (limit : Z)
    (languages pathFilters : list gostring) (minScore : float) (useKeywords : bool)
    (db : Store) (rows : list CodeChunk) (r : CodeChunk) :
  SearchCodeAdvanced cosine service query limit languages pathFilters minScore
    useKeywords db = Ok rows ->
  In r rows ->
  exists node,
    chunkNodes db !! ID r = Some node /\
    r = toChunk (ID r) node (Score r) /\
    candidate languages pathFilters (extractKeywords query) useKeywords node = true.
Proof.
  intros Hrun Hr.
  destruct (SearchCodeAdvanced_rows _ _ _ _ _ _ _ _ Hrun)
    as [[-> _]|(q & others & _ & _ & ->)]; [destruct Hr|].
  apply list_elem_of_In, subseteq_take, list_elem_of_In in Hr.
  apply In_orderByScoreDesc, In_scoredRows in Hr as (id & c & Hin & -> & _ & _).
  apply list_elem_of_In, list_elem_of_filter in Hin as [Hcand Hin].
  apply elem_of_map_to_list in Hin.
  exists c. repeat split; assumption.
Qed.

End SearchFacts.

(** X15. Every row [SearchCodeAdvanced] returns passes each filter that is
    in force: its language is one of [languages] when there is one, its
    file path is accepted by the regular expression of one of the
    [pathFilters] when there is one, and, keywords being on and the query
    having a keyword of more than three bytes, its content contains one of
    these keywords (as [extractKeywords] gives them, in lower case). *)
Theorem SearchCodeAdvanced_filters {tables : UnicodeTables}
    (cosine : list float -> list float -> float)
    (service : EmbeddingService) (query : gostring) (limit : Z)
    (languages pathFilters : list gostring) (minScore : float) (useKeywords : bool)
    (db : Store) (rows : list CodeChunk) (r : CodeChunk) :
  SearchCodeAdvanced cosine service query limit languages pathFilters minScore
    useKeywords db = Ok rows ->
  In r rows ->
  (languages <> [] -> In (Language r) languages) /\
  (pathFilters <> [] ->
   exists glob, In glob pathFilters /\ globAccepts glob (FilePath r) = true) /\
  (useKeywords = true ->
   (exists k, In k (extractKeywords query) /\ 3 < len k) ->
   exists k, In k (extractKeywords query) /\ 3 < len k /\
             Contains (Content r) k = true).
Proof.
  intros Hrun Hr.
  destruct (SearchCodeAdvanced_row cosine service _ _ _ _ _ _ _ _ r Hrun Hr)
    as (node & _ & -> & Hcand).
  cbn [toChunk Language FilePath Content].
  unfold candidate in Hcand. apply andb_true_iff in Hcand as [Hcand Hk].
  apply andb_true_iff in Hcand as [Hl Hp].
  split; [|split].
  - intros Hne. destruct languages as [|l ls]; [congruence|].
    apply existsb_exists in Hl as (x & Hx & Heq). apply eqString_true in Heq.
    now rewrite Heq.
  - intros Hne. destruct pathFilters as [|p ps]; [congruence|].
    apply existsb_exists in Hp as (glob & Hin & Hacc). eauto.
  - intros -> (k0 & Hk0 & Hlong).
    destruct (filter (fun k => 3 <? len k) (extractKeywords query)) as [|k ks] eqn:Ef.
    + exfalso. assert (Hin : k0 ∈ filter (fun k => 3 <? len k) (extractKeywords query)).
      { apply list_elem_of_filter. split; [|now apply list_elem_of_In].
        apply Is_true_true. now apply Z.ltb_lt. }
      rewrite Ef in Hin. inversion Hin.
    + apply existsb_exists in Hk as (k' & Hin & Hcontains).
      rewrite <- Ef in Hin. apply list_elem_of_In, list_elem_of_filter in Hin as [Hlen Hin].
      apply Is_true_true, Z.ltb_lt in Hlen. apply list_elem_of_In in Hin. eauto.
Qed.

Lemma SearchCodeAdvanced_filters_witness :
  exists rows r,
    SearchCodeAdvanced (tables := plainTables)
        halfCosine unitService (str "find xxxx") 10 [str "Go"]
      [str "src/*"] 0.1%float true sampleStore = Ok rows /\
    In r rows /\
    ([str "Go"] <> [] -> In (Language r) [str "Go"]) /\
    ([str "src/*"] <> [] ->
     exists glob, In glob [str "src/*"] /\ globAccepts glob (FilePath r) = true) /\
    (true = true ->
     (exists k, In k (extractKeywords (tables := plainTables) (str "find xxxx")) /\ 3 < len k) ->
     exists k, In k (extractKeywords (tables := plainTables) (str "find xxxx")) /\ 3 < len k /\
               Contains (Content r) k = true).
Proof.
  eexists. eexists. split; [vm_compute; reflexivity|]. split; [left; reflexivity|].
  eapply (SearchCodeAdvanced_filters (tables := plainTables)
      halfCosine unitService (str "find xxxx") 10
            [str "Go"] [str "src/*"] 0.1%float true sampleStore);
    [vm_compute; reflexivity | left; reflexivity].
Defined.

Lemma insertByScore_Permutation (r : CodeChunk) (sorted : list CodeChunk) :
  insertByScore r sorted ≡ₚ r :: sorted.
Proof.
  induction sorted as [|r' rest IH]; [reflexivity|].
  cbn [insertByScore]. destruct (Score r' <? Score r)%float; [reflexivity|].
  rewrite IH. apply Permutation_swap.
Qed.

Lemma orderByScoreDesc_Permutation (rows : list CodeChunk) :
  orderByScoreDesc rows ≡ₚ rows.
Proof.
  induction rows as [|r rows IH]; [reflexivity|].
  unfold orderByScoreDesc in *. cbn [fold_right].
  now rewrite insertByScore_Permutation, IH.
Qed.

Lemma scoredRows_ids (cosine : list float -> list float -> float)
    (queryEmbedding : list float) (minScore : float)
    (candidates : list (gostring * ChunkNode)) :
  map ID (scoredRows cosine queryEmbedding minScore candidates)
    `sublist_of` map fst candidates.
Proof.
  induction candidates as [|[id c] rest IH]; [constructor|].
  unfold scoredRows in *. cbn [flat_map map fst]. cbv zeta.
  destruct (minScore <? cosine (c_embedding c) queryEmbedding)%float;
    [|now apply sublist_cons].
  destruct (minScore <? adjusted (cosine (c_embedding c) queryEmbedding) c)%float;
    [|now apply sublist_cons].
  cbn [app map toChunk ID]. now apply sublist_skip.
Qed.

(** X16. The rows [SearchCodeAdvanced] returns are rows of stored chunk
    nodes, each node at most once: a row has the content, file path, line
    range, entity type, name, signature and language of the node stored
    under its id, and never a project path, an embedding or a hash. *)
Theorem SearchCodeAdvanced_rows_are_stored_nodes {tables : UnicodeTables}
    (cosine : list float -> list float -> float) (service : EmbeddingService)
    (query : gostring) (limit : Z) (languages pathFilters : list gostring)
    (minScore : float) (useKeywords : bool) (db : Store) (rows : list CodeChunk) :
  SearchCodeAdvanced cosine service query limit languages pathFilters minScore
    useKeywords db = Ok rows ->
  NoDup (map ID rows) /\
  forall r, In r rows ->
    exists node,
      chunkNodes db !! ID r = Some node /\
      Content r = c_content node /\ FilePath r = c_file_path node /\
      StartLine r = c_start_line node /\ EndLine r = c_end_line node /\
      EntityType r = c_entity_type node /\ Name r = c_name node /\
      Signature r = c_signature node /\ Language r = c_language node /\
      ProjectPath r = [] /\ Embedding r = [] /\ Hash r = [].
Proof.
  intros Hrun. split.
  - destruct (SearchCodeAdvanced_rows cosine service _ _ _ _ _ _ _ _ Hrun)
      as [[-> _]|(q & others & _ & _ & ->)]; [constructor|].
    eapply sublist_NoDup; [|apply fmap_sublist, sublist_take].
    change (NoDup (map ID (orderByScoreDesc (scoredRows cosine q minScore
              (filter (fun row => candidate languages pathFilters (extractKeywords query)
                                    useKeywords (snd row) = true)
                 (map_to_list (chunkNodes db))))))).
    rewrite orderByScoreDesc_Permutation.
    eapply sublist_NoDup; [|apply scoredRows_ids].
    eapply sublist_NoDup; [|apply fmap_sublist, sublist_filter].
    apply NoDup_fst_map_to_list.
  - intros r Hr.
    destruct (SearchCodeAdvanced_row cosine service _ _ _ _ _ _ _ _ r Hrun Hr)
      as (node & Hnode & Hrow & _).
    exists node. split; [exact Hnode|]. rewrite Hrow. cbn. repeat split.
Qed.

Lemma SearchCodeAdvanced_rows_are_stored_nodes_witness :
  exists rows,
    SearchCodeAdvanced (tables := plainTables)
        halfCosine unitService (str "server") 10 [] [] 0.1%float false
      sampleStore = Ok rows /\
    length rows = 2%nat /\
    NoDup (map ID rows) /\
    forall r, In r rows ->
      exists node,
        chunkNodes sampleStore !! ID r = Some node /\
        Content r = c_content node /\ FilePath r = c_file_path node /\
        StartLine r = c_start_line node /\ EndLine r = c_end_line node /\
        EntityType r = c_entity_type node /\ Name r = c_name node /\
        Signature r = c_signature node /\ Language r = c_language node /\
        ProjectPath r = [] /\ Embedding r = [] /\ Hash r = [].
Proof.
  eexists. split; [vm_compute; reflexivity|]. split; [reflexivity|].
  apply (SearchCodeAdvanced_rows_are_stored_nodes (tables := plainTables)
      halfCosine unitService (str "server")
           10 [] [] 0.1%float false sampleStore).
  vm_compute. reflexivity.
Defined.

Lemma scoredRows_complete (cosine : list float -> list float -> float)
    (queryEmbedding : list float) (minScore : float)
    (candidates : list (gostring * ChunkNode)) (id : gostring) (c : ChunkNode) :
  In (id, c) candidates ->
  fltLt minScore (cosine (c_embedding c) queryEmbedding) ->
  fltLt minScore (adjusted (cosine (c_embedding c) queryEmbedding) c) ->
  In (toChunk id c (adjusted (cosine (c_embedding c) queryEmbedding) c))
    (scoredRows cosine queryEmbedding minScore candidates).
Proof.
  intros Hin Hv Hs. unfold scoredRows. apply in_flat_map. exists (id, c).
  split; [exact Hin|]. cbv zeta. unfold fltLt in Hv, Hs. rewrite Hv, Hs. now left.
Qed.

(** X17. [SearchCodeAdvanced] leaves out no better chunk: a stored chunk
    that passes the filters and whose similarity and final score are above
    [minScore] is among the rows returned, unless the limit is reached and
    every row returned scores at least as high. *)
Theorem SearchCodeAdvanced_returns_the_best {tables : UnicodeTables}
    (cosine : list float -> list float -> float) (service : EmbeddingService)
    (query : gostring) (limit : Z) (languages pathFilters : list gostring)
    (minScore : float) (useKeywords : bool) (db : Store) (rows : list CodeChunk)
    (queryEmbedding : list float) (others : list (list float))
    (id : gostring) (node : ChunkNode) :
  SearchCodeAdvanced cosine service query limit languages pathFilters minScore
    useKeywords db = Ok rows ->
  getEmbeddings service [query] = Ok (queryEmbedding :: others) ->
  chunkNodes db !! id = Some node ->
  candidate languages pathFilters (extractKeywords query) useKeywords node = true ->
  fltLt minScore (cosine (c_embedding node) queryEmbedding) ->
  fltLt minScore (adjusted (cosine (c_embedding node) queryEmbedding) node) ->
  In (toChunk id node (adjusted (cosine (c_embedding node) queryEmbedding) node)) rows \/
  (len rows = limit /\
   forall r, In r rows ->
     fltLe (adjusted (cosine (c_embedding node) queryEmbedding) node) (Score r)).
Proof.
  intros Hrun Hq Hnode Hcand Hv Hs.
  destruct (SearchCodeAdvanced_rows cosine service _ _ _ _ _ _ _ _ Hrun)
    as [[_ Hempty]|(q & others' & Hq' & Hlimit & Hrows)].
  { rewrite Hempty, lookup_empty in Hnode. discriminate. }
  rewrite Hq in Hq'. injection Hq' as <- <-.
  set (all := scoredRows cosine queryEmbedding minScore _) in Hrows.
  set (r0 := toChunk id node (adjusted (cosine (c_embedding node) queryEmbedding) node)).
  assert (Hin : In r0 (orderByScoreDesc all)).
  { apply In_orderByScoreDesc. apply scoredRows_complete; [|exact Hv|exact Hs].
    apply list_elem_of_In, list_elem_of_filter. split; [exact Hcand|].
    now apply elem_of_map_to_list. }
  assert (Hsorted : sortedByScoreDesc (orderByScoreDesc all)).
  { apply StronglySorted_lookup, (orderByScoreDesc_sorted minScore).
    apply List.Forall_forall. intros r Hr.
    now apply In_scoredRows in Hr as (_ & _ & _ & _ & _ & H). }
  apply list_elem_of_In, list_elem_of_lookup_1 in Hin as [j Hj].
  destruct (decide (j < Z.to_nat limit)%nat) as [Hlt|Hge].
  - left. rewrite Hrows. apply list_elem_of_In.
    apply (list_elem_of_lookup_2 _ j). now rewrite lookup_take_lt.
  - right. pose proof (lookup_lt_Some _ _ _ Hj) as Hlen. split.
    + rewrite Hrows. unfold len. rewrite length_take. lia.
    + intros r Hr. rewrite Hrows in Hr.
      apply list_elem_of_In, list_elem_of_lookup_1 in Hr as [i Hi].
      apply lookup_take_Some in Hi as [Hi Hilt].
      exact (Hsorted i j r r0 ltac:(lia) Hi Hj).
Qed.

Lemma SearchCodeAdvanced_returns_the_best_witness :
  exists rows,
    SearchCodeAdvanced (tables := plainTables)
        halfCosine unitService (str "server") 1 [] [] 0.1%float false
      sampleStore = Ok rows /\
    getEmbeddings unitService [str "server"] = Ok ([1%float] :: []) /\
    chunkNodes sampleStore !! str "mod" = Some longModule /\
    candidate [] [] (extractKeywords (tables := plainTables)
        (str "server")) false longModule = true /\
    fltLt 0.1 (halfCosine (c_embedding longModule) [1%float]) /\
    fltLt 0.1 (adjusted (halfCosine (c_embedding longModule) [1%float]) longModule) /\
    (In (toChunk (str "mod") longModule
           (adjusted (halfCosine (c_embedding longModule) [1%float]) longModule)) rows \/
     (len rows = 1 /\
      forall r, In r rows ->
        fltLe (adjusted (halfCosine (c_embedding longModule) [1%float]) longModule)
          (Score r))).
Proof.
  eexists. split; [vm_compute; reflexivity|].
  assert (Hnode : chunkNodes sampleStore !! str "mod" = Some longModule).
  { cbn [sampleStore chunkNodes]. rewrite lookup_insert_ne by discriminate.
    apply lookup_insert_eq. }
  split; [reflexivity|]. split; [exact Hnode|]. split; [reflexivity|].
  split; [vm_compute; reflexivity|]. split; [vm_compute; reflexivity|].
  apply (SearchCodeAdvanced_returns_the_best (tables := plainTables)
      halfCosine unitService (str "server") 1 [] []
           0.1%float false sampleStore _ [1%float] [] (str "mod") longModule);
    [vm_compute; reflexivity | reflexivity | exact Hnode | reflexivity
    | vm_compute; reflexivity | vm_compute; reflexivity].
Defined.
